(** * Outlook sent-items pipeline: fetch, aggregate, reconcile

    A shallow embedding of [main.py] (and of the logger of [app.py] with
    its cancellation flag) together with the properties of the fetch /
    aggregate / reconcile pipeline.

    Conventions of the embedding.
    - A Python [str] is a [string]; a character is a code point below 256.
    - A Python [dict] used as a map is a [gmap]; the insertion order of a
      dict is not represented.
    - A Python exception is a value of [exn]; code that can raise returns a
      [result].
    - Python integers are unbounded: counts are [nat], stored numbers [Z]. *)

From Stdlib Require Import ZArith Ascii String List Permutation.
From stdpp Require Import base tactics option list gmap strings fin_maps.

Local Open Scope string_scope.
Local Open Scope list_scope.

(** ** Exceptions and results *)

Inductive exn : Type :=
| TypeError
| KeyError
| AttributeError
| ValueError.

Inductive result (A : Type) : Type :=
| Ok (a : A)
| Raise (e : exn).
Arguments Ok {A} a.
Arguments Raise {A} e.

#[global] Instance result_ret : MRet result := fun A a => Ok a.

#[global] Instance result_bind : MBind result := fun A B k m =>
  match m with
  | Ok a => k a
  | Raise e => Raise e
  end.

(** [for x in xs: body] over a state that the body may abandon by raising. *)
Fixpoint for_each {A S : Type} (body : S -> A -> result S) (s : S) (xs : list A)
  : result S :=
  match xs with
  | [] => Ok s
  | x :: xs' => s' ← body s x; for_each body s' xs'
  end.

(** ** Strings *)

Module Str.

Definition code (c : ascii) : N := N_of_ascii c.

(** [str.isspace] on code points below 256. *)
Definition isspace (c : ascii) : bool :=
  let n := code c in
  ((9 <=? n) && (n <=? 13) || (28 <=? n) && (n <=? 32)
   || (n =? 133) || (n =? 160))%N.

(** [str.lower] on one code point below 256. *)
Definition lower_char (c : ascii) : ascii :=
  let n := code c in
  if ((65 <=? n) && (n <=? 90)
      || (192 <=? n) && (n <=? 222) && negb (n =? 215))%N
  then ascii_of_N (n + 32) else c.

Fixpoint lower (s : string) : string :=
  match s with
  | EmptyString => EmptyString
  | String c s' => String (lower_char c) (lower s')
  end.

Fixpoint lstrip (s : string) : string :=
  match s with
  | EmptyString => EmptyString
  | String c s' => if isspace c then lstrip s' else s
  end.

(** [rstrip] keeps a character when it is not a space or when something
    that is kept follows it. *)
Fixpoint rstrip (s : string) : string :=
  match s with
  | EmptyString => EmptyString
  | String c s' =>
      match rstrip s' with
      | EmptyString => if isspace c then EmptyString else String c EmptyString
      | r => String c r
      end
  end.

Definition strip (s : string) : string := rstrip (lstrip s).

(** [s.replace(a, b)] for one-character [a] and [b]. *)
Fixpoint replace (a b : ascii) (s : string) : string :=
  match s with
  | EmptyString => EmptyString
  | String c s' => String (if Ascii.eqb c a then b else c) (replace a b s')
  end.

(** [c in s] for a one-character [c]. *)
Fixpoint contains (c : ascii) (s : string) : bool :=
  match s with
  | EmptyString => false
  | String c' s' => Ascii.eqb c' c || contains c s'
  end.

(** [s.split(c)[-1]]: the part of [s] after the last [c]. *)
Fixpoint last_field (c : ascii) (s : string) : string :=
  match s with
  | EmptyString => EmptyString
  | String c' s' =>
      if contains c s' then last_field c s'
      else if Ascii.eqb c' c then s' else s
  end.

(** [b > a] on strings: code-point lexicographic order. *)
Definition gt (b a : string) : bool := String.ltb a b.

End Str.

(** ** Timestamps: [datetime.strptime] and [strftime]

    [strptime] is modelled after CPython's [_strptime]: the format
    [%Y-%m-%dT%H:%M:%SZ] becomes a regular expression, matched ignoring case
    with backtracking over the alternatives of each directive; the whole
    input has to be consumed, and the fields have to form a valid
    [datetime]. Every failure is a [ValueError]. *)

Module Strptime.

Record datetime : Type := mk_datetime {
  year : N; month : N; day : N;
  hour : N; minute : N; second : N
}.

Definition parser (A : Type) : Type := string -> list (A * string).

Definition in_range (lo hi : ascii) (c : ascii) : bool :=
  ((Str.code lo <=? Str.code c) && (Str.code c <=? Str.code hi))%N.

Definition is_digit : ascii -> bool := in_range "0" "9".

Definition is_char (a : ascii) (c : ascii) : bool := Ascii.eqb c a.

(** [int] of one matched character ([int(" 5")] is 5). *)
Definition digit_value (c : ascii) : N :=
  if is_digit c then (Str.code c - 48)%N else 0%N.

Definition one (p : ascii -> bool) : parser N := fun s =>
  match s with
  | String a r => if p a then [(digit_value a, r)] else []
  | _ => []
  end.

Definition two (p1 p2 : ascii -> bool) : parser N := fun s =>
  match s with
  | String a (String b r) =>
      if p1 a && p2 b then [((10 * digit_value a + digit_value b)%N, r)] else []
  | _ => []
  end.

(** [r1|r2|...]: the alternatives are tried from left to right. *)
Definition alt {A : Type} (ps : list (parser A)) : parser A := fun s =>
  flat_map (fun p => p s) ps.

(** A literal character of the format, matched ignoring case. *)
Definition lit (a : ascii) : parser unit := fun s =>
  match s with
  | String c r =>
      if Ascii.eqb (Str.lower_char c) (Str.lower_char a) then [(tt, r)] else []
  | _ => []
  end.

(** [%Y]: [\d\d\d\d] *)
Definition dir_Y : parser N := fun s =>
  match s with
  | String a (String b (String c (String d r))) =>
      if is_digit a && is_digit b && is_digit c && is_digit d
      then [((1000 * digit_value a + 100 * digit_value b
              + 10 * digit_value c + digit_value d)%N, r)]
      else []
  | _ => []
  end.

(** [%m]: [1[0-2]|0[1-9]|[1-9]] *)
Definition dir_m : parser N :=
  alt [two (is_char "1") (in_range "0" "2");
       two (is_char "0") (in_range "1" "9");
       one (in_range "1" "9")].

(** [%d]: [3[0-1]|[1-2]\d|0[1-9]|[1-9]| [1-9]] *)
Definition dir_d : parser N :=
  alt [two (is_char "3") (in_range "0" "1");
       two (in_range "1" "2") is_digit;
       two (is_char "0") (in_range "1" "9");
       one (in_range "1" "9");
       two (is_char " ") (in_range "1" "9")].

(** [%H]: [2[0-3]|[0-1]\d|\d] *)
Definition dir_H : parser N :=
  alt [two (is_char "2") (in_range "0" "3");
       two (in_range "0" "1") is_digit;
       one is_digit].

(** [%M]: [[0-5]\d|\d] *)
Definition dir_M : parser N :=
  alt [two (in_range "0" "5") is_digit; one is_digit].

(** [%S]: [6[0-1]|[0-5]\d|\d] *)
Definition dir_S : parser N :=
  alt [two (is_char "6") (in_range "0" "1");
       two (in_range "0" "5") is_digit;
       one is_digit].

(** All the ways the expression matches a prefix of the input, in the order
    a backtracking matcher finds them. *)
Definition matches (s : string) : list (datetime * string) :=
  '(yy, s) ← dir_Y s; '(_, s) ← lit "-" s;
  '(mo, s) ← dir_m s; '(_, s) ← lit "-" s;
  '(dd, s) ← dir_d s; '(_, s) ← lit "T" s;
  '(hh, s) ← dir_H s; '(_, s) ← lit ":" s;
  '(mi, s) ← dir_M s; '(_, s) ← lit ":" s;
  '(ss, s) ← dir_S s; '(_, s) ← lit "Z" s;
  [(mk_datetime yy mo dd hh mi ss, s)].

Definition is_leap (y : N) : bool :=
  ((y mod 4 =? 0) && (negb (y mod 100 =? 0) || (y mod 400 =? 0)))%N.

Definition days_in_month (y m : N) : N :=
  (if m =? 2 then (if is_leap y then 29 else 28)
   else if (m =? 4) || (m =? 6) || (m =? 9) || (m =? 11) then 30
   else 31)%N.

(** The checks of the [datetime] constructor. *)
Definition valid (dt : datetime) : bool :=
  ((1 <=? year dt) && (year dt <=? 9999)
   && (1 <=? month dt) && (month dt <=? 12)
   && (1 <=? day dt) && (day dt <=? days_in_month (year dt) (month dt))
   && (hour dt <=? 23) && (minute dt <=? 59) && (second dt <=? 59))%N.

Definition strptime (date_string : string) : result datetime :=
  match matches date_string with
  | [] => Raise ValueError
  | (dt, rest) :: _ =>
      if decide (rest = "") then
        if valid dt then Ok dt else Raise ValueError
      else Raise ValueError
  end.

Definition digit_char (n : N) : ascii := ascii_of_N (48 + n mod 10).

Definition pad2 (n : N) : string :=
  String (digit_char (n / 10)) (String (digit_char n) "").

Definition pad4 (n : N) : string :=
  String (digit_char (n / 1000)) (String (digit_char (n / 100)) (pad2 n)).

(** [dt.strftime("%Y/%m/%d")], the year zero-padded to four digits as the
    library documents it. *)
Definition strftime (dt : datetime) : string :=
  pad4 (year dt) +:+ "/" +:+ pad2 (month dt) +:+ "/" +:+ pad2 (day dt).

End Strptime.

(** [None] is Python's [None]. *)
Definition format_date_for_airtable (date_string : string) : option string :=
  match Strptime.strptime date_string with
  | Ok dt => Some (Strptime.strftime dt)
  | Raise _ => None
  end.

(** ** Source records

    The dictionaries that [fetch_sent_emails] builds, one per message. *)

Record email : Type := mk_email {
  subject : string;
  from : string;
  to : list string;
  cc : list string;
  bcc : list string;
  received : string;
  name_data : gmap string string
}.

(** ** Aggregation *)

(** One entry of [email_stats]. *)
Record summary : Type := mk_summary {
  Recipient_Email : string;
  Company_Management : string;
  Total_Mails_Sent : nat;
  Name : string;
  Last_Interacted_Date : option string
}.

#[global] Instance summary_eq_dec : EqDecision summary.
Proof. solve_decision. Defined.

(** [max(a, b)] on values that are a string or [None]: [b] when [b > a],
    else [a]; comparing with [None] raises. *)
Definition py_max (a b : option string) : result (option string) :=
  match a, b with
  | Some x, Some y => Ok (Some (if Str.gt y x then y else x))
  | _, _ => Raise TypeError
  end.

(** [email["to"] + email["cc"] + email["bcc"]] *)
Definition recipients_of (e : email) : list string := to e ++ cc e ++ bcc e.

(** [recipients.count(recipient)] *)
Definition count (recipient : string) (recipients : list string) : nat :=
  length (filter (fun x => x = recipient) recipients).

Definition domain_of (recipient : string) : string :=
  if Str.contains "@" recipient then Str.last_field "@" recipient else "unknown".

(** The entry created when [recipient] is not yet in [email_stats]. *)
Definition new_entry (e : email) (recipient : string) : summary :=
  {| Recipient_Email := recipient;
     Company_Management := domain_of recipient;
     Total_Mails_Sent := 0;
     Name := default "" (name_data e !! recipient);
     Last_Interacted_Date := format_date_for_airtable (received e) |}.

Definition add_total (n : nat) (entry : summary) : summary :=
  {| Recipient_Email := Recipient_Email entry;
     Company_Management := Company_Management entry;
     Total_Mails_Sent := Total_Mails_Sent entry + n;
     Name := Name entry;
     Last_Interacted_Date := Last_Interacted_Date entry |}.

Definition set_date (d : option string) (entry : summary) : summary :=
  {| Recipient_Email := Recipient_Email entry;
     Company_Management := Company_Management entry;
     Total_Mails_Sent := Total_Mails_Sent entry;
     Name := Name entry;
     Last_Interacted_Date := d |}.

(** The body of the inner loop: create the entry when the recipient is new,
    add the occurrences, merge the date. *)
Definition visit (e : email) (email_stats : gmap string summary)
    (recipient : string) : result (gmap string summary) :=
  let recipients := recipients_of e in
  let email_stats :=
    match email_stats !! recipient with
    | None => <[recipient := new_entry e recipient]> email_stats
    | Some _ => email_stats
    end in
  let email_stats :=
    alter (add_total (count recipient recipients)) recipient email_stats in
  match email_stats !! recipient with
  | None => Raise KeyError
  | Some entry =>
      d ← py_max (Last_Interacted_Date entry)
                 (format_date_for_airtable (received e));
      Ok (alter (set_date d) recipient email_stats)
  end.

(** [set(recipients)]: each address once. The order in which Python walks a
    set of strings is unspecified; [visit_order_irrelevant] below shows that
    the map built does not depend on it. *)
Definition py_set (recipients : list string) : list string :=
  remove_dups recipients.

(** The body of the outer loop. *)
Definition fold_email (email_stats : gmap string summary) (e : email)
  : result (gmap string summary) :=
  for_each (visit e) email_stats (py_set (recipients_of e)).

(** [aggregate_email_data], up to the order of the list it returns: the
    result is [email_stats], whose values the source returns as a list. *)
Definition aggregate_email_data (email_data : list email)
  : result (gmap string summary) :=
  for_each fold_email ∅ email_data.

(** *** Sample records *)

Module AggExamples.

Definition alice := "alice@example.com".
Definition bob := "Bob@Example.com".

Definition e1 : email :=
  {| subject := "hello"; from := "me@corp.com";
     to := [alice]; cc := [alice; bob]; bcc := [];
     received := "2024-03-07T09:15:00Z";
     name_data := {[ alice := "Alice"; bob := "Bob" ]} |}.

Definition e2 : email :=
  {| subject := "again"; from := "me@corp.com";
     to := [alice]; cc := []; bcc := [];
     received := "2024-01-02T10:00:00Z";
     name_data := {[ alice := "Alice A." ]} |}.

Definition e3 : email :=
  {| subject := "minutes"; from := "me@corp.com";
     to := []; cc := []; bcc := [alice];
     received := "2023-11-30T18:45:10Z";
     name_data := {[ alice := "Alice" ]} |}.

Definition e_unknown : email :=
  {| subject := "draft"; from := "me@corp.com";
     to := [alice]; cc := []; bcc := [];
     received := "Unknown";
     name_data := {[ alice := "Alice" ]} |}.

Definition e_nobody : email :=
  {| subject := "No Subject"; from := "Unknown";
     to := []; cc := []; bcc := [];
     received := "Unknown";
     name_data := ∅ |}.

Definition lookup_in (r : string) (m : result (gmap string summary))
  : result (option summary) := m' ← m; Ok (m' !! r).

End AggExamples.

(** *** Vocabulary for the properties of the aggregate *)

(** A record contributes to a recipient that is among its addressees. *)
Definition contributes (r : string) (e : email) : Prop := r ∈ recipients_of e.

#[global] Instance contributes_dec r e : Decision (contributes r e).
Proof. unfold contributes. apply _. Defined.

Definition contributing (r : string) (email_data : list email) : list email :=
  filter (contributes r) email_data.

(** Occurrences of an address in the three address lists of a record. *)
Definition occurrences (r : string) (e : email) : nat :=
  count r (to e) + count r (cc e) + count r (bcc e).

Definition total_occurrences (r : string) (email_data : list email) : nat :=
  sum_list_with (occurrences r) email_data.

(** The formatted dates of the records that contribute to a recipient. *)
Definition dates_of (r : string) (email_data : list email) : list string :=
  omap (fun e => format_date_for_airtable (received e))
       (contributing r email_data).

(** [d] is the greatest string of [ds] in code-point lexicographic order. *)
Definition is_lexical_max (d : string) (ds : list string) : Prop :=
  d ∈ ds ∧ ∀ d', d' ∈ ds → String.le d' d.

Definition display_name (e : email) (r : string) : string :=
  default "" (name_data e !! r).

(** The display name given by the first contributing record. *)
Definition first_name (r : string) (email_data : list email) : string :=
  match contributing r email_data with
  | e :: _ => display_name e r
  | [] => ""
  end.

(** A record on which the date merge cannot succeed: it has an addressee
    and its timestamp does not parse. *)
Definition unparseable (e : email) : Prop :=
  recipients_of e ≠ [] ∧ format_date_for_airtable (received e) = None.

#[global] Instance unparseable_dec e : Decision (unparseable e).
Proof. unfold unparseable. apply _. Defined.

(** What the aggregate holds for a recipient, field by field, the name
    apart. *)
Definition describes (email_data : list email) (r : string)
    (o : option summary) : Prop :=
  match o with
  | None => contributing r email_data = []
  | Some s =>
      contributing r email_data ≠ []
      ∧ Recipient_Email s = r
      ∧ Company_Management s = domain_of r
      ∧ Total_Mails_Sent s = total_occurrences r email_data
      ∧ ∃ d, Last_Interacted_Date s = Some d
             ∧ is_lexical_max d (dates_of r email_data)
  end.

Definition forget_name (s : summary) : summary :=
  {| Recipient_Email := Recipient_Email s;
     Company_Management := Company_Management s;
     Total_Mails_Sent := Total_Mails_Sent s;
     Name := "";
     Last_Interacted_Date := Last_Interacted_Date s |}.

Definition forget_names (res : result (gmap string summary))
  : result (gmap string summary) :=
  match res with
  | Ok m => Ok (forget_name <$> m)
  | Raise err => Raise err
  end.

(** Every record that contributes to a recipient gives it the same display
    name. *)
Definition names_agree (email_data : list email) : Prop :=
  ∀ e1 e2 r, e1 ∈ email_data → e2 ∈ email_data →
    contributes r e1 → contributes r e2 →
    display_name e1 r = display_name e2 r.

Definition later (x y : string) : string := if Str.gt y x then y else x.

Definition bump (e : email) (r : string) (d : option string) (entry : summary)
  : summary :=
  set_date d (add_total (count r (recipients_of e)) entry).

(** Every entry of the map carries a date. *)
Definition dated (m : gmap string summary) : Prop :=
  ∀ r s, m !! r = Some s → is_Some (Last_Interacted_Date s).

(** The aggregate of the two sample records. *)
Definition sample_aggregate : gmap string summary :=
  match aggregate_email_data [AggExamples.e1; AggExamples.e2] with
  | Ok m => m
  | Raise _ => ∅
  end.

(** *** Calendar dates *)



(** ** Reconciliation with the destination table *)

(** The fields of a destination record that the reconciler reads. A field
    that the destination omits is [None]. *)
Record airtable_fields : Type := mk_fields {
  stored_Recipient_Email : option string;
  stored_Total_Mails_Sent : option Z;
  stored_Last_Interacted_Date : option string
}.

Record airtable_record : Type := mk_record {
  record_id : string;
  fields : airtable_fields
}.

(** An element of [update_records]. *)
Record update_record : Type := mk_update {
  update_id : string;
  update_Total_Mails_Sent : nat;
  update_Last_Interacted_Date : option string
}.

Record sync_plan : Type := mk_plan {
  new_records : list summary;
  update_records : list update_record
}.

(** The dict comprehension: keyed by the stored address as it is; a later
    record with the same address replaces an earlier one; a record without
    the address field raises. *)
Definition existing_records_dict (existing_records : list airtable_record)
  : result (gmap string airtable_record) :=
  for_each
    (fun d record =>
       match stored_Recipient_Email (fields record) with
       | Some key => Ok (<[key := record]> d)
       | None => Raise KeyError
       end)
    ∅ existing_records.

(** [entry["Recipient Email"].strip().lower()] *)
Definition normalize (address : string) : string := Str.lower (Str.strip address).

(** The record of the snapshot that is stored under an address: the last
    one, when several records hold it. *)
Definition stored_under (address : string)
    (existing_records : list airtable_record) : option airtable_record :=
  last (filter (fun record =>
                  stored_Recipient_Email (fields record) = Some address)
               existing_records).

(** [needs_update], with the short-circuit of [or]: the date is looked at
    only when the totals are equal, and [None.replace] raises. *)
Definition needs_update (existing_fields : airtable_fields)
    (total_mails_sent : nat) (last_interacted : option string) : result bool :=
  if negb (bool_decide (stored_Total_Mails_Sent existing_fields
                        = Some (Z.of_nat total_mails_sent)))
  then Ok true
  else match last_interacted with
       | Some d =>
           Ok (negb (bool_decide (stored_Last_Interacted_Date existing_fields
                                  = Some (Str.replace "/" "-" d))))
       | None => Raise AttributeError
       end.

(** The body of the loop over [aggregated_data]. *)
Definition reconcile_entry (dict : gmap string airtable_record)
    (plan : sync_plan) (entry : summary) : result sync_plan :=
  let email := normalize (Recipient_Email entry) in
  let total_mails_sent := Total_Mails_Sent entry in
  let last_interacted := Last_Interacted_Date entry in
  match dict !! email with
  | Some record =>
      update ← needs_update (fields record) total_mails_sent last_interacted;
      if update : bool then
        Ok {| new_records := new_records plan;
              update_records :=
                update_records plan
                ++ [{| update_id := record_id record;
                       update_Total_Mails_Sent := total_mails_sent;
                       update_Last_Interacted_Date := last_interacted |}] |}
      else Ok plan
  | None =>
      Ok {| new_records := new_records plan ++ [entry];
            update_records := update_records plan |}
  end.

(** The first half of [push_to_airtable]: from the fetched snapshot and the
    aggregate to the two lists. *)
Definition reconcile (existing_records : list airtable_record)
    (aggregated_data : list summary) : result sync_plan :=
  dict ← existing_records_dict existing_records;
  for_each (reconcile_entry dict)
           {| new_records := []; update_records := [] |} aggregated_data.

(** [l[i : i + 10] for i in range(0, len(l), 10)] *)
Fixpoint chunks_of {A : Type} (fuel : nat) (l : list A) : list (list A) :=
  match fuel, l with
  | S fuel', _ :: _ => take 10 l :: chunks_of fuel' (drop 10 l)
  | _, _ => []
  end.

Definition chunks {A : Type} (l : list A) : list (list A) :=
  chunks_of (length l) l.

(** The write requests of [push_to_airtable]. *)
Inductive airtable_request : Type :=
| POST (records : list summary)
| PATCH (records : list update_record).

(** The second half of [push_to_airtable]: inserts, then updates, ten
    records a request. *)
Definition requests_of (plan : sync_plan) : list airtable_request :=
  map POST (chunks (new_records plan)) ++ map PATCH (chunks (update_records plan)).

Definition push_to_airtable (existing_records : list airtable_record)
    (aggregated_data : list summary) : result (list airtable_request) :=
  plan ← reconcile existing_records aggregated_data;
  Ok (requests_of plan).

(** *** Sample destination data *)

Module SyncExamples.

Definition bob_summary : summary :=
  {| Recipient_Email := "Bob@Example.com";
     Company_Management := "Example.com";
     Total_Mails_Sent := 1;
     Name := "Bob";
     Last_Interacted_Date := Some "2024/03/07" |}.

(** The record that an earlier run inserted for [bob_summary]. *)
Definition bob_stored : airtable_record :=
  {| record_id := "rec001";
     fields := {| stored_Recipient_Email := Some "Bob@Example.com";
                  stored_Total_Mails_Sent := Some 1%Z;
                  stored_Last_Interacted_Date := Some "2024-03-07" |} |}.

Definition carol_summary : summary :=
  {| Recipient_Email := " carol@example.com";
     Company_Management := "example.com";
     Total_Mails_Sent := 4;
     Name := "Carol";
     Last_Interacted_Date := Some "2024/02/01" |}.

Definition carol_stored : airtable_record :=
  {| record_id := "rec002";
     fields := {| stored_Recipient_Email := Some "carol@example.com";
                  stored_Total_Mails_Sent := Some 4%Z;
                  stored_Last_Interacted_Date := Some "2024-02-01" |} |}.

Definition carol_stale : airtable_record :=
  {| record_id := "rec002";
     fields := {| stored_Recipient_Email := Some "carol@example.com";
                  stored_Total_Mails_Sent := Some 3%Z;
                  stored_Last_Interacted_Date := Some "2024-01-15" |} |}.

End SyncExamples.

(** ** The pipeline: pages, workers, cancellation

    [main] runs on one thread, each submitted [process_batch] on a worker
    thread of the pool, and the user may press Stop at any moment. A run is
    modelled as an interleaving of atomic steps of these actors, chosen by a
    schedule; every step appends the actions it performs to a trace. *)

Definition BATCH_SIZE : nat := 50.
Definition MAX_WORKERS : nat := 5.
Definition MAX_RETRIES : nat := 3.
Definition RETRY_DELAY : nat := 10.

(** *** Pages of the source *)

Record recipient : Type := mk_recipient {
  address : string;
  name : string
}.

Record message : Type := mk_message {
  msg_subject : option string;
  msg_sender : option string;
  toRecipients : list recipient;
  ccRecipients : list recipient;
  bccRecipients : list recipient;
  receivedDateTime : option string
}.

Definition extract_emails (data : message) : gmap string string :=
  foldl (fun result recipient => <[address recipient := name recipient]> result)
        ∅ (toRecipients data ++ ccRecipients data ++ bccRecipients data).

(** The [email_info] dictionary built for one message. *)
Definition email_info (msg : message) : email :=
  {| subject := default "No Subject" (msg_subject msg);
     from := default "Unknown" (msg_sender msg);
     to := map address (toRecipients msg);
     cc := map address (ccRecipients msg);
     bcc := map address (bccRecipients msg);
     received := default "Unknown" (receivedDateTime msg);
     name_data := extract_emails msg |}.

(** What [requests.get] gives for a page: a response, or an exception. *)
Inductive reply : Type :=
| Response (status_code : nat) (value : list message) (text : string)
| RequestException (description : string).

(** *** The world around a run *)

(** What [main] is given as [callback_fn]. *)
Inductive callback : Type :=
| NoCallback      (* None *)
| PlainFunction   (* a function: it has no [__self__] *)
| LoggerMethod    (* [logger.add_log] of a [ThreadSafeLogger], as [app.py] passes *)
| ForeignMethod.  (* a bound method of an object without [should_stop] *)

Record world : Type := mk_world {
  callback_fn : callback;
  access_token : option string;
  total_emails : nat;
  (** the reply to the request of a batch made after [retries] failures *)
  graph_get : nat -> nat -> reply;
  fetch_all_airtable_records : result (list airtable_record)
}.

Definition total_batches (w : world) : nat :=
  total_emails w / BATCH_SIZE
  + (if negb (total_emails w mod BATCH_SIZE =? 0)%nat then 1 else 0).

(** *** Actions and states *)

Inductive actor : Type :=
| User
| Main
| Worker (batch : nat).

Inductive log_line : Type :=
| StoppedByUser
| NoAccessToken
| TotalEmails (n : nat)
| BatchFetched (batch : nat)
| FetchFailed (batch attempt : nat) (text : string)
| BatchFailed (batch : nat)
| BatchError (batch : nat) (description : string)
| Uploaded (n : nat)
| Updated (n : nat)
| TotalNew (n : nat)
| TotalUpdated (n : nat)
| FinalError (e : exn).

Inductive event : Type :=
| Stop                                  (* [logger.is_stopped = True] *)
| Poll (who : actor) (answer : bool)    (* a call of [should_stop] *)
| Log (who : actor) (line : log_line)   (* [log_message] *)
| Get (batch retries : nat)             (* [requests.get] of a page *)
| Extend (batch retries : nat)          (* [email_data.extend(batch_emails)] *)
| Sleep (batch seconds : nat)           (* [time.sleep] *)
| Submit (batch : nat)                  (* [executor.submit] *)
| Aggregate (input : list email)        (* [aggregate_email_data(email_data)] *)
| Write (request : airtable_request).   (* a POST or PATCH to the destination *)

(** A future of the pool. A running one is inside [fetch_sent_emails], at
    the head of the loop with [retries] failures so far or, when
    [sleeping], just before the [time.sleep] that follows a failure. *)
Inductive future : Type :=
| Pending
| Running (retries : nat) (sleeping : bool)
| Done
| Cancelled.

(** Where the main thread is. *)
Inductive main_pc : Type :=
| AtStart                   (* the first [should_stop()] *)
| GetToken                  (* [get_access_token()] *)
| AfterToken                (* the second [should_stop()] *)
| CountEmails               (* [get_total_email_count(access_token)] *)
| Submitting (batch : nat)  (* head of the submission loop *)
| AsCompleted (seen : nat)  (* waiting for the next completed future *)
| Leaving (returning : bool)(* end of the [with] block: waits for the pool *)
| Final                     (* [if not should_stop()]: aggregate and push *)
| Returned
| Raised (e : exn).

Record state : Type := mk_state {
  is_stopped : bool;           (* the flag of the [ThreadSafeLogger] *)
  pc : main_pc;
  futures : list future;       (* the future of batch [b] at index [b] *)
  email_data : list email;
  trace : list event
}.

Definition initial : state :=
  {| is_stopped := false; pc := AtStart; futures := [];
     email_data := []; trace := [] |}.

#[global] Instance future_eq_dec : EqDecision future.
Proof. solve_decision. Defined.

(** *** [should_stop] *)

(** [hasattr(callback_fn, '__self__') and callback_fn.__self__.should_stop()] *)
Definition should_stop (w : world) (s : state) : result bool :=
  match callback_fn w with
  | NoCallback | PlainFunction => Ok false
  | LoggerMethod => Ok (is_stopped s)
  | ForeignMethod => Raise AttributeError
  end.

(** *** Steps *)

Definition emit (evs : list event) (s : state) : state :=
  {| is_stopped := is_stopped s; pc := pc s; futures := futures s;
     email_data := email_data s; trace := trace s ++ evs |}.

Definition goto (p : main_pc) (s : state) : state :=
  {| is_stopped := is_stopped s; pc := p; futures := futures s;
     email_data := email_data s; trace := trace s |}.

Definition set_futures (fs : list future) (s : state) : state :=
  {| is_stopped := is_stopped s; pc := pc s; futures := fs;
     email_data := email_data s; trace := trace s |}.

Definition set_future (b : nat) (f : future) (s : state) : state :=
  set_futures (<[b := f]> (futures s)) s.

Definition extend (batch_emails : list email) (s : state) : state :=
  {| is_stopped := is_stopped s; pc := pc s; futures := futures s;
     email_data := email_data s ++ batch_emails; trace := trace s |}.

(** [future.cancel()] on every future: one that has not started is
    cancelled, the others are left alone. *)
Definition cancel_all (fs : list future) : list future :=
  map (fun f => match f with Pending => Cancelled | _ => f end) fs.

Definition settled (f : future) : bool :=
  match f with
  | Done | Cancelled => true
  | Pending | Running _ _ => false
  end.

Definition is_running (f : future) : bool :=
  match f with
  | Running _ _ => true
  | _ => false
  end.

(** A pending future starts when a worker thread is free and no future
    submitted before it is still waiting. *)
Definition can_start (b : nat) (fs : list future) : bool :=
  (length (filter (fun f => is_running f = true) fs) <? MAX_WORKERS)%nat
  && forallb (fun f => negb (bool_decide (f = Pending))) (take b fs).

(** The events of the last step of [main]. *)
Definition write_events (requests : list airtable_request) : list event :=
  flat_map (fun request =>
              [Write request;
               Log Main (match request with
                         | POST records => Uploaded (length records)
                         | PATCH records => Updated (length records)
                         end)])
           requests.

(** [list(email_stats.values())], here in the order of the keys. *)
Definition values (m : gmap string summary) : list summary :=
  (map_to_list m).*2.

Definition final_events (w : world) (data : list email) : list event :=
  Aggregate data ::
  match aggregate_email_data data with
  | Raise e => [Log Main (FinalError e)]
  | Ok m =>
      match fetch_all_airtable_records w with
      | Raise e => [Log Main (FinalError e)]
      | Ok existing_records =>
          match reconcile existing_records (values m) with
          | Raise e => [Log Main (FinalError e)]
          | Ok plan =>
              write_events (requests_of plan)
              ++ [Log Main (TotalNew (length (new_records plan)));
                  Log Main (TotalUpdated (length (update_records plan)))]
          end
      end
  end.

(** One step of the main thread. A step that has to wait (for a completed
    future, for the pool to drain) leaves the state as it is. *)
Definition main_step (w : world) (s : state) : state :=
  match pc s with
  | AtStart =>
      match should_stop w s with
      | Raise e => goto (Raised e) s
      | Ok true =>
          goto Returned (emit [Poll Main true; Log Main StoppedByUser] s)
      | Ok false => goto GetToken (emit [Poll Main false] s)
      end
  | GetToken =>
      match access_token w with
      | None | Some "" => goto Returned (emit [Log Main NoAccessToken] s)
      | Some _ => goto AfterToken s
      end
  | AfterToken =>
      match should_stop w s with
      | Raise e => goto (Raised e) s
      | Ok true =>
          goto Returned (emit [Poll Main true; Log Main StoppedByUser] s)
      | Ok false => goto CountEmails (emit [Poll Main false] s)
      end
  | CountEmails =>
      goto (Submitting 0) (emit [Log Main (TotalEmails (total_emails w))] s)
  | Submitting batch =>
      if (batch <? total_batches w)%nat then
        match should_stop w s with
        | Raise e => goto (Raised e) s
        | Ok true =>
            goto (Leaving true)
              (set_futures (cancel_all (futures s))
                 (emit [Poll Main true; Log Main StoppedByUser] s))
        | Ok false =>
            goto (Submitting (S batch))
              (set_futures (futures s ++ [Pending])
                 (emit [Poll Main false; Submit batch] s))
        end
      else goto (AsCompleted 0) s
  | AsCompleted seen =>
      if (seen <? length (futures s))%nat then
        if (seen <? length (filter (fun f => settled f = true) (futures s)))%nat
        then
          match should_stop w s with
          | Raise e => goto (Raised e) s
          | Ok true =>
              goto (Leaving false)
                (set_futures (cancel_all (futures s))
                   (emit [Poll Main true] s))
          | Ok false => goto (AsCompleted (S seen)) (emit [Poll Main false] s)
          end
        else s
      else goto (Leaving false) s
  | Leaving returning =>
      if forallb settled (futures s)
      then goto (if returning then Returned else Final) s
      else s
  | Final =>
      match should_stop w s with
      | Raise e => goto (Raised e) s
      | Ok true => goto Returned (emit [Poll Main true] s)
      | Ok false =>
          goto Returned
            (emit (Poll Main false :: final_events w (email_data s)) s)
      end
  | Returned | Raised _ => s
  end.

(** One step of the worker that runs [process_batch(batch)]. *)
Definition worker_step (w : world) (batch : nat) (s : state) : state :=
  match futures s !! batch with
  | Some Pending =>
      if can_start batch (futures s) then
        match should_stop w s with
        | Raise _ => set_future batch Done s
        | Ok true => set_future batch Done (emit [Poll (Worker batch) true] s)
        | Ok false =>
            set_future batch (Running 0 false)
              (emit [Poll (Worker batch) false] s)
        end
      else s
  | Some (Running retries false) =>
      if (retries <? MAX_RETRIES)%nat then
        match graph_get w batch retries with
        | Response status_code value _text =>
            if (status_code =? 200)%nat then
              set_future batch Done
                (extend (map email_info value)
                   (emit [Get batch retries; Extend batch retries;
                          Log (Worker batch) (BatchFetched batch)] s))
            else
              set_future batch (Running (retries + 1) true)
                (emit [Get batch retries;
                       Log (Worker batch)
                           (FetchFailed batch (retries + 1) _text)] s)
        | RequestException description =>
            set_future batch Done
              (emit [Get batch retries;
                     Log (Worker batch) (BatchError batch description)] s)
        end
      else
        set_future batch Done
          (emit [Log (Worker batch) (BatchFailed batch)] s)
  | Some (Running retries true) =>
      set_future batch (Running retries false)
        (emit [Sleep batch RETRY_DELAY] s)
  | Some Done | Some Cancelled | None => s
  end.

(** The user presses Stop. *)
Definition user_step (s : state) : state :=
  {| is_stopped := true; pc := pc s; futures := futures s;
     email_data := email_data s; trace := trace s ++ [Stop] |}.

Definition step (w : world) (a : actor) (s : state) : state :=
  match a with
  | User => user_step s
  | Main => main_step w s
  | Worker batch => worker_step w batch s
  end.

(** A run from a state under a schedule. *)
Definition run_from (w : world) (s : state) (schedule : list actor) : state :=
  foldl (fun s a => step w a s) s schedule.

Definition run (w : world) (schedule : list actor) : state :=
  run_from w initial schedule.

(** *** Sample runs *)

Module RunExamples.

Definition page (n : nat) : list message :=
  [ {| msg_subject := Some "report";
       msg_sender := Some "me@corp.com";
       toRecipients := [ {| address := "alice@example.com"; name := "Alice" |} ];
       ccRecipients := [];
       bccRecipients := [];
       receivedDateTime :=
         Some (if (n =? 0)%nat then "2024-03-07T09:15:00Z"
               else "2024-04-01T08:00:00Z") |} ].

(** 120 sent items, hence three batches; every request for batch 1 is
    answered with status 503, the others with 200. *)
Definition flaky : world :=
  {| callback_fn := LoggerMethod;
     access_token := Some "token";
     total_emails := 120;
     graph_get := fun batch _ =>
       if (batch =? 1)%nat then Response 503 [] "Service Unavailable"
       else Response 200 (page batch) "";
     fetch_all_airtable_records := Ok [] |}.

(** All three batches are submitted, then run one after the other, and the
    main thread goes on to the final processing. *)
Definition to_the_end : list actor :=
  replicate 8 Main
  ++ replicate 2 (Worker 0) ++ replicate 8 (Worker 1) ++ replicate 2 (Worker 2)
  ++ replicate 6 Main.

(** 100 sent items, hence two batches, both answered with 200. *)
Definition two_batches : world :=
  {| callback_fn := LoggerMethod;
     access_token := Some "token";
     total_emails := 100;
     graph_get := fun batch _ => Response 200 (page batch) "";
     fetch_all_airtable_records := Ok [] |}.

(** Batch 0 is submitted and completes; then the user presses Stop, before
    batch 1 is submitted; the main thread runs on. *)
Definition stop_after_batch_0 : list actor :=
  replicate 5 Main ++ replicate 2 (Worker 0) ++ [User] ++ replicate 4 Main.

(** 50 sent items, one batch, never answered with 200. *)
Definition always_failing : world :=
  {| callback_fn := LoggerMethod;
     access_token := Some "token";
     total_emails := 50;
     graph_get := fun _ _ => Response 429 [] "Too Many Requests";
     fetch_all_airtable_records := Ok [] |}.

(** The user presses Stop after the first failed request of batch 0. *)
Definition stop_mid_retry : list actor :=
  replicate 5 Main ++ replicate 2 (Worker 0) ++ [User]
  ++ replicate 6 (Worker 0) ++ replicate 5 Main.

End RunExamples.

(** *** Vocabulary for the properties of runs *)

(** The batch whose worker performs an event. *)
Definition batch_of (ev : event) : option nat :=
  match ev with
  | Poll (Worker b) _ | Log (Worker b) _ | Get b _ | Extend b _ | Sleep b _ =>
      Some b
  | _ => None
  end.

(** The events of the worker of one batch, in order. *)
Definition events_of (b : nat) (tr : list event) : list event :=
  filter (fun ev => batch_of ev = Some b) tr.

(** What [fetch_sent_emails] does from the head of its loop, with [retries]
    failures so far and [fuel] attempts left, as a function of the replies
    alone. *)
Fixpoint attempts (w : world) (b retries fuel : nat) : list event :=
  match fuel with
  | 0 => [Log (Worker b) (BatchFailed b)]
  | S fuel' =>
      Get b retries ::
      match graph_get w b retries with
      | Response status_code value text =>
          if (status_code =? 200)%nat
          then [Extend b retries; Log (Worker b) (BatchFetched b)]
          else Log (Worker b) (FetchFailed b (retries + 1) text)
               :: Sleep b RETRY_DELAY
               :: attempts w b (retries + 1) fuel'
      | RequestException description =>
          [Log (Worker b) (BatchError b description)]
      end
  end.

(** The whole of [fetch_sent_emails] for a batch. *)
Definition fetch_script (w : world) (b : nat) : list event :=
  attempts w b 0 MAX_RETRIES.

(** What a running future has still to do. *)
Definition remaining (w : world) (b : nat) (f : future) : list event :=
  match f with
  | Running retries false => attempts w b retries (MAX_RETRIES - retries)
  | Running retries true =>
      Sleep b RETRY_DELAY :: attempts w b retries (MAX_RETRIES - retries)
  | _ => []
  end.

(** The events of a batch so far agree with the state of its future. *)
Definition follows_script (w : world) (b : nat) (f : option future)
    (evs : list event) : Prop :=
  match f with
  | None | Some Pending | Some Cancelled => evs = []
  | Some (Running retries sleeping) =>
      evs ++ remaining w b (Running retries sleeping)
      = Poll (Worker b) false :: fetch_script w b
  | Some Done =>
      evs = [Poll (Worker b) true]
      ∨ evs = Poll (Worker b) false :: fetch_script w b
  end.

(** The records that an event appends to [email_data]. *)
Definition records_of_event (w : world) (ev : event) : list email :=
  match ev with
  | Extend b retries =>
      match graph_get w b retries with
      | Response _ value _ => map email_info value
      | RequestException _ => []
      end
  | _ => []
  end.

(** The status of every reply for a batch is other than 200. *)
Definition never_succeeds (w : world) (b : nat) : Prop :=
  ∀ retries, ∃ status_code value text,
    graph_get w b retries = Response status_code value text
    ∧ status_code ≠ 200.

(** The text of the reply to a request of a batch. *)
Definition reply_text (w : world) (b retries : nat) : string :=
  match graph_get w b retries with
  | Response _ _ text => text
  | RequestException description => description
  end.

(** What a batch that never succeeds does once it has started. *)
Definition failing_script (w : world) (b : nat) : list event :=
  [Get b 0; Log (Worker b) (FetchFailed b 1 (reply_text w b 0));
   Sleep b RETRY_DELAY;
   Get b 1; Log (Worker b) (FetchFailed b 2 (reply_text w b 1));
   Sleep b RETRY_DELAY;
   Get b 2; Log (Worker b) (FetchFailed b 3 (reply_text w b 2));
   Sleep b RETRY_DELAY;
   Log (Worker b) (BatchFailed b)].

Definition is_get (ev : event) : bool :=
  match ev with Get _ _ => true | _ => false end.

Definition is_sleep (ev : event) : bool :=
  match ev with Sleep _ _ => true | _ => false end.

Definition is_aggregate (ev : event) : bool :=
  match ev with Aggregate _ => true | _ => false end.

Definition is_write (ev : event) : bool :=
  match ev with Write _ => true | _ => false end.

(** Where the main thread is, against the futures of the pool. *)
Definition main_ok (w : world) (s : state) : Prop :=
  match pc s with
  | AtStart | GetToken | AfterToken | CountEmails => futures s = []
  | Submitting batch =>
      length (futures s) = batch ∧ (batch ≤ total_batches w)%nat
      ∧ Cancelled ∉ futures s
  | AsCompleted _ =>
      length (futures s) = total_batches w ∧ Cancelled ∉ futures s
  | Leaving returning =>
      returning = false → length (futures s) = total_batches w
  | Final =>
      length (futures s) = total_batches w
      ∧ forallb settled (futures s) = true
  | Returned => True
  | Raised _ => futures s = []
  end.

(** The facts that hold in every state of every run. *)
Record invariant (w : world) (s : state) : Prop := mk_invariant {
  inv_script :
    ∀ b, follows_script w b (futures s !! b) (events_of b (trace s));
  inv_buffer : email_data s = flat_map (records_of_event w) (trace s);
  inv_main : main_ok w s;
  inv_foreign : callback_fn w = ForeignMethod → futures s = [];
  inv_poll :
    ∀ who, Poll who true ∈ trace s →
      callback_fn w = LoggerMethod ∧ is_stopped s = true;
  inv_stop : is_stopped s = true → Stop ∈ trace s;
  inv_cancel : Cancelled ∈ futures s → Poll Main true ∈ trace s;
  inv_final :
    ∀ data, Aggregate data ∈ trace s →
      pc s = Returned ∧ data = email_data s
      ∧ Forall (fun f => f = Done) (futures s)
      ∧ length (futures s) = total_batches w
      ∧ ∀ who, Poll who true ∉ trace s;
  inv_write : ∀ request, Write request ∈ trace s → ∃ data, Aggregate data ∈ trace s
}.

(** The claims C2 and C7 as properties of a trace. *)

(** No retry (a request after a failure) is issued once Stop is pressed. *)
Definition no_retry_after_stop (tr : list event) : Prop :=
  ∀ pre post b retries, tr = pre ++ Stop :: post → Get b (S retries) ∉ post.


(** [two_batches] when [main] is called without a callback. *)
Definition unattended : world :=
  {| callback_fn := NoCallback;
     access_token := access_token RunExamples.two_batches;
     total_emails := total_emails RunExamples.two_batches;
     graph_get := graph_get RunExamples.two_batches;
     fetch_all_airtable_records :=
       fetch_all_airtable_records RunExamples.two_batches |}.

(** The events that start new work: a submission, the aggregation, a write
    to the destination. *)
Definition starts_work (ev : event) : bool :=
  match ev with
  | Submit _ | Aggregate _ | Write _ => true
  | _ => false
  end.

(** How many steps of the main thread are left, at most, once the run is
    stopped and the pool is idle. *)
Definition steps_left (p : main_pc) : nat :=
  match p with
  | Returned => 0
  | Final | Leaving true => 1
  | Leaving false => 2
  | AsCompleted _ => 3
  | Submitting _ => 4
  | AtStart | GetToken | AfterToken | CountEmails | Raised _ => 7
  end.

(** *** Running to the end *)

(** [if not access_token] is false. *)
Definition has_token (w : world) : bool :=
  match access_token w with
  | None | Some "" => false
  | Some _ => true
  end.

(** An upper bound on the steps that a future still takes. *)
Definition work_left (f : future) : nat :=
  match f with
  | Pending => 8
  | Running retries false => 2 * (MAX_RETRIES - retries) + 1
  | Running retries true => 2 * (MAX_RETRIES - retries) + 2
  | Done | Cancelled => 0
  end.

(** A schedule without the user: the main thread goes up to the submission
    loop, each batch is run to its end as soon as it is submitted, and the
    main thread goes on to the end. *)
Definition completing_schedule (n : nat) : list actor :=
  replicate 4 Main
  ++ flat_map (fun b => Main :: replicate 8 (Worker b)) (seq 0 n)
  ++ (Main :: replicate n Main) ++ [Main; Main; Main].

(** ** Further vocabulary: timestamps *)



(** The characters that the format [%Y-%m-%dT%H:%M:%SZ] can match: a digit,
    a separator, the letters [T] and [Z] in either case, and the space that
    [%d] allows before a one-digit day. *)
Definition timestamp_char (c : ascii) : bool :=
  Strptime.is_digit c
  || bool_decide (c ∈ ["-"; ":"; "T"; "t"; "Z"; "z"; " "]%char).

(** What a matcher takes from the input: between [lo] and [hi] characters,
    all of them characters of a timestamp. *)
Definition takes {A : Type} (p : Strptime.parser A) (lo hi : nat) : Prop :=
  ∀ s v r, (v, r) ∈ p s →
    (lo ≤ String.length s - String.length r ≤ hi)%nat
    ∧ (String.length r ≤ String.length s)%nat
    ∧ (∀ c, Str.contains c s = true →
            timestamp_char c = true ∨ Str.contains c r = true).

(** ** Further vocabulary: messages and the aggregate *)

(** The recipient entries of a message, in the order in which
    [extract_emails] walks them. *)
Definition all_recipients (data : message) : list recipient :=
  toRecipients data ++ ccRecipients data ++ bccRecipients data.

(** The display name that a message gives an address: that of the last
    recipient entry with this address. *)
Definition name_in (data : message) (a : string) : option string :=
  name <$> last (filter (fun r => address r = a) (all_recipients data)).

(** The sum of the totals of an aggregate. *)
Definition grand_total (m : gmap string summary) : nat :=
  sum_list_with Total_Mails_Sent (values m).

(** ** Further vocabulary: write requests *)

(** The new records that a request carries. *)
Definition posted (request : airtable_request) : list summary :=
  match request with
  | POST records => records
  | PATCH _ => []
  end.

(** The updates that a request carries. *)
Definition patched (request : airtable_request) : list update_record :=
  match request with
  | POST _ => []
  | PATCH records => records
  end.

Definition request_size (request : airtable_request) : nat :=
  match request with
  | POST records => length records
  | PATCH records => length records
  end.

Definition is_post (request : airtable_request) : bool :=
  match request with
  | POST _ => true
  | PATCH _ => false
  end.

(** A destination record whose address field is empty: the destination
    leaves empty fields out of what it returns. *)
Definition no_address : airtable_record :=
  {| record_id := "rec003";
     fields := {| stored_Recipient_Email := None;
                  stored_Total_Mails_Sent := Some 2%Z;
                  stored_Last_Interacted_Date := Some "2024-01-15" |} |}.

(** ** Further vocabulary: runs *)

(** [skip = batch_number * BATCH_SIZE]: the offset of the page of a batch. *)
Definition skip (batch_number : nat) : nat := batch_number * BATCH_SIZE.

(** The futures that a worker thread is running. *)
Definition running (fs : list future) : nat :=
  length (filter (fun f => is_running f = true) fs).

(** The requests that a future may still make. *)
Definition requests_left (f : future) : nat :=
  match f with
  | Pending => MAX_RETRIES
  | Running retries _ => MAX_RETRIES - retries
  | Done | Cancelled => 0
  end.

Definition is_extend (ev : event) : bool :=
  match ev with Extend _ _ => true | _ => false end.

(** The events of a run that goes no further than the access token. *)
Definition before_token (ev : event) : bool :=
  match ev with
  | Stop | Poll Main _ | Log Main StoppedByUser | Log Main NoAccessToken => true
  | _ => false
  end.

(** The events of a run over an empty mailbox. *)
Definition without_batches (ev : event) : bool :=
  match ev with
  | Submit _ | Get _ _ | Extend _ _ | Sleep _ _ | Write _ => false
  | Poll (Worker _) _ | Log (Worker _) _ => false
  | Aggregate (_ :: _) => false
  | _ => true
  end.

(** The status of a reply, when there is one. *)
Definition status_of (r : reply) : option nat :=
  match r with
  | Response status_code _ _ => Some status_code
  | RequestException _ => None
  end.

(** A world whose token request fails. *)
Definition no_token : world :=
  {| callback_fn := LoggerMethod;
     access_token := None;
     total_emails := 100;
     graph_get := graph_get RunExamples.two_batches;
     fetch_all_airtable_records := Ok [] |}.

(** A world whose mailbox is empty. *)
Definition empty_mailbox : world :=
  {| callback_fn := LoggerMethod;
     access_token := Some "token";
     total_emails := 0;
     graph_get := graph_get RunExamples.two_batches;
     fetch_all_airtable_records := Ok [SyncExamples.carol_stored] |}.

(** A world whose callback is a bound method of an object that has no
    [should_stop]. *)
Definition foreign : world :=
  {| callback_fn := ForeignMethod;
     access_token := Some "token";
     total_emails := 100;
     graph_get := graph_get RunExamples.two_batches;
     fetch_all_airtable_records := Ok [] |}.

(** A message that the service returns without [receivedDateTime]. *)
Definition undated : message :=
  {| msg_subject := Some "draft";
     msg_sender := Some "me@corp.com";
     toRecipients := [ {| address := "bob@example.com"; name := "Bob" |} ];
     ccRecipients := [];
     bccRecipients := [];
     receivedDateTime := None |}.

(** [two_batches] with an undated message on the page of batch 1. *)
Definition one_undated : world :=
  {| callback_fn := LoggerMethod;
     access_token := Some "token";
     total_emails := 100;
     graph_get := fun batch _ =>
       Response 200 (if (batch =? 1)%nat then [undated]
                     else RunExamples.page batch) "";
     fetch_all_airtable_records := Ok [] |}.

(** [two_batches] when the connection fails on the request of batch 1. *)
Definition broken_connection : world :=
  {| callback_fn := LoggerMethod;
     access_token := Some "token";
     total_emails := 100;
     graph_get := fun batch _ =>
       if (batch =? 1)%nat then RequestException "Connection refused"
       else Response 200 (RunExamples.page batch) "";
     fetch_all_airtable_records := Ok [] |}.

(** ** The listing of the destination table: [fetch_all_airtable_records]

    The function asks for the table page by page. The service is what it
    replies to a request with a given [offset] parameter ([None] for the
    first request, which has none). *)

Module Listing.

(** The JSON body of a page: both keys may be absent. *)
Record body : Type := mk_body {
  records : option (list airtable_record);
  offset : option string
}.

Inductive response : Type :=
| Page (data : body)             (* a 2xx response *)
| ErrorStatus (status_code : nat).  (* [raise_for_status] raises *)

Definition service : Type := option string -> response.

Inductive outcome : Type :=
| Fetched (all_records : list airtable_record)
| HTTPError (status_code : nat).

(** The [while True] loop, with [fuel] iterations at most; [None] when the
    loop is still running after them. *)
Fixpoint loop (s : service) (fuel : nat) (params_offset : option string)
    (all_records : list airtable_record) : option outcome :=
  match fuel with
  | 0 => None
  | S fuel' =>
      match s params_offset with
      | ErrorStatus status_code => Some (HTTPError status_code)
      | Page data =>
          let all_records := all_records ++ default [] (records data) in
          match offset data with
          | None => Some (Fetched all_records)
          | Some next => loop s fuel' (Some next) all_records
          end
      end
  end.

Definition fetch_all_airtable_records (s : service) (fuel : nat)
  : option outcome :=
  loop s fuel None [].

(** Following the offsets from the request with [params_offset]: the
    records of the pages passed, and the offset of the request reached. *)
Inductive reaches (s : service)
  : option string -> list (list airtable_record) -> option string -> Prop :=
| reaches_here params_offset : reaches s params_offset [] params_offset
| reaches_next params_offset data next pages last :
    s params_offset = Page data ->
    offset data = Some next ->
    reaches s (Some next) pages last ->
    reaches s params_offset (default [] (records data) :: pages) last.

(** A table of three records on two pages. *)
Definition two_pages : service := fun params_offset =>
  match params_offset with
  | None =>
      Page {| records := Some [SyncExamples.carol_stored; SyncExamples.bob_stored];
              offset := Some "itr2" |}
  | Some _ =>
      Page {| records := Some [SyncExamples.carol_stale]; offset := None |}
  end.

(** The same table when the request for the second page is refused. *)
Definition second_page_refused : service := fun params_offset =>
  match params_offset with
  | None => two_pages None
  | Some _ => ErrorStatus 429
  end.

(** A service that sends an offset with every page. *)
Definition endless : service := fun _ =>
  Page {| records := Some [SyncExamples.carol_stored]; offset := Some "itr" |}.

End Listing.

(** ** The logger of the dashboard: [ThreadSafeLogger] in [app.py]

    The log texts are kept as they are in the source, in UTF-8. What a
    method reads from outside (the clock, whether the processing thread is
    alive) is an argument of its model. The calls are taken one at a time,
    as the lock of the logger and its queue order them. *)

Module ThreadSafeLogger.

Record t : Type := mk_logger {
  log_queue : list string;
  is_stopped : bool;
  active_thread : option nat;
  log_history : list string;
  processing_complete : bool
}.

(** [__init__] *)
Definition init : t :=
  {| log_queue := []; is_stopped := false; active_thread := None;
     log_history := []; processing_complete := false |}.

(** [f"[{timestamp}] {message}"] *)
Definition log_entry (timestamp message : string) : string :=
  "[" +:+ timestamp +:+ "] " +:+ message.

Definition add_log (timestamp message : string) (self : t) : t :=
  {| log_queue := log_queue self ++ [log_entry timestamp message];
     is_stopped := is_stopped self;
     active_thread := active_thread self;
     log_history := log_history self ++ [log_entry timestamp message];
     processing_complete := processing_complete self |}.

(** The lines returned, and the logger with its queue emptied. *)
Definition get_new_logs (self : t) : list string * t :=
  (log_queue self,
   {| log_queue := [];
      is_stopped := is_stopped self;
      active_thread := active_thread self;
      log_history := log_history self;
      processing_complete := processing_complete self |}).

Definition get_all_logs (self : t) : list string := log_history self.

Definition clear_logs (self : t) : t :=
  {| log_queue := [];
     is_stopped := is_stopped self;
     active_thread := active_thread self;
     log_history := [];
     processing_complete := processing_complete self |}.

(** [self.active_thread and self.active_thread.is_alive()], as a truth
    value; [is_alive] is what the thread answers. *)
Definition is_thread_active (is_alive : bool) (self : t) : bool :=
  match active_thread self with
  | Some _ => is_alive
  | None => false
  end.

Definition FORCED_STOP : string := "🛑 Forcefully stopping process...".

Definition stop_processing (is_alive : bool) (timestamp : string) (self : t)
  : t :=
  let self :=
    {| log_queue := log_queue self;
       is_stopped := true;
       active_thread := active_thread self;
       log_history := log_history self;
       processing_complete := processing_complete self |} in
  if is_thread_active is_alive self then
    let self := add_log timestamp FORCED_STOP self in
    {| log_queue := log_queue self;
       is_stopped := is_stopped self;
       active_thread := None;
       log_history := log_history self;
       processing_complete := true |}
  else self.

Definition should_stop (self : t) : bool := is_stopped self.

Definition set_current_thread (thread : nat) (self : t) : t :=
  {| log_queue := log_queue self;
     is_stopped := is_stopped self;
     active_thread := Some thread;
     log_history := log_history self;
     processing_complete := processing_complete self |}.

(** A call of a method of the logger. *)
Inductive call : Type :=
| AddLog (timestamp message : string)
| GetNewLogs
| GetAllLogs
| ClearLogs
| StopProcessing (is_alive : bool) (timestamp : string)
| ShouldStop
| SetCurrentThread (thread : nat)
| IsThreadActive (is_alive : bool).

Definition perform (c : call) (self : t) : t :=
  match c with
  | AddLog timestamp message => add_log timestamp message self
  | GetNewLogs => snd (get_new_logs self)
  | ClearLogs => clear_logs self
  | StopProcessing is_alive timestamp => stop_processing is_alive timestamp self
  | SetCurrentThread thread => set_current_thread thread self
  | GetAllLogs | ShouldStop | IsThreadActive _ => self
  end.

(** The lines that a call of [get_new_logs] returns; nothing for the other
    calls. *)
Definition drained (c : call) (self : t) : list string :=
  match c with
  | GetNewLogs => fst (get_new_logs self)
  | _ => []
  end.

(** The logger after a sequence of calls, and all the lines that its calls
    of [get_new_logs] have returned. *)
Fixpoint session (calls : list call) (self : t) : list string * t :=
  match calls with
  | [] => ([], self)
  | c :: calls' =>
      let '(lines, self') := session calls' (perform c self) in
      (drained c self ++ lines, self')
  end.

Definition is_clear (c : call) : bool :=
  match c with ClearLogs => true | _ => false end.

Definition is_stop (c : call) : bool :=
  match c with StopProcessing _ _ => true | _ => false end.

(** A short session of the dashboard. *)
Definition sample_session : list call :=
  [SetCurrentThread 1; AddLog "09:15:00" "Starting"; GetNewLogs;
   AddLog "09:15:01" "Total emails: 100"; StopProcessing true "09:15:02";
   GetAllLogs; IsThreadActive true].

End ThreadSafeLogger.

(** What a run collects when every batch has gone through its script: for
    each batch in turn, the page of its first reply with status 200, if
    there is one among its replies. *)
Definition collected (w : world) : list email :=
  flat_map (fun b => flat_map (records_of_event w) (fetch_script w b))
           (seq 0 (total_batches w)).

(** Both batches of [two_batches] are submitted, both start, and batch 1
    is fetched before batch 0. *)
Definition batch_1_first : list actor :=
  replicate 6 Main ++ [Worker 0; Worker 1; Worker 1; Worker 0]
  ++ replicate 6 Main.

(** * Properties *)

(** ** Evaluation on small inputs *)

Import AggExamples.

Example strip_lower_ex : Str.lower (Str.strip "  Bob@X.com ") = "bob@x.com".
Proof. reflexivity. Qed.

Example last_field_ex : Str.last_field "@" "a@b@c.org" = "c.org".
Proof. reflexivity. Qed.

Example replace_ex : Str.replace "/" "-" "2024/01/31" = "2024-01-31".
Proof. reflexivity. Qed.

Example format_date_ok :
  format_date_for_airtable "2024-03-07T09:15:00Z" = Some "2024/03/07".
Proof. reflexivity. Qed.

Example format_date_short_fields :
  format_date_for_airtable "2024-3-7t9:5:0z" = Some "2024/03/07".
Proof. reflexivity. Qed.

Example format_date_unknown : format_date_for_airtable "Unknown" = None.
Proof. reflexivity. Qed.

Example format_date_fraction :
  format_date_for_airtable "2024-03-07T09:15:00.123Z" = None.
Proof. reflexivity. Qed.

Example format_date_not_a_day :
  format_date_for_airtable "2023-02-29T00:00:00Z" = None.
Proof. reflexivity. Qed.

Example format_date_leap_second :
  format_date_for_airtable "2016-12-31T23:59:60Z" = None.
Proof. reflexivity. Qed.

Example agg_alice_12 :
  lookup_in alice (aggregate_email_data [e1; e2])
  = Ok (Some {| Recipient_Email := alice;
                Company_Management := "example.com";
                Total_Mails_Sent := 3;
                Name := "Alice";
                Last_Interacted_Date := Some "2024/03/07" |}).
Proof. vm_compute. reflexivity. Qed.

Example agg_alice_21 :
  lookup_in alice (aggregate_email_data [e2; e1])
  = Ok (Some {| Recipient_Email := alice;
                Company_Management := "example.com";
                Total_Mails_Sent := 3;
                Name := "Alice A.";
                Last_Interacted_Date := Some "2024/03/07" |}).
Proof. vm_compute. reflexivity. Qed.

Example agg_unknown : aggregate_email_data [e1; e_unknown] = Raise TypeError.
Proof. vm_compute. reflexivity. Qed.

Example agg_nobody : aggregate_email_data [e_nobody] = Ok ∅.
Proof. vm_compute. reflexivity. Qed.


(** ** Strings and dates *)

Section StringOrder.

Lemma ltb_le x y : String.ltb x y = true → String.le x y.
Proof.
  unfold String.ltb, String.le, String.leb.
  by destruct (String.compare x y).
Qed.

Lemma not_ltb_le x y : String.ltb x y = false → String.le y x.
Proof.
  unfold String.ltb, String.le, String.leb.
  rewrite (String.compare_antisym x y).
  by destruct (String.compare y x).
Qed.

Lemma later_ge_l x y : String.le x (later x y).
Proof.
  unfold later, Str.gt. destruct (String.ltb x y) eqn:Hc; [by apply ltb_le|done].
Qed.

Lemma later_ge_r x y : String.le y (later x y).
Proof.
  unfold later, Str.gt.
  destruct (String.ltb x y) eqn:Hc; [done|by apply not_ltb_le].
Qed.

Lemma later_cases x y : later x y = x ∨ later x y = y.
Proof. unfold later. destruct (Str.gt y x); auto. Qed.

Lemma later_same x : later x x = x.
Proof. unfold later. by destruct (Str.gt x x). Qed.

Lemma is_lexical_max_unique d d' ds ds' :
  (∀ x, x ∈ ds ↔ x ∈ ds') →
  is_lexical_max d ds → is_lexical_max d' ds' → d = d'.
Proof.
  intros Hiff [Hin Hmax] [Hin' Hmax'].
  apply (anti_symm String.le).
  - apply Hmax'. by apply Hiff.
  - apply Hmax. by apply Hiff.
Qed.

Lemma is_lexical_max_single d : is_lexical_max d [d].
Proof.
  split; [apply list_elem_of_singleton; done|].
  intros d' ->%list_elem_of_singleton. done.
Qed.

Lemma is_lexical_max_snoc d ds y :
  is_lexical_max d ds → is_lexical_max (later d y) (ds ++ [y]).
Proof.
  intros [Hin Hmax]. split.
  - apply elem_of_app. destruct (later_cases d y) as [-> | ->]; [by left|].
    right. by apply list_elem_of_singleton.
  - intros d' [Hd' | ->%list_elem_of_singleton]%elem_of_app.
    + etrans; [by apply Hmax | apply later_ge_l].
    + apply later_ge_r.
Qed.

End StringOrder.


(** ** The aggregator *)

Section Aggregation.

Lemma for_each_app {A S : Type} (body : S → A → result S) s xs ys :
  for_each body s (xs ++ ys) = (s' ← for_each body s xs; for_each body s' ys).
Proof.
  revert s. induction xs as [|x xs IH]; intros s; simpl; [done|].
  destruct (body s x); simpl; [apply IH|done].
Qed.

Lemma py_max_raise a b err : py_max a b = Raise err → err = TypeError.
Proof. destruct a, b; simpl; congruence. Qed.

Lemma py_max_ok a b d :
  py_max a b = Ok d ↔ ∃ x y, a = Some x ∧ b = Some y ∧ d = Some (later x y).
Proof.
  split.
  - destruct a as [x|], b as [y|]; simpl; try done.
    intros [= <-]. by exists x, y.
  - by intros (x & y & -> & -> & ->).
Qed.

(** The three statements of the loop body amount to one insertion. *)
Lemma visit_unfold e m r :
  visit e m r =
    let entry := default (new_entry e r) (m !! r) in
    match py_max (Last_Interacted_Date entry)
                 (format_date_for_airtable (received e)) with
    | Ok d => Ok (<[r := bump e r d entry]> m)
    | Raise err => Raise err
    end.
Proof.
  unfold visit, bump. destruct (m !! r) as [s|] eqn:Hr; simpl.
  - rewrite lookup_alter_eq, Hr. simpl.
    destruct (py_max _ _) as [d|err]; simpl; [|done]. f_equal.
    apply map_eq. intros k. destruct (decide (k = r)) as [->|Hk].
    + by rewrite !lookup_alter_eq, lookup_insert_eq, Hr.
    + by rewrite !lookup_alter_ne, lookup_insert_ne.
  - rewrite alter_insert_eq, lookup_insert_eq. simpl.
    destruct (py_max _ _) as [d|err]; simpl; [|done]. f_equal.
    by rewrite alter_insert_eq.
Qed.

Lemma visit_swap e m r1 r2 :
  (m1 ← visit e m r1; visit e m1 r2) = (m2 ← visit e m r2; visit e m2 r1).
Proof.
  destruct (decide (r1 = r2)) as [->|Hne]; [done|].
  rewrite (visit_unfold e m r1), (visit_unfold e m r2). simpl.
  destruct (py_max (Last_Interacted_Date (default (new_entry e r1) (m !! r1))) _)
    as [d1|err1] eqn:H1;
  destruct (py_max (Last_Interacted_Date (default (new_entry e r2) (m !! r2))) _)
    as [d2|err2] eqn:H2; simpl;
  rewrite ?visit_unfold; simpl;
  rewrite ?lookup_insert_ne by done; rewrite ?H1, ?H2; try done.
  - f_equal. by apply insert_insert_ne.
  - apply py_max_raise in H1, H2. by subst.
Qed.

(** The order in which the addresses of one record are visited does not
    matter, so neither does the iteration order of the Python set. *)
Lemma visit_order_irrelevant e rs rs' :
  rs ≡ₚ rs' → ∀ m, for_each (visit e) m rs = for_each (visit e) m rs'.
Proof.
  induction 1 as [|x rs rs' _ IH|x y rs|rs1 rs2 rs3 _ IH1 _ IH2]; intros m.
  - done.
  - simpl. destruct (visit e m x); simpl; [apply IH|done].
  - simpl. pose proof (visit_swap e m y x) as Hs.
    destruct (visit e m y) as [m1|]; destruct (visit e m x) as [m2|];
      simpl in *; try done.
    + by rewrite Hs.
    + by rewrite Hs.
    + by rewrite <- Hs.
  - by rewrite IH1.
Qed.

Lemma visit_all_lookup e rs :
  NoDup rs → ∀ m m', for_each (visit e) m rs = Ok m' → ∀ r,
    let entry := default (new_entry e r) (m !! r) in
    (r ∈ rs → ∃ d,
        py_max (Last_Interacted_Date entry)
               (format_date_for_airtable (received e)) = Ok d
        ∧ m' !! r = Some (bump e r d entry))
    ∧ (r ∉ rs → m' !! r = m !! r).
Proof.
  induction 1 as [|x rs Hx Hnd IH]; intros m m' Hrun r; simpl in *.
  - injection Hrun as <-. split; [by intros ?%elem_of_nil|done].
  - rewrite visit_unfold in Hrun. simpl in Hrun.
    destruct (py_max _ _) as [d|] eqn:Hd; simpl in Hrun; [|done].
    destruct (IH _ _ Hrun r) as [Hin Hout].
    destruct (decide (r = x)) as [->|Hne].
    + split; [|intros []; by left].
      intros _. exists d. split; [done|].
      by rewrite (Hout Hx), lookup_insert_eq.
    + rewrite lookup_insert_ne in Hin, Hout by done. split.
      * intros [?|Hr]%elem_of_cons; [done|]. by apply Hin.
      * intros Hr. apply Hout. intros ?. apply Hr. by right.
Qed.

Lemma fold_email_lookup e m m' r :
  fold_email m e = Ok m' →
  let entry := default (new_entry e r) (m !! r) in
  (contributes r e → ∃ d,
      py_max (Last_Interacted_Date entry)
             (format_date_for_airtable (received e)) = Ok d
      ∧ m' !! r = Some (bump e r d entry))
  ∧ (¬ contributes r e → m' !! r = m !! r).
Proof.
  unfold fold_email, py_set, contributes. intros Hrun.
  pose proof (visit_all_lookup e _ (NoDup_remove_dups _) _ _ Hrun r) as H.
  simpl in H. by rewrite elem_of_remove_dups in H.
Qed.

Lemma fold_email_unparseable e m : unparseable e → fold_email m e = Raise TypeError.
Proof.
  intros [Hne Hfmt]. unfold fold_email, py_set.
  destruct (remove_dups (recipients_of e)) as [|r rs] eqn:Hrs.
  - destruct (recipients_of e) as [|x xs]; [done|].
    assert (x ∈ remove_dups (x :: xs)) as Hx
      by (apply elem_of_remove_dups; by left).
    rewrite Hrs in Hx. by apply elem_of_nil in Hx.
  - simpl. rewrite visit_unfold. simpl. rewrite Hfmt.
    by destruct (Last_Interacted_Date _).
Qed.

End Aggregation.


Section AggregateInvariant.

Lemma count_app r xs ys : count r (xs ++ ys) = count r xs + count r ys.
Proof. unfold count. by rewrite filter_app, length_app. Qed.

Lemma count_recipients r e : count r (recipients_of e) = occurrences r e.
Proof. unfold recipients_of, occurrences. rewrite !count_app. lia. Qed.

Lemma count_absent r xs : r ∉ xs → count r xs = 0.
Proof.
  unfold count. induction xs as [|x xs IH]; intros Hr; [done|].
  rewrite filter_cons. destruct (decide (x = r)) as [->|Hne].
  - exfalso. apply Hr. by left.
  - apply IH. intros ?. apply Hr. by right.
Qed.

Lemma occurrences_absent r e : ¬ contributes r e → occurrences r e = 0.
Proof. intros H. rewrite <- count_recipients. by apply count_absent. Qed.

Lemma contributing_snoc r l e :
  contributing r (l ++ [e])
  = contributing r l ++ (if decide (contributes r e) then [e] else []).
Proof.
  unfold contributing. by rewrite filter_app.
Qed.

Lemma total_occurrences_snoc r l e :
  total_occurrences r (l ++ [e]) = total_occurrences r l + occurrences r e.
Proof.
  unfold total_occurrences. rewrite sum_list_with_app. simpl. lia.
Qed.

Lemma total_occurrences_none r l :
  contributing r l = [] → total_occurrences r l = 0.
Proof.
  unfold contributing, total_occurrences.
  induction l as [|e l IH]; [done|]. rewrite filter_cons.
  destruct (decide (contributes r e)) as [|Hno]; [done|].
  intros Hl. simpl. rewrite (occurrences_absent _ _ Hno). by apply IH.
Qed.

Lemma aggregate_snoc l e :
  aggregate_email_data (l ++ [e])
  = (m ← aggregate_email_data l; fold_email m e).
Proof.
  unfold aggregate_email_data. rewrite for_each_app.
  destruct (for_each fold_email ∅ l) as [m|]; simpl; [|done].
  by destruct (fold_email m e).
Qed.

(** What the map holds after any number of records. *)
Lemma aggregate_invariant l :
  ∀ m, aggregate_email_data l = Ok m → ∀ r,
    describes l r (m !! r)
    ∧ (∀ s, m !! r = Some s → Name s = first_name r l).
Proof.
  induction l as [|e l IH] using rev_ind; intros m Hm r.
  - injection Hm as <-. rewrite lookup_empty. by split.
  - rewrite aggregate_snoc in Hm.
    destruct (aggregate_email_data l) as [m0|] eqn:H0; simpl in Hm; [|done].
    destruct (IH m0 eq_refl r) as [Hdesc Hname].
    destruct (fold_email_lookup e m0 m r Hm) as [Hin Hout].
    unfold describes, first_name, dates_of in *.
    rewrite contributing_snoc, total_occurrences_snoc.
    destruct (decide (contributes r e)) as [Hc|Hc].
    + destruct (Hin Hc) as (d & Hd & ->). clear Hin Hout.
      apply py_max_ok in Hd as (x & y & Hx & Hy & ->).
      rewrite omap_app. simpl. rewrite Hy. simpl.
      destruct (m0 !! r) as [s0|] eqn:Hs0; simpl in *.
      * destruct Hdesc as (Hne & Hre & Hcm & Htot & d0 & Hd0 & Hmax).
        assert (d0 = x) as -> by congruence.
        split.
        -- split; [by intros [? _]%app_eq_nil|].
           repeat split; try done.
           ++ rewrite Htot, count_recipients. done.
           ++ exists (later x y). split; [done|].
              by apply is_lexical_max_snoc.
        -- intros s [= <-]. simpl. rewrite (Hname s0 eq_refl).
           by destruct (contributing r l).
      * rewrite Hdesc. simpl. assert (x = y) as -> by congruence.
        split.
        -- split; [done|]. repeat split; try done.
           ++ rewrite (total_occurrences_none _ _ Hdesc), count_recipients.
              done.
           ++ exists y. rewrite later_same. split; [done|].
              apply is_lexical_max_single.
        -- by intros s [= <-].
    + rewrite (Hout Hc), !app_nil_r, (occurrences_absent _ _ Hc), Nat.add_0_r.
      done.
Qed.

Lemma fold_email_raise m e err : fold_email m e = Raise err → err = TypeError.
Proof.
  unfold fold_email. generalize (py_set (recipients_of e)). intros rs.
  revert m. induction rs as [|r rs IH]; intros m; simpl; [done|].
  rewrite visit_unfold. simpl.
  destruct (py_max _ _) eqn:Hd; simpl; [apply IH|].
  intros [= <-]. by apply py_max_raise in Hd.
Qed.

Lemma aggregate_raise l err :
  aggregate_email_data l = Raise err → err = TypeError.
Proof.
  induction l as [|e l IH] using rev_ind; [done|].
  rewrite aggregate_snoc.
  destruct (aggregate_email_data l) as [m|err']; simpl.
  - apply fold_email_raise.
  - intros [= <-]. by apply IH.
Qed.

Lemma visit_all_total e y :
  format_date_for_airtable (received e) = Some y →
  ∀ rs m, dated m → ∃ m', for_each (visit e) m rs = Ok m' ∧ dated m'.
Proof.
  intros Hy rs. induction rs as [|r rs IH]; intros m Hm; simpl.
  - by exists m.
  - rewrite visit_unfold. simpl. rewrite Hy.
    assert (∃ x, Last_Interacted_Date (default (new_entry e r) (m !! r))
                 = Some x) as [x Hx].
    { destruct (m !! r) as [s|] eqn:Hs; simpl.
      - destruct (Hm r s Hs) as [x Hx]. by exists x.
      - by exists y. }
    rewrite Hx. simpl. apply IH.
    intros r' s'. destruct (decide (r' = r)) as [->|Hne].
    + rewrite lookup_insert_eq. intros [= <-]. by eexists.
    + rewrite lookup_insert_ne by done. apply Hm.
Qed.

Lemma fold_email_total m e :
  dated m → ¬ unparseable e → ∃ m', fold_email m e = Ok m' ∧ dated m'.
Proof.
  intros Hm Hpar. unfold fold_email, py_set.
  destruct (format_date_for_airtable (received e)) as [y|] eqn:Hy.
  - by apply (visit_all_total e y).
  - destruct (recipients_of e) as [|x xs] eqn:Hrs.
    + by exists m.
    + exfalso. apply Hpar. split; [by rewrite Hrs|done].
Qed.

Lemma aggregate_total l :
  Forall (fun e => ¬ unparseable e) l →
  ∃ m, aggregate_email_data l = Ok m ∧ dated m.
Proof.
  induction l as [|e l IH] using rev_ind; intros Hl.
  - exists ∅. split; [done|]. intros r s. by rewrite lookup_empty.
  - apply Forall_app in Hl as [Hl He]. apply Forall_cons in He as [He _].
    destruct (IH Hl) as (m & Hm & Hd).
    rewrite aggregate_snoc, Hm. simpl. by apply fold_email_total.
Qed.

Lemma aggregate_unparseable l :
  Exists unparseable l → aggregate_email_data l = Raise TypeError.
Proof.
  induction l as [|e l IH] using rev_ind; intros Hl.
  - by apply Exists_nil in Hl.
  - rewrite aggregate_snoc. apply Exists_app in Hl as [Hl|He].
    + by rewrite (IH Hl).
    + apply Exists_cons in He as [He|He]; [|by apply Exists_nil in He].
      destruct (aggregate_email_data l) as [m|err] eqn:Hm; simpl.
      * by apply fold_email_unparseable.
      * by rewrite (aggregate_raise _ _ Hm).
Qed.

End AggregateInvariant.


Section AggregateOrder.

Lemma describes_perm l l' r o : l ≡ₚ l' → describes l r o → describes l' r o.
Proof.
  intros Hp. unfold describes, dates_of, total_occurrences.
  assert (contributing r l ≡ₚ contributing r l') as Hc
    by (unfold contributing; by rewrite Hp).
  destruct o as [s|].
  - intros (Hne & Hre & Hcm & Htot & d & Hd & Hin & Hmax).
    split; [|repeat split; try done].
    + intros Hnil. apply Hne. apply Permutation_nil_r. by rewrite Hc, Hnil.
    + by rewrite <- Hp.
    + exists d. split; [done|]. split.
      * by rewrite <- Hc.
      * intros d' Hd'. apply Hmax. by rewrite Hc.
  - intros Hnil. apply Permutation_nil_r. by rewrite <- Hc, Hnil.
Qed.

Lemma describes_unique l r o o' :
  describes l r o → describes l r o' → forget_name <$> o = forget_name <$> o'.
Proof.
  unfold describes. destruct o as [s|], o' as [s'|]; simpl; try done.
  - intros (_ & Hre & Hcm & Htot & d & Hd & Hmax)
           (_ & Hre' & Hcm' & Htot' & d' & Hd' & Hmax').
    f_equal. unfold forget_name. f_equal; try congruence.
    rewrite Hd, Hd'. f_equal.
    by apply (is_lexical_max_unique d d' (dates_of r l) (dates_of r l)).
  - by intros [? _] ?.
  - by intros ? [? _].
Qed.

Lemma forget_name_inj s s' :
  forget_name s = forget_name s' → Name s = Name s' → s = s'.
Proof. destruct s, s'. unfold forget_name. simpl. congruence. Qed.

Lemma first_name_perm l l' r :
  l ≡ₚ l' → names_agree l → first_name r l = first_name r l'.
Proof.
  intros Hp Hag. unfold first_name.
  assert (contributing r l ≡ₚ contributing r l') as Hc
    by (unfold contributing; by rewrite Hp).
  destruct (contributing r l) as [|e es] eqn:He;
    destruct (contributing r l') as [|e' es'] eqn:He'; try done.
  - by apply Permutation_nil_l in Hc.
  - by apply Permutation_nil_r in Hc.
  - assert (e ∈ contributing r l) as Hin by (rewrite He; by left).
    assert (e' ∈ contributing r l') as Hin' by (rewrite He'; by left).
    apply list_elem_of_filter in Hin as [? ?].
    apply list_elem_of_filter in Hin' as [? ?].
    apply Hag; try done. by rewrite Hp.
Qed.


End AggregateOrder.

(** C1, as amended. Aggregating a permutation of the records gives the same
    map up to the [Name] fields (and raises exactly when the original
    raises); the maps are equal, names included, when every record that
    contributes to a recipient gives it the same display name. *)
Theorem aggregate_permutation (l l' : list email) :
  l ≡ₚ l' →
  forget_names (aggregate_email_data l) = forget_names (aggregate_email_data l')
  ∧ (names_agree l → aggregate_email_data l = aggregate_email_data l').
Proof.
  intros Hp.
  destruct (decide (Exists unparseable l)) as [Hex|Hex].
  - assert (Exists unparseable l') as Hex' by (by rewrite <- Hp).
    rewrite (aggregate_unparseable _ Hex), (aggregate_unparseable _ Hex').
    done.
  - assert (Forall (fun e => ¬ unparseable e) l) as Hall
      by (by apply not_Exists_Forall; [apply _|]).
    assert (Forall (fun e => ¬ unparseable e) l') as Hall'
      by (by rewrite <- Hp).
    destruct (aggregate_total _ Hall) as (m & Hm & _).
    destruct (aggregate_total _ Hall') as (m' & Hm' & _).
    rewrite Hm, Hm'. simpl.
    assert (∀ r, forget_name <$> m !! r = forget_name <$> m' !! r) as Hcore.
    { intros r.
      destruct (aggregate_invariant _ _ Hm r) as [Hd _].
      destruct (aggregate_invariant _ _ Hm' r) as [Hd' _].
      apply (describes_unique l' r); [by apply (describes_perm l)|done]. }
    split.
    + f_equal. apply map_eq. intros r. by rewrite !lookup_fmap.
    + intros Hag. f_equal. apply map_eq. intros r.
      specialize (Hcore r).
      destruct (aggregate_invariant _ _ Hm r) as [_ Hn].
      destruct (aggregate_invariant _ _ Hm' r) as [_ Hn'].
      destruct (m !! r) as [s|], (m' !! r) as [s'|]; simpl in Hcore; try done.
      f_equal. apply forget_name_inj; [congruence|].
      rewrite (Hn s eq_refl), (Hn' s' eq_refl). by apply first_name_perm.
Qed.

Lemma aggregate_permutation_witness :
  forget_names (aggregate_email_data [AggExamples.e1; AggExamples.e3])
  = forget_names (aggregate_email_data [AggExamples.e3; AggExamples.e1])
  ∧ aggregate_email_data [AggExamples.e1; AggExamples.e3]
    = aggregate_email_data [AggExamples.e3; AggExamples.e1].
Proof.
  destruct (aggregate_permutation [AggExamples.e1; AggExamples.e3]
                                  [AggExamples.e3; AggExamples.e1])
    as [Hcore Hfull].
  - apply perm_swap.
  - split; [exact Hcore|]. apply Hfull.
    intros ea eb r Ha Hb Hca Hcb.
    unfold contributes in Hca, Hcb.
    apply list_elem_of_In in Ha, Hb, Hca, Hcb. simpl in Ha, Hb.
    destruct Ha as [<-|[<-|[]]]; destruct Hb as [<-|[<-|[]]];
      simpl in Hca, Hcb; intuition subst; try reflexivity; try discriminate.
Defined.

(** C1 as stated fails: the two sample records give [alice] the name of
    whichever comes first, so the reversed list aggregates differently. *)
Lemma aggregate_reverse_differs :
  aggregate_email_data (rev [AggExamples.e1; AggExamples.e2])
  ≠ aggregate_email_data [AggExamples.e1; AggExamples.e2].
Proof.
  intros H.
  apply (f_equal (AggExamples.lookup_in AggExamples.alice)) in H.
  vm_compute in H. discriminate H.
Qed.


(** ** Formatted dates sort like calendar dates *)

Section CalendarOrder.

Import Strptime.

















End CalendarOrder.

(** C4. The Total Mails Sent of a recipient is the sum, over the records, of
    its occurrences in [to], in [cc] and in [bcc]; a further record that
    holds the address once in [to] and once in [cc] adds 2. *)
Theorem total_mails_sent_is_sum (email_data : list email)
    (m : gmap string summary) (r : string) :
  aggregate_email_data email_data = Ok m →
  from_option Total_Mails_Sent 0 (m !! r)
  = sum_list_with (fun e => count r (to e) + count r (cc e) + count r (bcc e))
                  email_data
  ∧ (∀ e m',
       count r (to e) = 1 → count r (cc e) = 1 → count r (bcc e) = 0 →
       aggregate_email_data (email_data ++ [e]) = Ok m' →
       from_option Total_Mails_Sent 0 (m' !! r)
       = from_option Total_Mails_Sent 0 (m !! r) + 2).
Proof.
  assert (∀ l m0, aggregate_email_data l = Ok m0 →
            from_option Total_Mails_Sent 0 (m0 !! r) = total_occurrences r l)
    as Htotal.
  { intros l m0 H0. destruct (aggregate_invariant _ _ H0 r) as [Hd _].
    unfold describes in Hd. destruct (m0 !! r) as [s|]; simpl.
    - by destruct Hd as (_ & _ & _ & -> & _).
    - by rewrite total_occurrences_none. }
  intros Hm. split.
  - by apply Htotal.
  - intros e m' Hto Hcc Hbcc Hm'.
    rewrite (Htotal _ _ Hm'), (Htotal _ _ Hm), total_occurrences_snoc.
    unfold occurrences. lia.
Qed.

Lemma total_mails_sent_is_sum_witness :
  from_option Total_Mails_Sent 0 (sample_aggregate !! AggExamples.alice)
  = sum_list_with
      (fun e => count AggExamples.alice (to e) + count AggExamples.alice (cc e)
                + count AggExamples.alice (bcc e))
      [AggExamples.e1; AggExamples.e2]
  ∧ (∀ e m',
       count AggExamples.alice (to e) = 1 →
       count AggExamples.alice (cc e) = 1 →
       count AggExamples.alice (bcc e) = 0 →
       aggregate_email_data ([AggExamples.e1; AggExamples.e2] ++ [e]) = Ok m' →
       from_option Total_Mails_Sent 0 (m' !! AggExamples.alice)
       = from_option Total_Mails_Sent 0 (sample_aggregate !! AggExamples.alice)
         + 2).
Proof.
  apply (total_mails_sent_is_sum [AggExamples.e1; AggExamples.e2]).
  vm_compute. reflexivity.
Defined.



(** C9, as amended. When every timestamp parses, aggregation returns a map.
    When some record has at least one addressee and a timestamp that does
    not parse, [format_date_for_airtable] gives [None] for it and
    aggregation raises [TypeError], returning nothing; ["Unknown"] and a
    timestamp with fractional seconds do not parse. *)
Theorem aggregate_total_or_type_error (email_data : list email) :
  (Forall (fun e => is_Some (format_date_for_airtable (received e))) email_data →
   ∃ m, aggregate_email_data email_data = Ok m)
  ∧ (∀ e, e ∈ email_data → recipients_of e ≠ [] →
       format_date_for_airtable (received e) = None →
       aggregate_email_data email_data = Raise TypeError)
  ∧ format_date_for_airtable "Unknown" = None
  ∧ format_date_for_airtable "2024-03-07T09:15:00.123Z" = None.
Proof.
  split; [|split; [|split; reflexivity]].
  - intros Hall.
    destruct (aggregate_total email_data) as (m & Hm & _); [|eauto].
    eapply Forall_impl; [exact Hall|]. simpl.
    intros e [d Hd] [_ Hnone]. congruence.
  - intros e He Hne Hnone. apply aggregate_unparseable.
    apply Exists_exists. exists e. by split.
Qed.

Lemma aggregate_total_or_type_error_witness :
  (∃ m, aggregate_email_data [AggExamples.e1; AggExamples.e2] = Ok m)
  ∧ aggregate_email_data [AggExamples.e1; AggExamples.e_unknown]
    = Raise TypeError.
Proof.
  split.
  - apply (aggregate_total_or_type_error [AggExamples.e1; AggExamples.e2]).
    repeat constructor; vm_compute; eauto.
  - apply (aggregate_total_or_type_error
             [AggExamples.e1; AggExamples.e_unknown]) with AggExamples.e_unknown.
    + right. left.
    + vm_compute. discriminate.
    + vm_compute. reflexivity.
Defined.

(** C9 as stated fails: a record without addressees never reaches the date
    merge, so its unparseable timestamp raises nothing. *)
Lemma unparseable_without_recipients_returns :
  format_date_for_airtable (received AggExamples.e_nobody) = None
  ∧ aggregate_email_data [AggExamples.e_nobody] = Ok ∅.
Proof. split; vm_compute; reflexivity. Qed.


(** ** The reconciler *)

Example reconcile_unchanged :
  reconcile [SyncExamples.carol_stored] [SyncExamples.carol_summary]
  = Ok {| new_records := []; update_records := [] |}.
Proof. vm_compute. reflexivity. Qed.

Example reconcile_stale :
  reconcile [SyncExamples.carol_stale] [SyncExamples.carol_summary]
  = Ok {| new_records := [];
          update_records :=
            [{| update_id := "rec002";
                update_Total_Mails_Sent := 4;
                update_Last_Interacted_Date := Some "2024/02/01" |}] |}.
Proof. vm_compute. reflexivity. Qed.

Example reconcile_missing :
  reconcile [] [SyncExamples.carol_summary]
  = Ok {| new_records := [SyncExamples.carol_summary]; update_records := [] |}.
Proof. vm_compute. reflexivity. Qed.

Example chunks_25 :
  map length (chunks (replicate 25 SyncExamples.carol_summary)) = [10; 10; 5].
Proof. vm_compute. reflexivity. Qed.

Example reconcile_stored_capitals :
  existing_records_dict [SyncExamples.bob_stored]
  = Ok {[ "Bob@Example.com" := SyncExamples.bob_stored ]}
  ∧ normalize (Recipient_Email SyncExamples.bob_summary) = "bob@example.com".
Proof. split; vm_compute; reflexivity. Qed.

(** C3. The mapping of existing records is keyed by the stored address as
    it is, not by its normalised form, while the lookup key is normalised.
    The record stored for ["Bob@Example.com"] is therefore not found for
    the aggregate entry of the very same address, and the entry is queued
    as an insert instead of being matched. *)
Theorem stored_address_not_normalized :
  reconcile [SyncExamples.bob_stored] [SyncExamples.bob_summary]
  = Ok {| new_records := [SyncExamples.bob_summary]; update_records := [] |}.
Proof. vm_compute. reflexivity. Qed.


(** The mapping built from a snapshot in which every record has an address:
    under each address, the record that is stored under it. *)
Lemma existing_records_dict_lookup (existing_records : list airtable_record) :
  Forall (fun record => is_Some (stored_Recipient_Email (fields record)))
         existing_records →
  ∃ dict, existing_records_dict existing_records = Ok dict
          ∧ ∀ address, dict !! address = stored_under address existing_records.
Proof.
  unfold existing_records_dict, stored_under.
  induction existing_records as [|record rest IH] using rev_ind; intros Hall.
  - exists ∅. split; [done|]. intros address. by rewrite lookup_empty.
  - apply Forall_app in Hall as [Hrest Hrecord].
    apply Forall_cons in Hrecord as [[key Hkey] _].
    destruct (IH Hrest) as (dict & Hdict & Hlook).
    rewrite for_each_app, Hdict. simpl. rewrite Hkey. simpl.
    eexists. split; [done|]. intros address.
    rewrite filter_app, filter_cons, filter_nil.
    destruct (decide (key = address)) as [->|Hne].
    + rewrite lookup_insert_eq, decide_True by done. by rewrite last_snoc.
    + rewrite lookup_insert_ne, decide_False by congruence.
      by rewrite app_nil_r.
Qed.




(** ** Runs of the pipeline *)

Local Open Scope nat_scope.

(** Case analysis on a step: every way the state can change. *)
Ltac step_cases :=
  unfold step, user_step, main_step, worker_step;
  repeat match goal with
         | |- context [match ?x with _ => _ end] =>
             lazymatch x with
             | context [step] => fail
             | _ => destruct x eqn:?
             end
         end.

(** Case analysis on a step that a hypothesis records. *)
Ltac case_step H :=
  repeat match type of H with
         | context [match ?x with _ => _ end] =>
             let E := fresh "E" in
             revert H; destruct x eqn:E; intros H; simpl in H
         end.

Section Runs.

Context (w : world).

Lemma run_from_snoc s schedule a :
  run_from w s (schedule ++ [a]) = step w a (run_from w s schedule).
Proof. unfold run_from. by rewrite foldl_app. Qed.

Lemma run_from_app s sched1 sched2 :
  run_from w s (sched1 ++ sched2) = run_from w (run_from w s sched1) sched2.
Proof. unfold run_from. by rewrite foldl_app. Qed.

Lemma events_of_app b tr evs :
  events_of b (tr ++ evs) = events_of b tr ++ events_of b evs.
Proof. unfold events_of. by rewrite filter_app. Qed.

Lemma should_stop_true s :
  should_stop w s = Ok true →
  callback_fn w = LoggerMethod ∧ is_stopped s = true.
Proof. unfold should_stop. destruct (callback_fn w); naive_solver. Qed.

Lemma should_stop_false s :
  should_stop w s = Ok false →
  callback_fn w = LoggerMethod → is_stopped s = false.
Proof. unfold should_stop. destruct (callback_fn w); naive_solver. Qed.

Lemma should_stop_raise s e :
  should_stop w s = Raise e → callback_fn w = ForeignMethod.
Proof. unfold should_stop. destruct (callback_fn w); naive_solver. Qed.

Lemma should_stop_foreign s :
  callback_fn w = ForeignMethod → should_stop w s = Raise AttributeError.
Proof. unfold should_stop. by intros ->. Qed.

Lemma step_stop a s :
  (is_stopped s = true → Stop ∈ trace s) →
  is_stopped (step w a s) = true → Stop ∈ trace (step w a s).
Proof.
  intros Hs. destruct a as [| |b]; step_cases; simpl;
    rewrite ?elem_of_app; auto.
  intros _. right. by left.
Qed.


Lemma final_events_elem data ev :
  ev ∈ final_events w data →
  ev = Aggregate data ∨ (∃ request, ev = Write request) ∨ (∃ l, ev = Log Main l).
Proof.
  unfold final_events. intros [->|Hev]%elem_of_cons; [by left|]. right.
  repeat match goal with
         | H : context [match ?x with _ => _ end] |- _ => destruct x
         end;
    rewrite ?elem_of_app, ?elem_of_cons, ?elem_of_nil in Hev;
    try (destruct_or!; try done; right; by eexists).
  destruct Hev as [Hev|Hev]; [|destruct_or!; try done; right; by eexists].
  unfold write_events in Hev. apply list_elem_of_In, in_flat_map in Hev.
  destruct Hev as (request & _ & Hin). apply list_elem_of_In in Hin.
  rewrite ?elem_of_cons, ?elem_of_nil in Hin.
  destruct_or!; try done; [left|right]; by eexists.
Qed.

Lemma final_events_head data : Aggregate data ∈ final_events w data.
Proof. unfold final_events. by left. Qed.

Lemma final_events_no_poll data who answer : Poll who answer ∉ final_events w data.
Proof.
  intros H%final_events_elem. destruct H as [H|[[? H]|[? H]]]; discriminate H.
Qed.

Lemma final_events_records data :
  flat_map (records_of_event w) (final_events w data) = [].
Proof.
  assert (∀ evs, (∀ ev, ev ∈ evs → records_of_event w ev = []) →
                 flat_map (records_of_event w) evs = []) as Hflat.
  { induction evs as [|ev evs IH]; intros H; simpl; [done|].
    rewrite (H ev) by (by left). apply IH. intros ev' ?. apply H. by right. }
  apply Hflat. intros ev H%final_events_elem.
  destruct H as [->|[[? ->]|[? ->]]]; done.
Qed.

Opaque final_events.

Lemma step_poll a s :
  (∀ who, Poll who true ∈ trace s →
          callback_fn w = LoggerMethod ∧ is_stopped s = true) →
  ∀ who, Poll who true ∈ trace (step w a s) →
         callback_fn w = LoggerMethod ∧ is_stopped (step w a s) = true.
Proof.
  intros Hs who. destruct a as [| |b]; step_cases; simpl;
    rewrite ?elem_of_app, ?elem_of_cons, ?elem_of_nil;
    intros H; destruct_or?; try discriminate;
    try (by apply Hs);
    try (by destruct (Hs who));
    try (by exfalso; eapply final_events_no_poll);
    by eapply should_stop_true.
Qed.

Lemma step_foreign a s :
  (callback_fn w = ForeignMethod → futures s = []) →
  callback_fn w = ForeignMethod → futures (step w a s) = [].
Proof.
  intros Hs Hf. specialize (Hs Hf).
  destruct a as [| |b]; step_cases; simpl; try done;
    try (rewrite should_stop_foreign in * by done; done).
  all: rewrite Hs in *; done.
Qed.


Lemma elem_of_insert_ne (fs : list future) b f g :
  g ≠ f → g ∈ <[b := f]> fs → g ∈ fs.
Proof.
  intros Hne (i & Hi)%list_elem_of_lookup.
  destruct (decide (i = b)) as [->|Hib].
  - destruct (decide (b < length fs)) as [Hlt|Hge].
    + rewrite list_lookup_insert_eq in Hi by done. congruence.
    + rewrite list_insert_ge in Hi by lia. by eapply list_elem_of_lookup_2.
  - rewrite list_lookup_insert_ne in Hi by done.
    by eapply list_elem_of_lookup_2.
Qed.

Lemma step_cancel a s :
  (Cancelled ∈ futures s → Poll Main true ∈ trace s) →
  Cancelled ∈ futures (step w a s) → Poll Main true ∈ trace (step w a s).
Proof.
  intros Hs. destruct a as [| |b]; step_cases; simpl;
    rewrite ?elem_of_app, ?elem_of_cons, ?elem_of_nil; auto;
    try (intros H%elem_of_insert_ne; [auto|done]).
  intros [H|[H|[]]]; [auto|discriminate].
Qed.

Lemma step_buffer a s :
  email_data s = flat_map (records_of_event w) (trace s) →
  email_data (step w a s) = flat_map (records_of_event w) (trace (step w a s)).
Proof.
  intros Hs. destruct a as [| |b]; step_cases; simpl;
    rewrite ?flat_map_app; simpl;
    rewrite ?final_events_records, ?app_nil_r; try done.
  rewrite Hs. f_equal.
  match goal with H : graph_get _ _ _ = _ |- _ => by rewrite H end.
Qed.

Lemma step_write a s :
  (∀ request, Write request ∈ trace s → ∃ data, Aggregate data ∈ trace s) →
  ∀ request, Write request ∈ trace (step w a s) →
             ∃ data, Aggregate data ∈ trace (step w a s).
Proof.
  intros Hs request. destruct a as [| |b]; step_cases; simpl;
    rewrite ?elem_of_app, ?elem_of_cons, ?elem_of_nil;
    intros H; destruct_or?; try discriminate;
    try (destruct (Hs request H) as [data Hd]; exists data;
         rewrite ?elem_of_app; auto; fail).
  exists (email_data s). rewrite elem_of_app, elem_of_cons. right. right.
  apply final_events_head.
Qed.


(** What a worker step leaves alone. *)
Lemma worker_step_pc b s : pc (worker_step w b s) = pc s.
Proof. step_cases; done. Qed.

Lemma worker_step_is_stopped b s :
  is_stopped (worker_step w b s) = is_stopped s.
Proof. step_cases; done. Qed.

(** A worker step changes at most the future of its batch, which was not
    settled, and neither cancels it nor puts it back in the queue. *)
Lemma worker_step_futures b s :
  futures (worker_step w b s) = futures s
  ∨ ∃ f f', futures s !! b = Some f ∧ settled f = false
            ∧ f' ≠ Cancelled ∧ f' ≠ Pending
            ∧ futures (worker_step w b s) = <[b := f']> (futures s).
Proof.
  step_cases; simpl; auto; right; eexists _, _; repeat split; done.
Qed.

Lemma step_main_ok a s :
  main_ok w s → (callback_fn w = ForeignMethod → futures s = []) →
  main_ok w (step w a s).
Proof.
  intros Hm Hf. destruct a as [| |b]; simpl.
  - done.
  - remember (main_step w s) as s' eqn:Hs'. unfold main_step in Hs'.
    unfold main_ok in Hm. case_step Hs'; subst s'; unfold main_ok; simpl;
      rewrite ?E; try done;
      try (apply Hf; by eapply should_stop_raise).
    + rewrite Hm. repeat split; [lia|]. by intros ?%elem_of_nil.
    + destruct Hm as (Hlen & Hle & Hc). rewrite length_app. simpl.
      match goal with H : (_ <? _)%nat = true |- _ => apply Nat.ltb_lt in H end.
      repeat split; [lia|lia|].
      intros [Hin|Hin]%elem_of_app; [done|].
      by apply list_elem_of_singleton in Hin.
    + destruct Hm as (Hlen & Hle & Hc).
      match goal with H : (_ <? _)%nat = false |- _ => apply Nat.ltb_ge in H end.
      split; [lia|done].
    + intros _. unfold cancel_all. rewrite length_map. by destruct Hm.
    + intros _. by destruct Hm.
    + split; [by apply Hm|done].
  - unfold main_ok in *. rewrite worker_step_pc.
    destruct (worker_step_futures b s) as [->|(f & f' & Hb & Hset & Hc & Hp & ->)];
      [done|].
    assert (futures s ≠ []) as Hne by (intros Hnil; by rewrite Hnil in Hb).
    destruct (pc s); rewrite ?length_insert; try done.
    + destruct Hm as (? & ? & Hm). repeat split; try done.
      intros Hin. by apply elem_of_insert_ne in Hin.
    + destruct Hm as (? & Hm). repeat split; try done.
      intros Hin. by apply elem_of_insert_ne in Hin.
    + destruct Hm as (? & Hm). exfalso.
      rewrite forallb_forall in Hm.
      assert (settled f = true) as Hf'
        by (apply Hm, list_elem_of_In; by eapply list_elem_of_lookup_2).
      congruence.
Qed.



Lemma final_events_batch data b : events_of b (final_events w data) = [].
Proof.
  unfold events_of.
  assert (∀ evs, (∀ ev, ev ∈ evs → batch_of ev = None) →
                 filter (fun ev => batch_of ev = Some b) evs = []) as Hnone.
  { induction evs as [|ev evs IH]; intros H; [done|].
    rewrite filter_cons. rewrite (H ev) by (by left).
    destruct (decide _); [done|]. apply IH. intros ev' ?. apply H. by right. }
  apply Hnone. intros ev H%final_events_elem.
  destruct H as [->|[[? ->]|[? ->]]]; done.
Qed.

(** The main thread and the user perform no event of a worker. *)
Lemma main_step_events b s :
  events_of b (trace (main_step w s)) = events_of b (trace s).
Proof.
  step_cases; simpl; rewrite ?events_of_app; try done.
  all: try (unfold events_of; simpl; by rewrite app_nil_r).
  unfold events_of at 2. rewrite filter_cons. simpl.
  fold (events_of b (final_events w (email_data s))).
  by rewrite final_events_batch, app_nil_r.
Qed.

(** The main thread only appends a pending future or cancels the waiting
    ones. *)
Lemma main_step_futures s :
  futures (main_step w s) = futures s
  ∨ futures (main_step w s) = futures s ++ [Pending]
  ∨ futures (main_step w s) = cancel_all (futures s).
Proof. step_cases; simpl; auto. Qed.

Lemma events_of_other b tr evs :
  Forall (fun ev => batch_of ev ≠ Some b) evs →
  events_of b (tr ++ evs) = events_of b tr.
Proof.
  intros H. rewrite events_of_app.
  assert (events_of b evs = []) as ->; [|by rewrite app_nil_r].
  unfold events_of. induction H as [|ev evs Hev _ IH]; [done|].
  by rewrite filter_cons, decide_False.
Qed.

Lemma worker_step_events_other b0 b s :
  b ≠ b0 → events_of b (trace (worker_step w b0 s)) = events_of b (trace s).
Proof.
  intros Hne. step_cases; simpl; try done.
  all: rewrite events_of_other; [done|].
  all: repeat (apply Forall_cons; split; [by intros [= ->]|]); apply Forall_nil_2.
Qed.

Lemma attempts_unfold b retries :
  retries < MAX_RETRIES →
  attempts w b retries (MAX_RETRIES - retries)
  = Get b retries ::
    match graph_get w b retries with
    | Response status_code value text =>
        if (status_code =? 200)%nat
        then [Extend b retries; Log (Worker b) (BatchFetched b)]
        else Log (Worker b) (FetchFailed b (retries + 1) text)
             :: Sleep b RETRY_DELAY
             :: attempts w b (retries + 1) (MAX_RETRIES - (retries + 1))
    | RequestException description =>
        [Log (Worker b) (BatchError b description)]
    end.
Proof.
  intros Hlt.
  replace (MAX_RETRIES - retries) with (S (MAX_RETRIES - (retries + 1))) by lia.
  done.
Qed.

Lemma attempts_exhausted b retries :
  MAX_RETRIES ≤ retries →
  attempts w b retries (MAX_RETRIES - retries) = [Log (Worker b) (BatchFailed b)].
Proof. intros Hge. by replace (MAX_RETRIES - retries) with 0 by lia. Qed.

Lemma events_of_own b tr evs :
  Forall (fun ev => batch_of ev = Some b) evs →
  events_of b (tr ++ evs) = events_of b tr ++ evs.
Proof.
  intros H. rewrite events_of_app. f_equal.
  unfold events_of. induction H as [|ev evs Hev _ IH]; [done|].
  rewrite filter_cons, decide_True by done. by rewrite IH.
Qed.

Lemma worker_step_script b s :
  (callback_fn w = ForeignMethod → futures s = []) →
  follows_script w b (futures s !! b) (events_of b (trace s)) →
  follows_script w b (futures (worker_step w b s) !! b)
                 (events_of b (trace (worker_step w b s))).
Proof.
  intros Hf Hs.
  remember (worker_step w b s) as s' eqn:Hs'. unfold worker_step in Hs'.
  case_step Hs'; subst s'; cbn [futures trace set_future set_futures emit extend];
    try (rewrite E; exact Hs);
    (rewrite list_lookup_insert_eq by (by eapply lookup_lt_Some));
    rewrite ?events_of_own by (repeat constructor);
    unfold follows_script, remaining in *.
  all: repeat match goal with
         | H : (_ <? MAX_RETRIES) = true |- _ =>
             apply Nat.ltb_lt in H; rewrite (attempts_unfold _ _ H) in Hs
         | H : (_ <? MAX_RETRIES) = false |- _ =>
             apply Nat.ltb_ge in H; rewrite (attempts_exhausted _ _ H) in Hs
         | H : graph_get _ _ _ = _ |- _ => rewrite H in Hs; clear H
         | H : (_ =? 200) = _ |- _ => rewrite H in Hs; clear H
         | H : should_stop _ _ = Raise _ |- _ =>
             apply should_stop_raise in H; rewrite (Hf H) in *; done
         end.
  all: rewrite <- ?app_assoc; try (rewrite Hs; by auto); auto.
Qed.

Lemma step_script a s :
  (callback_fn w = ForeignMethod → futures s = []) →
  (∀ b, follows_script w b (futures s !! b) (events_of b (trace s))) →
  ∀ b, follows_script w b (futures (step w a s) !! b)
                      (events_of b (trace (step w a s))).
Proof.
  intros Hf Hs b. specialize (Hs b). destruct a as [| |b0]; simpl.
  - rewrite events_of_other; [done|]. by repeat constructor.
  - rewrite main_step_events.
    destruct (main_step_futures s) as [->|[->| ->]]; [done| |].
    + destruct (futures s !! b) as [f|] eqn:Hb.
      * by rewrite (lookup_app_l_Some _ _ _ _ Hb).
      * simpl in Hs. destruct ((futures s ++ [Pending]) !! b) as [f|] eqn:Hb';
          [|done].
        apply lookup_ge_None in Hb. rewrite lookup_app_r in Hb' by done.
        apply list_lookup_singleton_Some in Hb' as [_ <-]. done.
    + unfold cancel_all. rewrite list_lookup_fmap.
      by destruct (futures s !! b) as [[]|].
  - destruct (decide (b = b0)) as [->|Hne]; [by apply worker_step_script|].
    rewrite worker_step_events_other by done.
    destruct (worker_step_futures b0 s) as [->|(f & f' & _ & _ & _ & _ & ->)];
      [done|].
    by rewrite list_lookup_insert_ne.
Qed.


Lemma final_events_aggregate data data' :
  Aggregate data' ∈ final_events w data → data' = data.
Proof.
  intros H%final_events_elem.
  destruct H as [[= ->]|[[? H]|[? H]]]; [done| |]; discriminate H.
Qed.

(** The only step that aggregates is the last step of the main thread, when
    its poll answers that the run is not stopped. *)
Lemma step_aggregate a s data :
  Aggregate data ∈ trace (step w a s) →
  Aggregate data ∈ trace s
  ∨ (a = Main ∧ pc s = Final ∧ should_stop w s = Ok false
     ∧ data = email_data s
     ∧ step w a s
       = goto Returned
           (emit (Poll Main false :: final_events w (email_data s)) s)).
Proof.
  destruct a as [| |b]; simpl.
  - rewrite elem_of_app, list_elem_of_singleton. intros [?|?]; [by left|done].
  - remember (main_step w s) as s' eqn:Hs'. unfold main_step in Hs'.
    case_step Hs'; subst s'; simpl;
      rewrite ?elem_of_app, ?elem_of_cons, ?elem_of_nil;
      intros H; destruct_or?; try discriminate; auto.
    apply final_events_aggregate in H as ->. right. done.
  - remember (worker_step w b s) as s' eqn:Hs'. unfold worker_step in Hs'.
    case_step Hs'; subst s'; simpl;
      rewrite ?elem_of_app, ?elem_of_cons, ?elem_of_nil;
      intros H; destruct_or?; try discriminate; auto.
Qed.

Lemma step_final a s :
  invariant w s →
  ∀ data, Aggregate data ∈ trace (step w a s) →
    pc (step w a s) = Returned ∧ data = email_data (step w a s)
    ∧ Forall (fun f => f = Done) (futures (step w a s))
    ∧ length (futures (step w a s)) = total_batches w
    ∧ ∀ who, Poll who true ∉ trace (step w a s).
Proof.
  intros Hinv data [Hold|(-> & Hpc & Hstop & -> & ->)]%step_aggregate.
  - destruct (inv_final _ _ Hinv data Hold) as (Hpc & -> & Hdone & Hlen & Hpoll).
    destruct a as [| |b]; simpl.
    + repeat split; try done. intros who [H|H]%elem_of_app; [by eapply Hpoll|].
      by apply list_elem_of_singleton in H.
    + unfold main_step. rewrite Hpc. done.
    + assert (worker_step w b s = s) as ->; [|done].
      unfold worker_step. destruct (futures s !! b) as [f|] eqn:Hb; [|done].
      rewrite Forall_forall in Hdone.
      rewrite (Hdone f) by (by eapply list_elem_of_lookup_2). done.
  - simpl. pose proof (inv_main _ _ Hinv) as Hm. unfold main_ok in Hm.
    rewrite Hpc in Hm. destruct Hm as [Hlen Hset].
    assert (∀ who, Poll who true ∉ trace s) as Hnone.
    { intros who Hin. destruct (inv_poll _ _ Hinv who Hin) as [Hcb Hflag].
      apply should_stop_false in Hstop; [congruence|done]. }
    repeat split; try done.
    + rewrite forallb_forall in Hset. apply Forall_forall. intros f Hf.
      assert (f ≠ Cancelled) as Hnc.
      { intros ->. by apply (Hnone Main), (inv_cancel _ _ Hinv). }
      specialize (Hset f (proj1 (list_elem_of_In _ _) Hf)).
      by destruct f.
    + intros who. rewrite elem_of_app, elem_of_cons.
      intros [H|[H|H]]; [by eapply Hnone|discriminate|].
      by eapply final_events_no_poll.
Qed.

Lemma initial_invariant : invariant w initial.
Proof.
  split; simpl; try done; intros;
    by match goal with H : _ ∈ [] |- _ => apply elem_of_nil in H end.
Qed.

Lemma step_invariant a s : invariant w s → invariant w (step w a s).
Proof.
  intros Hinv. split.
  - apply step_script; [apply Hinv|apply Hinv].
  - apply step_buffer, Hinv.
  - apply step_main_ok; apply Hinv.
  - apply step_foreign, Hinv.
  - apply step_poll, Hinv.
  - apply step_stop, Hinv.
  - apply step_cancel, Hinv.
  - by apply step_final.
  - apply step_write, Hinv.
Qed.

Lemma run_from_invariant s schedule :
  invariant w s → invariant w (run_from w s schedule).
Proof.
  intros Hs. induction schedule as [|a schedule IH] using rev_ind; [done|].
  rewrite run_from_snoc. by apply step_invariant.
Qed.

Lemma run_invariant schedule : invariant w (run w schedule).
Proof. apply run_from_invariant, initial_invariant. Qed.

Transparent final_events.

End Runs.


(** ** Cancellation *)

Section Cancellation.

Context (w : world).

Lemma final_events_not_stopped data who :
  Log who StoppedByUser ∉ final_events w data.
Proof.
  unfold final_events. intros [?|Hev]%elem_of_cons; [done|].
  repeat match goal with
         | H : context [match ?x with _ => _ end] |- _ => destruct x
         end;
    rewrite ?elem_of_app, ?elem_of_cons, ?elem_of_nil in Hev;
    try (destruct_or!; done).
  destruct Hev as [Hev|Hev]; [|destruct_or!; done].
  unfold write_events in Hev. apply list_elem_of_In, in_flat_map in Hev.
  destruct Hev as (request & _ & Hin). apply list_elem_of_In in Hin.
  rewrite ?elem_of_cons, ?elem_of_nil in Hin.
  destruct request; destruct_or!; done.
Qed.

Opaque final_events.

(** The line "stopped by user" is logged only after a poll of the main
    thread that answered true. *)
Lemma run_stopped_line schedule who :
  Log who StoppedByUser ∈ trace (run w schedule) →
  Poll Main true ∈ trace (run w schedule).
Proof.
  unfold run. induction schedule as [|a schedule IH] using rev_ind.
  - by intros ?%elem_of_nil.
  - rewrite run_from_snoc. revert IH. generalize (run_from w initial schedule).
    intros s IH. destruct a as [| |b]; step_cases; simpl;
      rewrite ?elem_of_app, ?elem_of_cons, ?elem_of_nil;
      intros H; destruct_or?; try discriminate; auto.
    by apply final_events_not_stopped in H.
Qed.

Transparent final_events.

End Cancellation.

(** C10. When [callback_fn] is [None] or a plain function, [should_stop]
    answers [False] in every state, hence at every poll of every run: no
    "stopped by user" line is logged and no future is cancelled, whatever
    the user does. A poll answers [True] only when the callback is the bound
    method of the logger, whose [should_stop] returns its flag, and after
    the user has pressed Stop. *)
Theorem should_stop_needs_logger (w : world) (schedule : list actor) :
  (callback_fn w = NoCallback ∨ callback_fn w = PlainFunction →
   (∀ s, should_stop w s = Ok false)
   ∧ (∀ who answer, Poll who answer ∈ trace (run w schedule) → answer = false)
   ∧ (∀ who, Log who StoppedByUser ∉ trace (run w schedule))
   ∧ Cancelled ∉ futures (run w schedule))
  ∧ (callback_fn w = LoggerMethod → ∀ s, should_stop w s = Ok (is_stopped s))
  ∧ (∀ who, Poll who true ∈ trace (run w schedule) →
       callback_fn w = LoggerMethod ∧ Stop ∈ trace (run w schedule)).
Proof.
  pose proof (run_invariant w schedule) as Hinv.
  assert (∀ who, Poll who true ∈ trace (run w schedule) →
            callback_fn w = LoggerMethod ∧ Stop ∈ trace (run w schedule))
    as Htrue.
  { intros who Hin. destruct (inv_poll _ _ Hinv who Hin) as [Hcb Hflag].
    split; [done|]. by apply (inv_stop _ _ Hinv). }
  split; [|split; [|done]].
  - intros Hcb.
    assert (callback_fn w ≠ LoggerMethod) as Hne by (destruct Hcb; congruence).
    repeat split.
    + intros s. unfold should_stop. by destruct Hcb as [-> | ->].
    + intros who [|] Hin; [|done]. by destruct (Htrue who Hin).
    + intros who Hin%run_stopped_line. by destruct (Htrue Main Hin).
    + intros Hin%(inv_cancel _ _ Hinv). by destruct (Htrue Main Hin).
  - intros Hcb s. unfold should_stop. by rewrite Hcb.
Qed.

Lemma should_stop_needs_logger_witness :
  (∀ s, should_stop unattended s = Ok false)
  ∧ (∀ who answer,
       Poll who answer ∈ trace (run unattended RunExamples.stop_after_batch_0) →
       answer = false)
  ∧ (∀ who,
       Log who StoppedByUser
       ∉ trace (run unattended RunExamples.stop_after_batch_0))
  ∧ Cancelled ∉ futures (run unattended RunExamples.stop_after_batch_0).
Proof.
  apply (should_stop_needs_logger unattended RunExamples.stop_after_batch_0).
  left. reflexivity.
Defined.

Example stop_is_seen_through_the_logger :
  Poll Main true ∈ trace (run RunExamples.two_batches RunExamples.stop_after_batch_0)
  ∧ Poll Main true ∉ trace (run unattended RunExamples.stop_after_batch_0).
Proof.
  split.
  - vm_compute. apply list_elem_of_In. simpl.
    repeat ((left; reflexivity) || right).
  - intros H. vm_compute in H.
    repeat (apply elem_of_cons in H as [H|H]; [discriminate H|]).
    by apply elem_of_nil in H.
Qed.


(** ** The fetch of one batch *)

Section Batches.

Context (w : world).

Lemma attempts_head b retries fuel who answer rest :
  attempts w b retries fuel ≠ Poll who answer :: rest.
Proof. by destruct fuel. Qed.

Lemma attempts_no_poll b who answer retries fuel :
  Poll who answer ∉ attempts w b retries fuel.
Proof.
  revert retries. induction fuel as [|fuel IH]; intros retries; simpl.
  - by intros [?|?%elem_of_nil]%elem_of_cons.
  - intros [?|H]%elem_of_cons; [done|].
    destruct (graph_get w b retries) as [status_code value text|description].
    + destruct (status_code =? 200);
        rewrite ?elem_of_cons, ?elem_of_nil in H; destruct_or?;
        try discriminate; try done.
      by eapply IH.
    + by apply list_elem_of_singleton in H.
Qed.

(** The events of a batch: nothing yet, or a poll that stopped it, or a poll
    that let it go followed by an initial part of the fetch. *)
Lemma batch_events_shape schedule b :
  let evs := events_of b (trace (run w schedule)) in
  evs = []
  ∨ evs = [Poll (Worker b) true]
  ∨ ∃ rest, evs = Poll (Worker b) false :: rest
            ∧ rest `prefix_of` fetch_script w b.
Proof.
  simpl. pose proof (inv_script _ _ (run_invariant w schedule) b) as Hs.
  unfold follows_script in Hs.
  destruct (futures (run w schedule) !! b) as [[|retries sleeping| |]|];
    try (by left).
  - right. right.
    destruct (events_of b (trace (run w schedule))) as [|ev evs].
    + exfalso. simpl in Hs. destruct sleeping; [done|].
      by apply attempts_head in Hs.
    + simpl in Hs. injection Hs as -> Hs. exists evs. split; [done|].
      by eexists.
  - destruct Hs as [->| ->]; [by right; left|].
    right. right. by eexists.
Qed.

Lemma batch_events_done schedule b :
  futures (run w schedule) !! b = Some Done →
  events_of b (trace (run w schedule)) = [Poll (Worker b) true]
  ∨ events_of b (trace (run w schedule))
    = Poll (Worker b) false :: fetch_script w b.
Proof.
  intros Hb. pose proof (inv_script _ _ (run_invariant w schedule) b) as Hs.
  by rewrite Hb in Hs.
Qed.

(** A batch that never gets status 200 makes three requests, sleeps after
    each of them, and gives up. *)
Lemma fetch_script_failing b :
  never_succeeds w b → fetch_script w b = failing_script w b.
Proof.
  intros Hfail. unfold fetch_script, failing_script, reply_text. simpl.
  destruct (Hfail 0) as (c0 & v0 & t0 & -> & ?%Nat.eqb_neq).
  destruct (Hfail 1) as (c1 & v1 & t1 & -> & ?%Nat.eqb_neq).
  destruct (Hfail 2) as (c2 & v2 & t2 & -> & ?%Nat.eqb_neq).
  by repeat match goal with H : (_ =? 200) = false |- _ => rewrite H; clear H end.
Qed.

Lemma events_of_elem b ev tr : ev ∈ tr → batch_of ev = Some b → ev ∈ events_of b tr.
Proof. intros. unfold events_of. by apply list_elem_of_filter. Qed.

Lemma elem_of_events_of b ev tr : ev ∈ events_of b tr → ev ∈ tr.
Proof. unfold events_of. by intros [_ ?]%list_elem_of_filter. Qed.

End Batches.

(** C2, as amended. The cancellation predicate is consulted once for a
    batch, by [process_batch] before the fetch starts; a batch that sees it
    set makes no request. Inside [fetch_sent_emails] it is never consulted:
    what a started fetch does is a function of the replies alone, whatever
    the user does meanwhile, and a batch whose requests all get a
    non-success status makes its three requests and sleeps three times. *)
Theorem cancellation_checked_once_per_batch (w : world)
    (schedule : list actor) (b : nat) :
  (events_of b (trace (run w schedule)) = []
   ∨ events_of b (trace (run w schedule)) = [Poll (Worker b) true]
   ∨ ∃ rest, events_of b (trace (run w schedule)) = Poll (Worker b) false :: rest
             ∧ rest `prefix_of` fetch_script w b)
  ∧ (∀ who answer, Poll who answer ∉ fetch_script w b)
  ∧ (futures (run w schedule) !! b = Some Done →
     events_of b (trace (run w schedule)) = [Poll (Worker b) true]
     ∨ events_of b (trace (run w schedule))
       = Poll (Worker b) false :: fetch_script w b)
  ∧ (never_succeeds w b → fetch_script w b = failing_script w b).
Proof.
  split; [apply batch_events_shape|]. split; [|split].
  - intros who answer. apply attempts_no_poll.
  - apply batch_events_done.
  - apply fetch_script_failing.
Qed.

Lemma cancellation_checked_once_per_batch_witness :
  events_of 0 (trace (run RunExamples.always_failing RunExamples.stop_mid_retry))
  = Poll (Worker 0) false :: failing_script RunExamples.always_failing 0.
Proof.
  destruct (cancellation_checked_once_per_batch RunExamples.always_failing
              RunExamples.stop_mid_retry 0) as (_ & _ & Hdone & Hfail).
  rewrite <- Hfail.
  - destruct Hdone as [Hdone|Hdone]; [reflexivity| |exact Hdone].
    vm_compute in Hdone. discriminate Hdone.
  - intros retries. exists 429, [], "Too Many Requests". split; [reflexivity|].
    discriminate.
Defined.

(** C2 as stated fails: in this run the user presses Stop after the first
    failed request of batch 0, and the fetch still makes its second and third
    request. *)
Lemma retries_continue_after_stop :
  ¬ no_retry_after_stop
      (trace (run RunExamples.always_failing RunExamples.stop_mid_retry)).
Proof.
  intros H.
  apply (H [Poll Main false; Poll Main false; Log Main (TotalEmails 50);
            Poll Main false; Submit 0; Poll (Worker 0) false; Get 0 0;
            Log (Worker 0) (FetchFailed 0 1 "Too Many Requests")]
           [Sleep 0 10; Get 0 1;
            Log (Worker 0) (FetchFailed 0 2 "Too Many Requests");
            Sleep 0 10; Get 0 2;
            Log (Worker 0) (FetchFailed 0 3 "Too Many Requests");
            Sleep 0 10; Log (Worker 0) (BatchFailed 0);
            Poll Main true; Poll Main true] 0 0).
  - vm_compute. reflexivity.
  - right. left.
Qed.


(** ** A batch that keeps failing *)

Section FailingBatch.

Context (w : world) (b : nat).
Hypothesis Hfail : never_succeeds w b.





End FailingBatch.

(** ** After the user has pressed Stop *)

Section SubmitBound.

Context (w : world).

Lemma step_futures_length a s :
  length (futures s) ≤ length (futures (step w a s)).
Proof.
  destruct a as [| |b]; simpl.
  - done.
  - destruct (main_step_futures w s) as [->|[->| ->]];
      rewrite ?length_app; unfold cancel_all; rewrite ?length_map; simpl; lia.
  - destruct (worker_step_futures w b s) as [->|(f & f' & _ & _ & _ & _ & ->)];
      rewrite ?length_insert; lia.
Qed.

(** A batch that was submitted has a future. *)
Lemma submit_bound schedule b :
  Submit b ∈ trace (run w schedule) → b < length (futures (run w schedule)).
Proof.
  unfold run. induction schedule as [|a schedule IH] using rev_ind.
  - by intros ?%elem_of_nil.
  - rewrite run_from_snoc.
    pose proof (inv_main _ _ (run_invariant w schedule)) as Hm.
    pose proof (step_futures_length a (run_from w initial schedule)) as Hlen.
    revert IH Hm Hlen. unfold run. generalize (run_from w initial schedule).
    intros s IH Hm Hlen Hin.
    assert (Submit b ∈ trace s
            ∨ (pc s = Submitting b
               ∧ length (futures (step w a s)) = S (length (futures s))))
      as [Hold|[Hpc Hnew]].
    { revert Hin. clear. destruct a as [| |b0]; simpl.
      - rewrite elem_of_app, list_elem_of_singleton. intros [?|?]; [by left|done].
      - remember (main_step w s) as s' eqn:Hs'. unfold main_step in Hs'.
        case_step Hs'; subst s'; simpl;
          rewrite ?elem_of_app, ?elem_of_cons, ?elem_of_nil;
          intros H; destruct_or?; try discriminate; auto.
        + injection H as ->. right. split; [done|]. rewrite length_app. simpl. lia.
        + apply final_events_elem in H.
          destruct H as [H|[[? H]|[? H]]]; discriminate H.
      - remember (worker_step w b0 s) as s' eqn:Hs'. unfold worker_step in Hs'.
        case_step Hs'; subst s'; simpl;
          rewrite ?elem_of_app, ?elem_of_cons, ?elem_of_nil;
          intros H; destruct_or?; try discriminate; auto. }
    + specialize (IH Hold). lia.
    + unfold main_ok in Hm. rewrite Hpc in Hm. destruct Hm as [Hb _]. lia.
Qed.

End SubmitBound.

Section Stopped.

Context (w : world).
Hypothesis Hcb : callback_fn w = LoggerMethod.

Lemma should_stop_logger s : should_stop w s = Ok (is_stopped s).
Proof. unfold should_stop. by rewrite Hcb. Qed.

(** Once the flag is set it stays set, and no step starts new work. *)
Lemma step_when_stopped a s :
  is_stopped s = true →
  is_stopped (step w a s) = true
  ∧ ∃ evs, trace (step w a s) = trace s ++ evs
           ∧ Forall (fun ev => starts_work ev = false) evs.
Proof.
  intros Hflag.
  assert (should_stop w s = Ok true) as Hstop
    by (by rewrite should_stop_logger, Hflag).
  destruct a as [| |b]; unfold step, user_step, main_step, worker_step;
    rewrite ?Hstop;
    repeat match goal with
           | |- context [match ?x with _ => _ end] => destruct x eqn:?
           end;
    simpl; (split; [done|]);
    first [ by exists []; rewrite app_nil_r
          | by eexists; split; [reflexivity|repeat constructor] ].
Qed.

Lemma run_when_stopped s schedule :
  is_stopped s = true →
  is_stopped (run_from w s schedule) = true
  ∧ ∃ evs, trace (run_from w s schedule) = trace s ++ evs
           ∧ Forall (fun ev => starts_work ev = false) evs.
Proof.
  intros Hflag. induction schedule as [|a schedule IH] using rev_ind.
  - split; [done|]. exists []. by rewrite app_nil_r.
  - rewrite run_from_snoc. destruct IH as (Hflag' & evs & Htr & Hq).
    destruct (step_when_stopped a _ Hflag') as (Hflag'' & evs' & Htr' & Hq').
    split; [done|]. exists (evs ++ evs').
    rewrite Htr', Htr, app_assoc. split; [done|]. by apply Forall_app.
Qed.

Lemma cancel_all_done fs :
  Forall (fun f => f = Done) fs → cancel_all fs = fs.
Proof.
  unfold cancel_all. induction 1 as [|f fs -> _ IH]; [done|].
  simpl. by rewrite IH.
Qed.

(** With every future done and the flag set, nothing more is fetched. *)
Lemma step_all_done a s :
  is_stopped s = true → Forall (fun f => f = Done) (futures s) →
  futures (step w a s) = futures s ∧ email_data (step w a s) = email_data s.
Proof.
  intros Hflag Hdone.
  assert (should_stop w s = Ok true) as Hstop
    by (by rewrite should_stop_logger, Hflag).
  destruct a as [| |b]; simpl.
  - done.
  - unfold main_step. rewrite ?Hstop.
    repeat match goal with
           | |- context [match ?x with _ => _ end] => destruct x eqn:?
           end;
      simpl; rewrite ?cancel_all_done by done; done.
  - assert (worker_step w b s = s) as ->; [|done].
    unfold worker_step. destruct (futures s !! b) as [f|] eqn:Hb; [|done].
    rewrite Forall_forall in Hdone.
    rewrite (Hdone f) by (by eapply list_elem_of_lookup_2). done.
Qed.

Lemma run_all_done s schedule :
  is_stopped s = true → Forall (fun f => f = Done) (futures s) →
  futures (run_from w s schedule) = futures s
  ∧ email_data (run_from w s schedule) = email_data s.
Proof.
  intros Hflag Hdone. induction schedule as [|a schedule IH] using rev_ind.
  - done.
  - rewrite run_from_snoc. destruct IH as [Hf Hd].
    destruct (run_when_stopped s schedule Hflag) as [Hflag' _].
    destruct (step_all_done a (run_from w s schedule) Hflag') as [Hf' Hd'].
    + by rewrite Hf.
    + by rewrite Hf', Hd', Hf, Hd.
Qed.

Lemma steps_left_zero p : steps_left p ≤ 0 → p = Returned.
Proof. destruct p as [| | | | | |[|]| | |]; simpl; (done || lia). Qed.

Lemma filter_settled_done fs :
  Forall (fun f => f = Done) fs →
  filter (fun f => settled f = true) fs = fs ∧ forallb settled fs = true.
Proof.
  induction 1 as [|f fs -> _ [IH1 IH2]]; [done|].
  rewrite filter_cons. simpl. by rewrite IH1, IH2.
Qed.

(** Stopped and with an idle pool, the main thread winds down. *)
Lemma main_step_winds_down s :
  is_stopped s = true → Forall (fun f => f = Done) (futures s) →
  steps_left (pc s) ≤ 4 →
  steps_left (pc (main_step w s)) ≤ steps_left (pc s) - 1.
Proof.
  intros Hflag Hdone Hrank.
  assert (should_stop w s = Ok true) as Hstop
    by (by rewrite should_stop_logger, Hflag).
  destruct (filter_settled_done _ Hdone) as [Hfilter Hall].
  unfold main_step. rewrite Hstop, Hfilter, Hall.
  destruct (pc s) as [| | | |batch|seen|[|]| | |] eqn:Hpc; simpl in *;
    rewrite ?Hpc; simpl; try lia.
  - destruct (batch <? total_batches w); simpl; lia.
  - destruct (seen <? length (futures s)); simpl; lia.
Qed.

Lemma main_winds_down s n :
  is_stopped s = true → Forall (fun f => f = Done) (futures s) →
  steps_left (pc s) ≤ 4 →
  steps_left (pc (run_from w s (replicate n Main))) ≤ steps_left (pc s) - n.
Proof.
  intros Hflag Hdone Hrank. induction n as [|n IH].
  - simpl. lia.
  - replace (replicate (S n) Main) with (replicate n Main ++ [Main])
      by (by rewrite <- replicate_S_end).
    rewrite run_from_snoc. simpl.
    destruct (run_when_stopped s (replicate n Main) Hflag) as [Hflag' _].
    destruct (run_all_done s (replicate n Main) Hflag Hdone) as [Hf _].
    pose proof (main_step_winds_down (run_from w s (replicate n Main)) Hflag')
      as Hstep.
    rewrite Hf in Hstep. specialize (Hstep Hdone). lia.
Qed.

End Stopped.

(** C8, as amended. When the flag is set after batch 0 has completed and
    before batch 1 is submitted, the main thread finds it set at its next
    poll and returns: batch 1 is never submitted, nothing more is fetched,
    and neither the aggregation (not even over the records of batch 0) nor
    any write to the destination takes place. *)
Theorem stop_before_second_batch (w : world) (sched1 sched2 : list actor) :
  callback_fn w = LoggerMethod →
  pc (run w sched1) = Submitting 1 →
  futures (run w sched1) = [Done] →
  (∀ data,
     Aggregate data ∉ trace (run_from w (step w User (run w sched1)) sched2))
  ∧ (∀ request,
       Write request ∉ trace (run_from w (step w User (run w sched1)) sched2))
  ∧ (Submit 1 ∉ trace (run_from w (step w User (run w sched1)) sched2))
  ∧ futures (run_from w (step w User (run w sched1)) sched2) = [Done]
  ∧ email_data (run_from w (step w User (run w sched1)) sched2)
    = email_data (run w sched1)
  ∧ pc (run_from w (step w User (run w sched1)) (replicate 4 Main)) = Returned.
Proof.
  intros Hcb Hpc Hfut.
  pose proof (run_invariant w sched1) as Hinv.
  assert (∀ ev, starts_work ev = true → ev ∈ trace (run w sched1) →
                ev = Submit 0) as Hbefore.
  { intros [] Hw Hin; try discriminate Hw.
    - apply submit_bound in Hin. rewrite Hfut in Hin. simpl in Hin.
      f_equal. lia.
    - apply (inv_final _ _ Hinv) in Hin as [Hret _]. congruence.
    - apply (inv_write _ _ Hinv) in Hin as [data Hin].
      apply (inv_final _ _ Hinv) in Hin as [Hret _]. congruence. }
  assert (is_stopped (step w User (run w sched1)) = true) as Hflag by done.
  destruct (run_when_stopped w Hcb _ sched2 Hflag) as (_ & evs & Htr & Hquiet).
  assert (∀ ev, starts_work ev = true →
            ev ∈ trace (run_from w (step w User (run w sched1)) sched2) →
            ev = Submit 0) as Hafter.
  { intros ev Hw. rewrite Htr. simpl.
    rewrite !elem_of_app, list_elem_of_singleton.
    intros [[Hin| ->]|Hin]; [by apply Hbefore|done|].
    rewrite Forall_forall in Hquiet. rewrite (Hquiet ev Hin) in Hw. done. }
  destruct (run_all_done w Hcb (step w User (run w sched1)) sched2 Hflag)
    as [Hf Hd]; [simpl; rewrite Hfut; by repeat constructor|].
  split; [|split; [|split; [|split; [|split]]]].
  - intros data Hin. by apply Hafter in Hin.
  - intros request Hin. by apply Hafter in Hin.
  - intros Hin. by apply Hafter in Hin.
  - by rewrite Hf.
  - by rewrite Hd.
  - apply steps_left_zero.
    pose proof (main_winds_down w Hcb (step w User (run w sched1)) 4 Hflag)
      as Hdown.
    change (pc (step w User (run w sched1))) with (pc (run w sched1)) in Hdown.
    change (futures (step w User (run w sched1)))
      with (futures (run w sched1)) in Hdown.
    rewrite Hfut, Hpc in Hdown.
    change (steps_left (Submitting 1)) with 4 in Hdown.
    rewrite Hdown; [lia|by repeat constructor|lia].
Qed.

Lemma stop_before_second_batch_witness :
  (∀ data,
     Aggregate data
     ∉ trace (run_from RunExamples.two_batches
                (step RunExamples.two_batches User
                   (run RunExamples.two_batches
                      (replicate 5 Main ++ replicate 2 (Worker 0))))
                (replicate 4 Main)))
  ∧ (∀ request,
       Write request
       ∉ trace (run_from RunExamples.two_batches
                  (step RunExamples.two_batches User
                     (run RunExamples.two_batches
                        (replicate 5 Main ++ replicate 2 (Worker 0))))
                  (replicate 4 Main)))
  ∧ (Submit 1
     ∉ trace (run_from RunExamples.two_batches
                (step RunExamples.two_batches User
                   (run RunExamples.two_batches
                      (replicate 5 Main ++ replicate 2 (Worker 0))))
                (replicate 4 Main)))
  ∧ futures (run_from RunExamples.two_batches
               (step RunExamples.two_batches User
                  (run RunExamples.two_batches
                     (replicate 5 Main ++ replicate 2 (Worker 0))))
               (replicate 4 Main))
    = [Done]
  ∧ email_data (run_from RunExamples.two_batches
                  (step RunExamples.two_batches User
                     (run RunExamples.two_batches
                        (replicate 5 Main ++ replicate 2 (Worker 0))))
                  (replicate 4 Main))
    = email_data (run RunExamples.two_batches
                    (replicate 5 Main ++ replicate 2 (Worker 0)))
  ∧ pc (run_from RunExamples.two_batches
          (step RunExamples.two_batches User
             (run RunExamples.two_batches
                (replicate 5 Main ++ replicate 2 (Worker 0))))
          (replicate 4 Main))
    = Returned.
Proof.
  apply (stop_before_second_batch RunExamples.two_batches
           (replicate 5 Main ++ replicate 2 (Worker 0)) (replicate 4 Main)).
  - reflexivity.
  - vm_compute. reflexivity.
  - vm_compute. reflexivity.
Defined.

(** C8 as stated fails: in this run batch 0 completes, the user presses
    Stop before batch 1 is submitted, the main thread returns, and the
    records of batch 0 sit in [email_data] without ever being aggregated. *)
Lemma stopped_run_does_not_aggregate :
  pc (run RunExamples.two_batches RunExamples.stop_after_batch_0) = Returned
  ∧ email_data (run RunExamples.two_batches RunExamples.stop_after_batch_0)
    = map email_info (RunExamples.page 0)
  ∧ Aggregate (map email_info (RunExamples.page 0))
    ∉ trace (run RunExamples.two_batches RunExamples.stop_after_batch_0).
Proof.
  split; [vm_compute; reflexivity|]. split; [vm_compute; reflexivity|].
  intros Hin. vm_compute in Hin.
  repeat (apply elem_of_cons in Hin as [Hin|Hin]; [discriminate Hin|]).
  by apply elem_of_nil in Hin.
Qed.


(** ** Runs that nobody stops reach the final processing *)

Section Completion.

Context (w : world).
Hypothesis Hcb : callback_fn w ≠ ForeignMethod.

Lemma should_stop_idle s : is_stopped s = false → should_stop w s = Ok false.
Proof.
  intros Hflag. unfold should_stop. destruct (callback_fn w); try done.
  by rewrite Hflag.
Qed.

(** A worker step brings its future nearer to its end. *)
Lemma worker_progress b s f :
  is_stopped s = false → futures s !! b = Some f →
  (f = Pending → can_start b (futures s) = true) →
  ∃ f', futures (worker_step w b s) = <[b := f']> (futures s)
        ∧ work_left f' ≤ work_left f - 1
        ∧ f' ≠ Pending ∧ (f ≠ Cancelled → f' ≠ Cancelled)
        ∧ pc (worker_step w b s) = pc s
        ∧ is_stopped (worker_step w b s) = false.
Proof.
  intros Hflag Hb Hstart. pose proof (should_stop_idle s Hflag) as Hstop.
  unfold worker_step. rewrite Hb.
  destruct f as [|retries [|]| |]; simpl.
  - rewrite Hstart, Hstop by done.
    eexists; repeat split; simpl; try done; unfold MAX_RETRIES; lia.
  - eexists; repeat split; simpl; try done; lia.
  - destruct (retries <? MAX_RETRIES) eqn:Hlt.
    + apply Nat.ltb_lt in Hlt.
      destruct (graph_get w b retries) as [code value text|description];
        [destruct (code =? 200)|];
        eexists; repeat split; simpl; try done; lia.
    + eexists; repeat split; simpl; try done; lia.
  - exists Done. rewrite list_insert_id by done. by repeat split.
  - exists Cancelled. rewrite list_insert_id by done. by repeat split.
Qed.

Lemma worker_finishes b n : ∀ s f,
  is_stopped s = false → futures s !! b = Some f →
  (f = Pending → can_start b (futures s) = true) →
  f ≠ Cancelled → work_left f ≤ n →
  futures (run_from w s (replicate n (Worker b))) = <[b := Done]> (futures s)
  ∧ pc (run_from w s (replicate n (Worker b))) = pc s
  ∧ is_stopped (run_from w s (replicate n (Worker b))) = false.
Proof.
  induction n as [|n IH]; intros s f Hflag Hb Hstart Hnc Hleft.
  - simpl. destruct f as [|? [|]| |]; simpl in Hleft; try lia; try done.
    by rewrite list_insert_id.
  - simpl.
    destruct (worker_progress b s f Hflag Hb Hstart)
      as (f' & Hf' & Hless & Hnp & Hnc' & Hpc & Hflag').
    destruct (IH (worker_step w b s) f') as (Hfut & Hpc' & Hflag''); try done.
    + rewrite Hf'. apply list_lookup_insert_eq. by eapply lookup_lt_Some.
    + by apply Hnc'.
    + lia.
    + rewrite Hfut, Hf', list_insert_insert_eq, Hpc'. done.
Qed.


(** What a step of the main thread does when nobody has pressed Stop. *)
Lemma main_step_idle s :
  is_stopped s = false →
  is_stopped (main_step w s) = false
  ∧ email_data (main_step w s) = email_data s
  ∧ match pc s with
    | AtStart => pc (main_step w s) = GetToken ∧ futures (main_step w s) = futures s
    | GetToken =>
        has_token w = true →
        pc (main_step w s) = AfterToken ∧ futures (main_step w s) = futures s
    | AfterToken =>
        pc (main_step w s) = CountEmails ∧ futures (main_step w s) = futures s
    | CountEmails =>
        pc (main_step w s) = Submitting 0 ∧ futures (main_step w s) = futures s
    | Submitting k =>
        if k <? total_batches w
        then pc (main_step w s) = Submitting (S k)
             ∧ futures (main_step w s) = futures s ++ [Pending]
        else pc (main_step w s) = AsCompleted 0
             ∧ futures (main_step w s) = futures s
    | AsCompleted seen =>
        Forall (fun f => f = Done) (futures s) →
        futures (main_step w s) = futures s
        ∧ pc (main_step w s)
          = if seen <? length (futures s) then AsCompleted (S seen)
            else Leaving false
    | Leaving returning =>
        Forall (fun f => f = Done) (futures s) →
        futures (main_step w s) = futures s
        ∧ pc (main_step w s) = if returning then Returned else Final
    | Final =>
        pc (main_step w s) = Returned
        ∧ Aggregate (email_data s) ∈ trace (main_step w s)
    | Returned | Raised _ => True
    end.
Proof.
  intros Hflag. pose proof (should_stop_idle s Hflag) as Hstop.
  unfold main_step, has_token. rewrite Hstop.
  destruct (pc s) as [| | | |k|seen|returning| | |] eqn:Hpc; simpl;
    rewrite ?Hpc; try done.
  - by destruct (access_token w) as [[|c t]|].
  - destruct (k <? total_batches w); simpl; done.
  - destruct (seen <? length (futures s)) eqn:Hseen; simpl; [|done].
    destruct (seen <? length (filter _ (futures s))) eqn:Hseen'; simpl;
      [done|].
    split; [done|]. split; [done|]. intros Hdone.
    destruct (filter_settled_done _ Hdone) as [Hfilter _].
    rewrite Hfilter in Hseen'. congruence.
  - destruct (forallb settled (futures s)) eqn:Hall; simpl.
    + done.
    + split; [done|]. split; [done|]. intros Hdone.
      destruct (filter_settled_done _ Hdone) as [_ Hall']. congruence.
  - repeat split; try done.
    apply elem_of_app. right. right. apply final_events_head.
Qed.


Hypothesis Htoken : has_token w = true.

Lemma run_from_cons s a schedule :
  run_from w s (a :: schedule) = run_from w (step w a s) schedule.
Proof. reflexivity. Qed.

Lemma run_from_nil s : run_from w s [] = s.
Proof. reflexivity. Qed.

Lemma flat_map_seq_S {A : Type} (f : nat → list A) k j :
  flat_map f (seq k (S j)) = f k ++ flat_map f (seq (S k) j).
Proof. reflexivity. Qed.

Lemma start_up :
  pc (run w (replicate 4 Main)) = Submitting 0
  ∧ futures (run w (replicate 4 Main)) = []
  ∧ is_stopped (run w (replicate 4 Main)) = false.
Proof.
  unfold run. change (replicate 4 Main) with [Main; Main; Main; Main].
  rewrite !run_from_cons, run_from_nil. cbn [step].
  destruct (main_step_idle initial eq_refl) as (H1 & _ & Hpc1 & Hf1).
  simpl in Hpc1, Hf1.
  destruct (main_step_idle _ H1) as (H2 & _ & Hs2). rewrite Hpc1 in Hs2.
  destruct (Hs2 Htoken) as [Hpc2 Hf2]. rewrite Hf1 in Hf2.
  destruct (main_step_idle _ H2) as (H3 & _ & Hs3). rewrite Hpc2 in Hs3.
  destruct Hs3 as [Hpc3 Hf3]. rewrite Hf2 in Hf3.
  destruct (main_step_idle _ H3) as (H4 & _ & Hs4). rewrite Hpc3 in Hs4.
  destruct Hs4 as [Hpc4 Hf4]. rewrite Hf3 in Hf4. done.
Qed.

Lemma can_start_next k :
  can_start k (replicate k Done ++ [Pending]) = true.
Proof.
  unfold can_start. apply andb_true_iff. split.
  - assert (filter (fun f => is_running f = true) (replicate k Done ++ [Pending])
            = []) as ->; [|done].
    rewrite filter_app. induction k as [|k IH]; [done|].
    simpl. by rewrite filter_cons.
  - rewrite take_app_length' by (by rewrite length_replicate).
    by induction k.
Qed.

(** A batch is submitted and fetched to its end. *)
Lemma submit_and_fetch k s :
  pc s = Submitting k → k < total_batches w →
  futures s = replicate k Done → is_stopped s = false →
  pc (run_from w s (Main :: replicate 8 (Worker k))) = Submitting (S k)
  ∧ futures (run_from w s (Main :: replicate 8 (Worker k)))
    = replicate (S k) Done
  ∧ is_stopped (run_from w s (Main :: replicate 8 (Worker k))) = false.
Proof.
  intros Hpc Hk Hfut Hflag.
  rewrite run_from_cons. cbn [step].
  destruct (main_step_idle s Hflag) as (Hflag' & _ & Hs). rewrite Hpc in Hs.
  apply Nat.ltb_lt in Hk. rewrite Hk in Hs. destruct Hs as [Hpc' Hfut'].
  rewrite Hfut in Hfut'.
  destruct (worker_finishes k 8 (main_step w s) Pending) as (Hf & Hp & Hfl);
    try done.
  - rewrite Hfut'. rewrite lookup_app_r by (by rewrite length_replicate).
    by rewrite length_replicate, Nat.sub_diag.
  - intros _. rewrite Hfut'. apply can_start_next.
  - rewrite Hf, Hp, Hfut'. repeat split; try done.
    rewrite insert_app_r_alt by (by rewrite length_replicate).
    rewrite length_replicate, Nat.sub_diag. simpl.
    by rewrite <- replicate_S_end.
Qed.

Lemma all_batches j : ∀ k s,
  pc s = Submitting k → k + j ≤ total_batches w →
  futures s = replicate k Done → is_stopped s = false →
  pc (run_from w s
        (flat_map (fun b => Main :: replicate 8 (Worker b)) (seq k j)))
  = Submitting (k + j)
  ∧ futures (run_from w s
               (flat_map (fun b => Main :: replicate 8 (Worker b)) (seq k j)))
    = replicate (k + j) Done
  ∧ is_stopped (run_from w s
                  (flat_map (fun b => Main :: replicate 8 (Worker b))
                            (seq k j)))
    = false.
Proof.
  induction j as [|j IH]; intros k s Hpc Hle Hfut Hflag.
  - simpl. by rewrite Nat.add_0_r.
  - rewrite flat_map_seq_S, run_from_app.
    destruct (submit_and_fetch k s) as (Hpc' & Hfut' & Hflag'); try done; [lia|].
    destruct (IH (S k) _ Hpc') as (Hpc'' & Hfut'' & Hflag''); try done; [lia|].
    replace (k + S j) with (S k + j) by lia. done.
Qed.

Lemma as_completed_loop j : ∀ seen s,
  pc s = AsCompleted seen → seen + j ≤ length (futures s) →
  Forall (fun f => f = Done) (futures s) → is_stopped s = false →
  pc (run_from w s (replicate j Main)) = AsCompleted (seen + j)
  ∧ futures (run_from w s (replicate j Main)) = futures s
  ∧ email_data (run_from w s (replicate j Main)) = email_data s
  ∧ is_stopped (run_from w s (replicate j Main)) = false.
Proof.
  induction j as [|j IH]; intros seen s Hpc Hle Hdone Hflag.
  - simpl. by rewrite Nat.add_0_r.
  - cbn [replicate]. rewrite run_from_cons. cbn [step].
    destruct (main_step_idle s Hflag) as (Hflag' & Hdata & Hs).
    rewrite Hpc in Hs. destruct (Hs Hdone) as [Hfut Hpc'].
    assert ((seen <? length (futures s)) = true) as Hlt
      by (apply Nat.ltb_lt; lia).
    rewrite Hlt in Hpc'.
    destruct (IH (S seen) _ Hpc') as (Hpc'' & Hfut'' & Hdata'' & Hflag'');
      try done; rewrite ?Hfut; try done; [lia|].
    rewrite Hpc'', Hfut'', Hdata'', Hfut, Hdata.
    replace (seen + S j) with (S seen + j) by lia. done.
Qed.

(** With every batch fetched, the main thread reaches the aggregation. *)
Lemma wind_up s :
  pc s = Submitting (total_batches w) →
  futures s = replicate (total_batches w) Done → is_stopped s = false →
  pc (run_from w s ((Main :: replicate (total_batches w) Main)
                    ++ [Main; Main; Main])) = Returned
  ∧ Aggregate (email_data s)
    ∈ trace (run_from w s ((Main :: replicate (total_batches w) Main)
                           ++ [Main; Main; Main])).
Proof.
  intros Hpc Hfut Hflag. rewrite run_from_app, run_from_cons. cbn [step].
  assert (Forall (fun f => f = Done) (futures s)) as Hdone
    by (rewrite Hfut; by apply Forall_replicate).
  destruct (main_step_idle s Hflag) as (Hflag1 & Hdata1 & Hs1).
  rewrite Hpc, Nat.ltb_irrefl in Hs1. destruct Hs1 as [Hpc1 Hfut1].
  destruct (as_completed_loop (total_batches w) 0 _ Hpc1)
    as (Hpc2 & Hfut2 & Hdata2 & Hflag2); try done.
  { by rewrite Hfut1, Hfut, length_replicate. }
  { by rewrite Hfut1. }
  rewrite Hfut1 in Hfut2. rewrite Hdata1 in Hdata2. simpl in Hpc2.
  set (s2 := run_from w (main_step w s) (replicate (total_batches w) Main)) in *.
  rewrite !run_from_cons, run_from_nil. cbn [step].
  destruct (main_step_idle s2 Hflag2) as (Hflag3 & Hdata3 & Hs3).
  rewrite Hpc2 in Hs3. rewrite Hfut2 in Hs3. destruct (Hs3 Hdone) as [Hfut3 Hpc3].
  rewrite Hfut, length_replicate, Nat.ltb_irrefl in Hpc3.
  destruct (main_step_idle _ Hflag3) as (Hflag4 & Hdata4 & Hs4).
  rewrite Hpc3, Hfut3 in Hs4. destruct (Hs4 Hdone) as [Hfut4 Hpc4].
  destruct (main_step_idle _ Hflag4) as (Hflag5 & Hdata5 & Hs5).
  rewrite Hpc4 in Hs5. destruct Hs5 as [Hpc5 Hagg].
  split; [done|]. by rewrite Hdata4, Hdata3, Hdata2 in Hagg.
Qed.

(** Left alone, the run goes through every batch and aggregates. *)
Lemma run_to_completion :
  pc (run w (completing_schedule (total_batches w))) = Returned
  ∧ ∃ data,
      Aggregate data ∈ trace (run w (completing_schedule (total_batches w))).
Proof.
  unfold completing_schedule, run. rewrite !run_from_app.
  destruct start_up as (Hpc & Hfut & Hflag). unfold run in *.
  destruct (all_batches (total_batches w) 0 _ Hpc) as (Hpc' & Hfut' & Hflag');
    try done.
  simpl in Hpc', Hfut'.
  destruct (wind_up _ Hpc' Hfut' Hflag') as [Hret Hagg].
  rewrite run_from_app in Hret, Hagg. split; [done|]. by eexists.
Qed.

End Completion.




Example flaky_run_aggregates_the_rest :
  email_data (run RunExamples.flaky RunExamples.to_the_end)
  = map email_info (RunExamples.page 0 ++ RunExamples.page 2)
  ∧ existsb is_aggregate (trace (run RunExamples.flaky RunExamples.to_the_end))
    = true.
Proof. split; vm_compute; reflexivity. Qed.


(** * Further properties of the code *)

(** ** Normalised addresses *)

Section Normalize.

Lemma lower_char_idem c : Str.lower_char (Str.lower_char c) = Str.lower_char c.
Proof. by destruct c as [[] [] [] [] [] [] [] []]. Qed.

Lemma isspace_lower_char c : Str.isspace (Str.lower_char c) = Str.isspace c.
Proof. by destruct c as [[] [] [] [] [] [] [] []]. Qed.

Lemma lower_idem s : Str.lower (Str.lower s) = Str.lower s.
Proof. induction s as [|c s IH]; simpl; [done|]. by rewrite lower_char_idem, IH. Qed.

Lemma lstrip_lower s : Str.lstrip (Str.lower s) = Str.lower (Str.lstrip s).
Proof.
  induction s as [|c s IH]; simpl; [done|].
  rewrite isspace_lower_char. by destruct (Str.isspace c).
Qed.

Lemma rstrip_lower s : Str.rstrip (Str.lower s) = Str.lower (Str.rstrip s).
Proof.
  induction s as [|c s IH]; simpl; [done|].
  rewrite IH, isspace_lower_char.
  destruct (Str.rstrip s); simpl; [|done]. by destruct (Str.isspace c).
Qed.

Lemma rstrip_idem s : Str.rstrip (Str.rstrip s) = Str.rstrip s.
Proof.
  induction s as [|c s IH]; simpl; [done|].
  destruct (Str.rstrip s) as [|c' r] eqn:E.
  - destruct (Str.isspace c) eqn:Ec; simpl; [done|]. by rewrite Ec.
  - change (Str.rstrip (String c (String c' r))) with
      (match Str.rstrip (String c' r) with
       | EmptyString => if Str.isspace c then EmptyString else String c EmptyString
       | r0 => String c r0
       end).
    rewrite IH. done.
Qed.

Lemma lstrip_head s :
  Str.lstrip s = "" ∨ ∃ c s', Str.lstrip s = String c s' ∧ Str.isspace c = false.
Proof.
  induction s as [|c s IH]; simpl; [by left|].
  destruct (Str.isspace c) eqn:E; [done|]. right. by exists c, s.
Qed.

Lemma lstrip_rstrip_lstrip s :
  Str.lstrip (Str.rstrip (Str.lstrip s)) = Str.rstrip (Str.lstrip s).
Proof.
  destruct (lstrip_head s) as [->|(c & s' & -> & Hc)]; [done|].
  simpl. destruct (Str.rstrip s'); rewrite ?Hc; simpl; by rewrite ?Hc.
Qed.

Lemma strip_idem s : Str.strip (Str.strip s) = Str.strip s.
Proof. unfold Str.strip. by rewrite lstrip_rstrip_lstrip, rstrip_idem. Qed.

Lemma strip_lower s : Str.strip (Str.lower s) = Str.lower (Str.strip s).
Proof. unfold Str.strip. by rewrite lstrip_lower, rstrip_lower. Qed.

End Normalize.

(** X1. Normalising an address twice is the same as normalising it once: a
    normalised address is left as it is by [strip], by [lower] and by the
    normalisation itself. *)
Theorem normalize_idempotent (address : string) :
  normalize (normalize address) = normalize address
  ∧ Str.strip (normalize address) = normalize address
  ∧ Str.lower (normalize address) = normalize address.
Proof.
  unfold normalize.
  assert (Str.strip (Str.lower (Str.strip address))
          = Str.lower (Str.strip address)) as Hstrip
    by (by rewrite strip_lower, strip_idem).
  split_and!; [by rewrite Hstrip, lower_idem|done|apply lower_idem].
Qed.

(** ** The domain of an address *)

Section Domain.

Lemma last_field_no_separator c s : Str.contains c (Str.last_field c s) = false.
Proof.
  induction s as [|c' s IH]; simpl; [done|].
  destruct (Str.contains c s) eqn:E; [done|].
  destruct (Ascii.eqb c' c) eqn:Ec; [done|]. simpl. by rewrite Ec, E.
Qed.

Lemma last_field_split c s :
  Str.contains c s = true → ∃ p, s = p +:+ String c (Str.last_field c s).
Proof.
  induction s as [|c' s IH]; simpl; [done|].
  destruct (Str.contains c s) eqn:E.
  - intros _. destruct IH as [p Hp]; [done|]. exists (String c' p).
    change (String c' s = String c' (p +:+ String c (Str.last_field c s))).
    congruence.
  - rewrite orb_false_r. intros Hc. rewrite Hc.
    apply Ascii.eqb_eq in Hc as ->. by exists "".
Qed.

End Domain.

(** X2. The company of a recipient is what follows the last [@] of the
    address: it contains no [@] itself, the address is some local part, an
    [@] and the company; an address without [@] gets the company
    [unknown]. *)
Theorem domain_of_is_last_part (recipient : string) :
  Str.contains "@" (domain_of recipient) = false
  ∧ (Str.contains "@" recipient = true →
     ∃ local_part, recipient = local_part +:+ "@" +:+ domain_of recipient)
  ∧ (Str.contains "@" recipient = false → domain_of recipient = "unknown").
Proof.
  unfold domain_of. split_and!.
  - destruct (Str.contains "@" recipient); [apply last_field_no_separator|done].
  - intros H. rewrite H. by apply last_field_split.
  - by intros ->.
Qed.
(** ** Timestamps that are accepted *)

Section Timestamps.

Import Strptime.

Local Open Scope N_scope.



















End Timestamps.

Section Accepted.

Import Strptime.



Lemma takes_one p :
  (∀ c, p c = true → timestamp_char c = true) → takes (one p) 1 1.
Proof.
  intros Hp s v r. unfold one. destruct s as [|a s]; [by intros ?%elem_of_nil|].
  destruct (p a) eqn:E; [|by intros ?%elem_of_nil].
  intros [= -> ->]%list_elem_of_singleton. simpl. split_and!; [lia..|].
  intros c [->%Ascii.eqb_eq| ?]%orb_true_iff; [left; by apply Hp|by right].
Qed.

Lemma takes_two p1 p2 :
  (∀ c, p1 c = true → timestamp_char c = true) →
  (∀ c, p2 c = true → timestamp_char c = true) → takes (two p1 p2) 2 2.
Proof.
  intros Hp1 Hp2 s v r. unfold two.
  destruct s as [|a [|b s]]; [by intros ?%elem_of_nil..|].
  destruct (p1 a && p2 b) eqn:E; [|by intros ?%elem_of_nil].
  apply andb_true_iff in E as [E1 E2].
  intros [= -> ->]%list_elem_of_singleton. simpl. split_and!; [lia..|].
  intros c [->%Ascii.eqb_eq|[->%Ascii.eqb_eq| ?]%orb_true_iff]%orb_true_iff;
    [left; by apply Hp1|left; by apply Hp2|by right].
Qed.

Lemma takes_weaken {A} (p : parser A) lo hi lo' hi' :
  lo' ≤ lo → hi ≤ hi' → takes p lo hi → takes p lo' hi'.
Proof. intros ? ? Hp s v r Hin. destruct (Hp s v r Hin) as (? & ? & ?). split_and!; [lia..|done]. Qed.

Lemma takes_alt {A} (ps : list (parser A)) lo hi :
  Forall (fun p => takes p lo hi) ps → takes (alt ps) lo hi.
Proof.
  intros Hps s v r. unfold alt. intros (p & Hp & Hin)%list_elem_of_In%in_flat_map.
  rewrite Forall_forall in Hps. apply (Hps p ltac:(by apply list_elem_of_In) s v r).
  by apply list_elem_of_In.
Qed.

Ltac pred_ok :=
  let c := fresh "c" in
  intros c; destruct c as [[] [] [] [] [] [] [] []]; vm_compute; congruence.

Lemma takes_dir_Y : takes dir_Y 4 4.
Proof.
  intros s v r. unfold dir_Y.
  destruct s as [|a [|b [|c [|d s]]]]; [by intros ?%elem_of_nil..|].
  destruct (is_digit a && is_digit b && is_digit c && is_digit d) eqn:E;
    [|by intros ?%elem_of_nil].
  apply andb_true_iff in E as [[[Ea Eb]%andb_true_iff Ec]%andb_true_iff Ed].
  intros [= -> ->]%list_elem_of_singleton. simpl. split_and!; [lia..|].
  assert (∀ x, is_digit x = true → timestamp_char x = true) as Hd
    by (unfold timestamp_char; by intros x ->).
  intros x H. repeat (apply orb_true_iff in H as [->%Ascii.eqb_eq|H]; [left; by apply Hd|]).
  by right.
Qed.

Lemma takes_lit a :
  (∀ c, Str.lower_char c = Str.lower_char a → timestamp_char c = true) →
  takes (lit a) 1 1.
Proof.
  intros Ha s v r. unfold lit. destruct s as [|c s]; [by intros ?%elem_of_nil|].
  destruct (Ascii.eqb (Str.lower_char c) (Str.lower_char a)) eqn:E;
    [|by intros ?%elem_of_nil].
  apply Ascii.eqb_eq in E.
  intros [= -> ->]%list_elem_of_singleton. simpl. split_and!; [lia..|].
  intros x [->%Ascii.eqb_eq| ?]%orb_true_iff; [left; by apply Ha|by right].
Qed.

Lemma takes_dir_m : takes dir_m 1 2.
Proof.
  apply takes_alt. repeat apply List.Forall_cons; try apply List.Forall_nil;
    (eapply takes_weaken; [| |first [apply takes_two|apply takes_one]]);
    try lia; pred_ok.
Qed.

Lemma takes_dir_d : takes dir_d 1 2.
Proof.
  apply takes_alt. repeat apply List.Forall_cons; try apply List.Forall_nil;
    (eapply takes_weaken; [| |first [apply takes_two|apply takes_one]]);
    try lia; pred_ok.
Qed.

Lemma takes_dir_H : takes dir_H 1 2.
Proof.
  apply takes_alt. repeat apply List.Forall_cons; try apply List.Forall_nil;
    (eapply takes_weaken; [| |first [apply takes_two|apply takes_one]]);
    try lia; pred_ok.
Qed.

Lemma takes_dir_M : takes dir_M 1 2.
Proof.
  apply takes_alt. repeat apply List.Forall_cons; try apply List.Forall_nil;
    (eapply takes_weaken; [| |first [apply takes_two|apply takes_one]]);
    try lia; pred_ok.
Qed.

Lemma takes_dir_S : takes dir_S 1 2.
Proof.
  apply takes_alt. repeat apply List.Forall_cons; try apply List.Forall_nil;
    (eapply takes_weaken; [| |first [apply takes_two|apply takes_one]]);
    try lia; pred_ok.
Qed.

Lemma takes_matches : takes matches 15 20.
Proof.
  intros s dt r. unfold matches.
  intros ([yy s1] & H & (? & ? & ?)%takes_dir_Y)%list_elem_of_bind.
  apply list_elem_of_bind in H as ([[] s2] & H & (? & ? & ?)%(takes_lit "-")); [|pred_ok].
  apply list_elem_of_bind in H as ([mo s3] & H & (? & ? & ?)%takes_dir_m).
  apply list_elem_of_bind in H as ([[] s4] & H & (? & ? & ?)%(takes_lit "-")); [|pred_ok].
  apply list_elem_of_bind in H as ([dd s5] & H & (? & ? & ?)%takes_dir_d).
  apply list_elem_of_bind in H as ([[] s6] & H & (? & ? & ?)%(takes_lit "T")); [|pred_ok].
  apply list_elem_of_bind in H as ([hh s7] & H & (? & ? & ?)%takes_dir_H).
  apply list_elem_of_bind in H as ([[] s8] & H & (? & ? & ?)%(takes_lit ":")); [|pred_ok].
  apply list_elem_of_bind in H as ([mi s9] & H & (? & ? & ?)%takes_dir_M).
  apply list_elem_of_bind in H as ([[] s10] & H & (? & ? & ?)%(takes_lit ":")); [|pred_ok].
  apply list_elem_of_bind in H as ([ss s11] & H & (? & ? & ?)%takes_dir_S).
  apply list_elem_of_bind in H as ([[] s12] & H & (? & ? & ?)%(takes_lit "Z")); [|pred_ok].
  apply list_elem_of_singleton in H as [= -> ->].
  split_and!; [lia..|]. intros c Hc.
  repeat match goal with
         | H : ∀ c, Str.contains c ?s = true → _, Hc : Str.contains _ ?s = true |- _ =>
             apply H in Hc as [?|Hc]; [by left|]; clear H
         end.
  by right.
Qed.

Lemma accepted_matches s dt :
  strptime s = Ok dt → (dt, "") ∈ matches s.
Proof.
  unfold strptime. destruct (matches s) as [|[dt' rest] l]; [done|].
  destruct (decide (rest = "")) as [->|]; [|done].
  destruct (valid dt'); [|done]. intros [= ->]. by left.
Qed.

End Accepted.


(** X5. A timestamp that [format_date_for_airtable] accepts has between 15
    and 20 characters, each of them a digit, [-], [:], [T], [Z] (in either
    case) or a space: one with a fractional part or a numeric offset is
    always rejected. *)
Theorem accepted_timestamp_shape (date_string d : string) :
  format_date_for_airtable date_string = Some d →
  15 ≤ String.length date_string ≤ 20
  ∧ (∀ c, Str.contains c date_string = true → timestamp_char c = true)
  ∧ Str.contains "." date_string = false
  ∧ Str.contains "+" date_string = false.
Proof.
  unfold format_date_for_airtable.
  destruct (Strptime.strptime date_string) as [dt|] eqn:E; [|done].
  intros _. apply accepted_matches, takes_matches in E as (Hlen & _ & Hchars).
  simpl in Hlen.
  assert (∀ c, Str.contains c date_string = true → timestamp_char c = true)
    as Hall.
  { intros c Hc. by destruct (Hchars c Hc). }
  split_and!; [lia..|done| |].
  - destruct (Str.contains "." date_string) eqn:Hc; [|done].
    by apply Hall in Hc.
  - destruct (Str.contains "+" date_string) eqn:Hc; [|done].
    by apply Hall in Hc.
Qed.

Lemma accepted_timestamp_shape_witness :
  15 ≤ String.length "2024-03-07T09:15:00Z" ≤ 20
  ∧ (∀ c, Str.contains c "2024-03-07T09:15:00Z" = true →
          timestamp_char c = true)
  ∧ Str.contains "." "2024-03-07T09:15:00Z" = false
  ∧ Str.contains "+" "2024-03-07T09:15:00Z" = false.
Proof.
  apply (accepted_timestamp_shape "2024-03-07T09:15:00Z" "2024/03/07").
  reflexivity.
Defined.
(** ** Display names *)

Section Names.

Lemma extract_emails_lookup data a : extract_emails data !! a = name_in data a.
Proof.
  unfold extract_emails, name_in. fold (all_recipients data).
  induction (all_recipients data) as [|r rs IH] using rev_ind; [done|].
  rewrite foldl_app, filter_app, filter_cons, filter_nil. simpl.
  destruct (decide (address r = a)) as [<-|Hne].
  - by rewrite lookup_insert_eq, last_snoc.
  - by rewrite lookup_insert_ne, app_nil_r.
Qed.

Lemma recipients_of_email_info msg :
  recipients_of (email_info msg) = address <$> all_recipients msg.
Proof.
  unfold recipients_of, all_recipients. simpl. by rewrite !fmap_app.
Qed.

Lemma name_in_is_Some msg a :
  is_Some (name_in msg a) ↔ a ∈ address <$> all_recipients msg.
Proof.
  unfold name_in. rewrite fmap_is_Some, list_elem_of_fmap.
  split.
  - intros [r Hr]. apply last_Some_elem_of, list_elem_of_filter in Hr as [<- Hr].
    by exists r.
  - intros (r & -> & Hr).
    assert (r ∈ filter (fun r' => address r' = address r) (all_recipients msg))
      as Hin by (by apply list_elem_of_filter).
    destruct (filter _ (all_recipients msg)) as [|x l] using rev_ind;
      [by apply elem_of_nil in Hin|].
    rewrite last_snoc. by eexists.
Qed.

Lemma contributing_email_info r msgs :
  contributing r (email_info <$> msgs)
  = email_info <$> filter (fun msg => contributes r (email_info msg)) msgs.
Proof.
  unfold contributing. induction msgs as [|msg msgs IH]; [done|].
  rewrite fmap_cons, !filter_cons, IH.
  by destruct (decide (contributes r (email_info msg))).
Qed.

End Names.

(** X6. [extract_emails] maps every address of a message (in to, cc or bcc)
    to a display name, and to no other address; when an address occurs
    several times, the name of its last entry is the one kept. *)
Theorem extract_emails_keeps_last (data : message) (a : string) :
  extract_emails data !! a
  = name <$> last (filter (fun r => address r = a) (all_recipients data))
  ∧ (is_Some (extract_emails data !! a) ↔ a ∈ address <$> all_recipients data).
Proof.
  split; [apply extract_emails_lookup|].
  rewrite extract_emails_lookup. apply name_in_is_Some.
Qed.

(** X7. In the aggregate of fetched messages, the [Name] of a recipient is
    the display name that the first message addressed to it gives it (the
    name of its last entry there): the default empty name is never used. *)
Theorem name_of_first_message (msgs : list message)
    (m : gmap string summary) (r : string) (s : summary) :
  aggregate_email_data (email_info <$> msgs) = Ok m →
  m !! r = Some s →
  ∃ msg, head (filter (fun msg => contributes r (email_info msg)) msgs) = Some msg
         ∧ name_in msg r = Some (Name s).
Proof.
  intros Hagg Hs.
  destruct (aggregate_invariant _ _ Hagg r) as [Hdesc Hname].
  rewrite Hs in Hdesc. destruct Hdesc as (Hne & _).
  rewrite (Hname s Hs). unfold first_name.
  rewrite contributing_email_info in Hne |- *.
  destruct (filter _ msgs) as [|msg rest] eqn:Hf; [done|].
  exists msg. split; [done|]. simpl.
  assert (msg ∈ filter (fun msg => contributes r (email_info msg)) msgs) as Hin
    by (rewrite Hf; by left).
  apply list_elem_of_filter in Hin as [Hc _].
  unfold contributes in Hc. rewrite recipients_of_email_info in Hc.
  apply name_in_is_Some in Hc as [n Hn].
  unfold display_name. simpl. by rewrite extract_emails_lookup, Hn.
Qed.

Lemma name_of_first_message_witness :
  ∃ msg,
    head (filter (fun msg => contributes "alice@example.com" (email_info msg))
                 (RunExamples.page 0)) = Some msg
    ∧ name_in msg "alice@example.com"
      = Some (Name {| Recipient_Email := "alice@example.com";
                      Company_Management := "example.com";
                      Total_Mails_Sent := 1;
                      Name := "Alice";
                      Last_Interacted_Date := Some "2024/03/07" |}).
Proof.
  apply (name_of_first_message (RunExamples.page 0)
           {[ "alice@example.com" :=
                {| Recipient_Email := "alice@example.com";
                   Company_Management := "example.com";
                   Total_Mails_Sent := 1;
                   Name := "Alice";
                   Last_Interacted_Date := Some "2024/03/07" |} ]});
    vm_compute; reflexivity.
Defined.
(** ** The entries of the aggregate *)

Section Entries.

Lemma contributing_nonempty r l :
  contributing r l ≠ [] ↔ ∃ e, e ∈ l ∧ r ∈ recipients_of e.
Proof.
  unfold contributing. split.
  - destruct (filter (contributes r) l) as [|e rest] eqn:Hf; [done|].
    intros _. exists e.
    assert (e ∈ filter (contributes r) l) as Hin by (rewrite Hf; by left).
    apply list_elem_of_filter in Hin as [? ?]. done.
  - intros (e & He & Hr) Hnil.
    assert (e ∈ filter (contributes r) l) as Hin by (by apply list_elem_of_filter).
    rewrite Hnil in Hin. by apply elem_of_nil in Hin.
Qed.

Lemma count_present r xs : r ∈ xs → 1 ≤ count r xs.
Proof.
  intros Hin. unfold count.
  assert (r ∈ filter (fun x => x = r) xs) as Hf by (by apply list_elem_of_filter).
  destruct (filter _ xs); [by apply elem_of_nil in Hf|simpl; lia].
Qed.

Lemma total_occurrences_present r l e :
  e ∈ l → r ∈ recipients_of e → 1 ≤ total_occurrences r l.
Proof.
  intros He Hr. unfold total_occurrences.
  pose proof (sum_list_with_in e (occurrences r) l He) as Hle.
  pose proof (count_present r _ Hr) as Hc. rewrite count_recipients in Hc. lia.
Qed.

End Entries.

(** X8. The aggregate has an entry for an address exactly when some record
    names it in to, cc or bcc. The entry carries the address itself, its
    company, a total of at least one, a date, and the display name that the
    first such record gives the address. *)
Theorem aggregate_entries (email_data : list email) (m : gmap string summary)
    (r : string) :
  aggregate_email_data email_data = Ok m →
  (is_Some (m !! r) ↔ ∃ e, e ∈ email_data ∧ r ∈ recipients_of e)
  ∧ ∀ s, m !! r = Some s →
      Recipient_Email s = r
      ∧ Company_Management s = domain_of r
      ∧ 1 ≤ Total_Mails_Sent s
      ∧ is_Some (Last_Interacted_Date s)
      ∧ Name s = first_name r email_data.
Proof.
  intros Hagg. destruct (aggregate_invariant _ _ Hagg r) as [Hdesc Hname].
  split.
  - rewrite <- contributing_nonempty. destruct (m !! r) as [s|]; simpl in Hdesc.
    + destruct Hdesc as (Hne & _). split; [done|by eexists].
    + split; [by intros [? ?]|done].
  - intros s Hs. rewrite Hs in Hdesc.
    destruct Hdesc as (Hne & Hr & Hc & Ht & d & Hd & _).
    apply contributing_nonempty in Hne as (e & He & Hin).
    split_and!; [done|done| |by eexists|by apply Hname].
    rewrite Ht. by eapply total_occurrences_present.
Qed.

Lemma aggregate_entries_witness :
  (is_Some (sample_aggregate !! AggExamples.bob)
   ↔ ∃ e, e ∈ [AggExamples.e1; AggExamples.e2]
          ∧ AggExamples.bob ∈ recipients_of e)
  ∧ ∀ s, sample_aggregate !! AggExamples.bob = Some s →
      Recipient_Email s = AggExamples.bob
      ∧ Company_Management s = domain_of AggExamples.bob
      ∧ 1 ≤ Total_Mails_Sent s
      ∧ is_Some (Last_Interacted_Date s)
      ∧ Name s = first_name AggExamples.bob [AggExamples.e1; AggExamples.e2].
Proof.
  apply (aggregate_entries [AggExamples.e1; AggExamples.e2]).
  vm_compute. reflexivity.
Defined.

(** ** Nothing is lost, nothing is counted twice *)

Section Conservation.

Lemma values_insert_fresh (m : gmap string summary) r s :
  m !! r = None → values (<[r := s]> m) ≡ₚ s :: values m.
Proof.
  intros Hr. unfold values.
  by rewrite (map_to_list_insert m r s Hr).
Qed.

Lemma grand_total_insert_fresh m r s :
  m !! r = None → grand_total (<[r := s]> m) = Total_Mails_Sent s + grand_total m.
Proof.
  intros Hr. unfold grand_total. by rewrite (values_insert_fresh m r s Hr).
Qed.

Lemma grand_total_insert m r s :
  grand_total (<[r := s]> m) + from_option Total_Mails_Sent 0 (m !! r)
  = grand_total m + Total_Mails_Sent s.
Proof.
  destruct (m !! r) as [s0|] eqn:Hr; simpl.
  - rewrite <- (insert_delete_id m r s0 Hr) at 2.
    rewrite <- (insert_delete_eq m r s).
    rewrite !grand_total_insert_fresh by apply lookup_delete_eq. lia.
  - rewrite grand_total_insert_fresh by done. lia.
Qed.

Lemma visit_grand_total e m r m' :
  visit e m r = Ok m' →
  grand_total m' = grand_total m + count r (recipients_of e).
Proof.
  rewrite visit_unfold. cbv zeta.
  destruct (py_max _ _) as [d|] eqn:Hd; [|done]. intros [= <-].
  pose proof (grand_total_insert m r
                (bump e r d (default (new_entry e r) (m !! r)))) as H.
  destruct (m !! r); simpl in *; lia.
Qed.

Lemma visit_all_grand_total e rs : ∀ m m',
  for_each (visit e) m rs = Ok m' →
  grand_total m'
  = grand_total m + sum_list_with (fun r => count r (recipients_of e)) rs.
Proof.
  induction rs as [|r rs IH]; intros m m'; simpl.
  - intros [= <-]. lia.
  - destruct (visit e m r) as [m1|] eqn:Hv; [|done]. simpl.
    intros Hrest. apply IH in Hrest. apply visit_grand_total in Hv. lia.
Qed.

Lemma sum_indicator (a : string) ds :
  NoDup ds → a ∈ ds →
  sum_list_with (fun r => if decide (a = r) then 1 else 0) ds = 1.
Proof.
  induction 1 as [|d ds Hd Hnd IH]; [by intros ?%elem_of_nil|].
  intros Hin. simpl. destruct (decide (a = d)) as [->|Hne].
  - assert (sum_list_with (fun r => if decide (d = r) then 1 else 0) ds = 0)
      as ->; [|done].
    clear IH Hnd Hin. induction ds as [|x ds IH]; [done|]. simpl.
    apply not_elem_of_cons in Hd as [? ?].
    rewrite decide_False by done. by apply IH.
  - apply elem_of_cons in Hin as [?|Hin]; [done|]. by rewrite IH.
Qed.

Lemma sum_list_with_add {A} (f g : A → nat) l :
  sum_list_with (fun x => f x + g x) l = sum_list_with f l + sum_list_with g l.
Proof. induction l as [|x l IH]; simpl; lia. Qed.

Lemma sum_list_with_pointwise {A} (f g : A → nat) l :
  (∀ x, f x = g x) → sum_list_with f l = sum_list_with g l.
Proof. intros H. induction l as [|x l IH]; simpl; [done|]. by rewrite H, IH. Qed.

Lemma sum_counts xs : ∀ ds,
  NoDup ds → (∀ x, x ∈ xs → x ∈ ds) →
  sum_list_with (fun r => count r xs) ds = length xs.
Proof.
  induction xs as [|a xs IH]; intros ds Hnd Hsub.
  - induction ds; [done|]. simpl. apply IHds. by apply NoDup_cons in Hnd as [_ ?].
    intros x ?%elem_of_nil. done.
  - rewrite (sum_list_with_pointwise _ (fun r => (if decide (a = r) then 1 else 0)
                                           + count r xs)).
    + rewrite sum_list_with_add, sum_indicator, IH; [done|done| |done|].
      * intros x Hx. apply Hsub. by right.
      * apply Hsub. by left.
    + intros r. unfold count. rewrite filter_cons.
      destruct (decide (a = r)); simpl; lia.
Qed.

Lemma fold_email_grand_total m e m' :
  fold_email m e = Ok m' →
  grand_total m' = grand_total m + length (recipients_of e).
Proof.
  unfold fold_email, py_set. intros H%visit_all_grand_total.
  rewrite H, sum_counts; [done|apply NoDup_remove_dups|].
  intros x. by rewrite elem_of_remove_dups.
Qed.

Lemma for_each_grand_total l : ∀ m m',
  for_each fold_email m l = Ok m' →
  grand_total m'
  = grand_total m + sum_list_with (fun e => length (recipients_of e)) l.
Proof.
  induction l as [|e l IH]; intros m m'; simpl.
  - intros [= <-]. lia.
  - destruct (fold_email m e) as [m1|] eqn:Hf; [|done]. simpl.
    intros Hrest. apply IH in Hrest. apply fold_email_grand_total in Hf. lia.
Qed.

End Conservation.

(** X9. The totals of the aggregate add up to the number of addressee
    entries of the records (to, cc and bcc together): no occurrence is
    lost and none is counted twice. The list that is returned has one
    entry for each distinct address. *)
Theorem aggregate_conserves (email_data : list email)
    (m : gmap string summary) :
  aggregate_email_data email_data = Ok m →
  sum_list_with Total_Mails_Sent (values m)
  = sum_list_with (fun e => length (to e) + length (cc e) + length (bcc e))
                  email_data
  ∧ length (values m)
    = length (remove_dups (flat_map recipients_of email_data)).
Proof.
  intros Hagg. split.
  - pose proof (for_each_grand_total _ _ _ Hagg) as H.
    unfold grand_total in H at 1. rewrite H.
    unfold grand_total, values. rewrite map_to_list_empty. simpl.
    apply sum_list_with_pointwise. intros e. unfold recipients_of.
    rewrite !length_app. lia.
  - unfold values. rewrite length_fmap, length_map_to_list.
    rewrite <- size_dom.
    rewrite <- (size_list_to_set (C := gset string)
                  (remove_dups (flat_map recipients_of email_data)))
      by apply NoDup_remove_dups.
    f_equal. apply set_eq. intros r.
    rewrite elem_of_dom, elem_of_list_to_set, elem_of_remove_dups.
    destruct (aggregate_invariant _ _ Hagg r) as [Hdesc _].
    assert (r ∈ flat_map recipients_of email_data
            ↔ ∃ e, e ∈ email_data ∧ r ∈ recipients_of e) as ->.
    { rewrite list_elem_of_In, in_flat_map.
      by setoid_rewrite list_elem_of_In. }
    rewrite <- contributing_nonempty.
    destruct (m !! r) as [s|]; simpl in Hdesc.
    + destruct Hdesc as (Hne & _). split; [done|by eexists].
    + split; [by intros [? ?]|done].
Qed.

Lemma aggregate_conserves_witness :
  sum_list_with Total_Mails_Sent (values sample_aggregate)
  = sum_list_with (fun e => length (to e) + length (cc e) + length (bcc e))
                  [AggExamples.e1; AggExamples.e2]
  ∧ length (values sample_aggregate)
    = length (remove_dups
                (flat_map recipients_of [AggExamples.e1; AggExamples.e2])).
Proof.
  apply (aggregate_conserves [AggExamples.e1; AggExamples.e2]).
  vm_compute. reflexivity.
Defined.
(** ** Requests of ten records *)

Section Chunks.

Context {A : Type}.

Lemma chunks_of_concat fuel : ∀ l : list A,
  length l ≤ fuel → concat (chunks_of fuel l) = l.
Proof.
  induction fuel as [|fuel IH]; intros l Hl.
  - destruct l; [done|simpl in Hl; lia].
  - destruct l as [|a l]; [done|].
    change (chunks_of (S fuel) (a :: l))
      with (take 10 (a :: l) :: chunks_of fuel (drop 10 (a :: l))).
    rewrite concat_cons, IH, take_drop; [done|].
    rewrite length_drop. simpl in *. lia.
Qed.

Lemma chunks_of_lookup fuel : ∀ (l : list A) k,
  length l ≤ fuel →
  chunks_of fuel l !! k
  = if 10 * k <? length l then Some (take 10 (drop (10 * k) l)) else None.
Proof.
  induction fuel as [|fuel IH]; intros l k Hl.
  - destruct l; [|simpl in Hl; lia]. simpl.
    by destruct (10 * k <? 0) eqn:E; [apply Nat.ltb_lt in E; lia|].
  - destruct l as [|a l].
    { simpl. by destruct (10 * k <? 0) eqn:E; [apply Nat.ltb_lt in E; lia|]. }
    change (chunks_of (S fuel) (a :: l))
      with (take 10 (a :: l) :: chunks_of fuel (drop 10 (a :: l))).
    destruct k as [|k].
    + by rewrite Nat.mul_0_r.
    + rewrite lookup_cons, IH by (rewrite length_drop; simpl in *; lia).
      rewrite length_drop, drop_drop.
      replace (10 + 10 * k) with (10 * S k) by lia.
      destruct (10 * k <? length (a :: l) - 10) eqn:E1;
        destruct (10 * S k <? length (a :: l)) eqn:E2; try done;
        apply Nat.ltb_lt in E1 || apply Nat.ltb_ge in E1;
        apply Nat.ltb_lt in E2 || apply Nat.ltb_ge in E2; lia.
Qed.

Lemma chunks_lookup (l : list A) k :
  chunks l !! k
  = if 10 * k <? length l then Some (take 10 (drop (10 * k) l)) else None.
Proof. by apply chunks_of_lookup. Qed.

Lemma chunks_sizes (l : list A) :
  Forall (fun c => 1 ≤ length c ≤ 10) (chunks l).
Proof.
  apply Forall_lookup. intros k c. rewrite chunks_lookup.
  destruct (10 * k <? length l) eqn:E; [|done]. apply Nat.ltb_lt in E.
  intros [= <-]. rewrite length_take, length_drop. lia.
Qed.

Lemma chunks_length (l : list A) : length (chunks l) = (length l + 9) / 10.
Proof.
  assert (∀ k, k < length (chunks l) ↔ k < (length l + 9) / 10) as H.
  { intros k. rewrite <- lookup_lt_is_Some, chunks_lookup.
    destruct (10 * k <? length l) eqn:E.
    - apply Nat.ltb_lt in E. split; [intros _|by eexists].
      apply Nat.div_le_lower_bound; lia.
    - apply Nat.ltb_ge in E. split; [by intros [? ?]|]. intros Hk. exfalso.
      assert (10 * ((length l + 9) / 10) ≤ length l + 9)
        by (apply Nat.Div0.mul_div_le).
      lia. }
  destruct (Nat.lt_trichotomy (length (chunks l)) ((length l + 9) / 10))
    as [Hlt|[?|Hgt]]; [|done|].
  - apply H in Hlt. lia.
  - apply H in Hgt. lia.
Qed.

End Chunks.

(** X10. The records of a list are sent in slices of ten: slice [k] is
    [l[10k : 10k + 10]], the slices put together give the list back, every
    slice has between one and ten records, and there are as many slices as
    the length divided by ten, rounded up. *)
Theorem chunks_are_slices {A : Type} (l : list A) :
  (∀ k, chunks l !! k
        = if 10 * k <? length l then Some (take 10 (drop (10 * k) l)) else None)
  ∧ concat (chunks l) = l
  ∧ Forall (fun c => 1 ≤ length c ≤ 10) (chunks l)
  ∧ length (chunks l) = (length l + 9) / 10.
Proof.
  split_and!.
  - apply chunks_lookup.
  - by apply chunks_of_concat.
  - apply chunks_sizes.
  - apply chunks_length.
Qed.
(** ** What the reconciler queues *)

Section Reconcile.

Lemma requests_of_posted plan :
  flat_map posted (requests_of plan) = new_records plan.
Proof.
  unfold requests_of. rewrite flat_map_app.
  assert (∀ cs : list (list summary),
            flat_map posted (map POST cs) = concat cs) as ->.
  { induction cs as [|c cs IH]; [done|]. simpl. by rewrite IH. }
  assert (∀ cs : list (list update_record),
            flat_map posted (map PATCH cs) = []) as ->.
  { induction cs as [|c cs IH]; [done|]. done. }
  rewrite app_nil_r. by apply chunks_of_concat.
Qed.

Lemma requests_of_patched plan :
  flat_map patched (requests_of plan) = update_records plan.
Proof.
  unfold requests_of. rewrite flat_map_app.
  assert (∀ cs : list (list summary),
            flat_map patched (map POST cs) = []) as ->.
  { induction cs as [|c cs IH]; [done|]. done. }
  assert (∀ cs : list (list update_record),
            flat_map patched (map PATCH cs) = concat cs) as ->.
  { induction cs as [|c cs IH]; [done|]. simpl. by rewrite IH. }
  by apply chunks_of_concat.
Qed.

Lemma requests_of_sizes plan :
  Forall (fun request => 1 ≤ request_size request ≤ 10) (requests_of plan).
Proof.
  unfold requests_of. apply Forall_app. split; apply Forall_fmap;
    (eapply Forall_impl; [apply chunks_sizes|done]).
Qed.

Lemma requests_of_order plan i j :
  is_post <$> requests_of plan !! i = Some false →
  is_post <$> requests_of plan !! j = Some true → j < i.
Proof.
  unfold requests_of.
  set (ps := map POST (chunks (new_records plan))).
  set (us := map PATCH (chunks (update_records plan))).
  assert (Forall (fun r => is_post r = true) ps) as Hps
    by (apply Forall_fmap, Forall_true; done).
  assert (Forall (fun r => is_post r = false) us) as Hus
    by (apply Forall_fmap, Forall_true; done).
  intros Hi Hj.
  destruct (decide (i < length ps)) as [Hlt|Hge].
  - rewrite lookup_app_l in Hi by done.
    destruct (ps !! i) as [r|] eqn:Hr; [|done].
    rewrite Forall_lookup in Hps. apply Hps in Hr. simpl in Hi. congruence.
  - destruct (decide (j < length ps)) as [?|Hgej]; [lia|].
    rewrite lookup_app_r in Hj by lia.
    destruct (us !! (j - length ps)) as [r|] eqn:Hr; [|done].
    rewrite Forall_lookup in Hus. apply Hus in Hr. simpl in Hj. congruence.
Qed.

(** The loop over the aggregate, from any plan built so far. *)
Lemma reconcile_loop existing_records dict aggregated_data :
  (∀ address, dict !! address = stored_under address existing_records) →
  ∀ plan0 plan,
    for_each (reconcile_entry dict) plan0 aggregated_data = Ok plan →
    new_records plan
    = new_records plan0
      ++ filter (fun entry =>
                   stored_under (normalize (Recipient_Email entry))
                                existing_records = None)
                aggregated_data
    ∧ (∀ u, u ∈ update_records plan →
         u ∈ update_records plan0
         ∨ ∃ entry record,
             entry ∈ aggregated_data
             ∧ stored_under (normalize (Recipient_Email entry))
                            existing_records = Some record
             ∧ u = {| update_id := record_id record;
                      update_Total_Mails_Sent := Total_Mails_Sent entry;
                      update_Last_Interacted_Date := Last_Interacted_Date entry |}
             ∧ (stored_Total_Mails_Sent (fields record)
                ≠ Some (Z.of_nat (Total_Mails_Sent entry))
                ∨ ∃ d, Last_Interacted_Date entry = Some d
                       ∧ stored_Last_Interacted_Date (fields record)
                         ≠ Some (Str.replace "/" "-" d)))
    ∧ length (new_records plan) + length (update_records plan)
      ≤ length (new_records plan0) + length (update_records plan0)
        + length aggregated_data.
Proof.
  intros Hlook. induction aggregated_data as [|entry rest IH]; intros plan0 plan.
  - simpl. intros [= <-]. rewrite app_nil_r. split_and!; [done|by left|lia].
  - simpl. destruct (reconcile_entry dict plan0 entry) as [plan1|] eqn:H1; [|done].
    simpl. intros Hrest. destruct (IH _ _ Hrest) as (Hnew & Hupd & Hlen).
    clear IH Hrest. unfold reconcile_entry in H1. cbv zeta in H1.
    rewrite Hlook in H1. rewrite filter_cons.
    destruct (stored_under (normalize (Recipient_Email entry)) existing_records)
      as [record|] eqn:Hrec.
    + rewrite decide_False by done.
      destruct (needs_update (fields record) (Total_Mails_Sent entry)
                  (Last_Interacted_Date entry)) as [[]|] eqn:Hneed;
        simpl in H1; [| |done]; injection H1 as <-; simpl in *.
      * split_and!; [done| |rewrite length_app in Hlen; simpl in Hlen; lia].
        intros u Hu. destruct (Hupd u Hu) as [Hin|(e & rec & He & ? & ? & ?)].
        -- apply elem_of_app in Hin as [?|Hin]; [by left|].
           apply list_elem_of_singleton in Hin as ->.
           right. exists entry, record. split_and!; [by left|done|done|].
           unfold needs_update in Hneed.
           destruct (bool_decide (stored_Total_Mails_Sent (fields record)
                                  = Some (Z.of_nat (Total_Mails_Sent entry))))
             eqn:Ht; simpl in Hneed.
           ++ right. destruct (Last_Interacted_Date entry) as [d|]; [|done].
              exists d. split; [done|]. injection Hneed as Hneed.
              apply negb_true_iff, bool_decide_eq_false in Hneed. done.
           ++ left. by apply bool_decide_eq_false in Ht.
        -- right. exists e, rec. split_and!; [by right|done..].
      * split_and!; [done| |lia].
        intros u Hu. destruct (Hupd u Hu) as [Hin|(e & rec & He & ? & ? & ?)];
          [by left|].
        right. exists e, rec. split_and!; [by right|done..].
    + rewrite decide_True by done. injection H1 as <-. simpl in *.
      split_and!.
      * by rewrite Hnew, <- app_assoc.
      * intros u Hu. destruct (Hupd u Hu) as [Hin|(e & rec & He & ? & ? & ?)];
          [by left|].
        right. exists e, rec. split_and!; [by right|done..].
      * rewrite length_app in Hlen. simpl in Hlen. lia.
Qed.

Lemma reconcile_entry_dated dict plan entry :
  is_Some (Last_Interacted_Date entry) →
  ∃ plan', reconcile_entry dict plan entry = Ok plan'.
Proof.
  intros [d Hd]. unfold reconcile_entry. cbv zeta.
  destruct (dict !! _) as [record|]; [|by eexists].
  unfold needs_update. rewrite Hd.
  destruct (negb _); simpl; [by eexists|]. destruct (negb _); by eexists.
Qed.

Lemma reconcile_loop_dated dict aggregated_data :
  Forall (fun entry => is_Some (Last_Interacted_Date entry)) aggregated_data →
  ∀ plan0, ∃ plan,
    for_each (reconcile_entry dict) plan0 aggregated_data = Ok plan.
Proof.
  induction 1 as [|entry rest Hd _ IH]; intros plan0; [by eexists|].
  simpl. destruct (reconcile_entry_dated dict plan0 entry Hd) as [plan1 ->].
  simpl. apply IH.
Qed.

Lemma existing_records_dict_raise existing_records e :
  existing_records_dict existing_records = Raise e → e = KeyError.
Proof.
  unfold existing_records_dict. generalize (∅ : gmap string airtable_record).
  induction existing_records as [|record rest IH]; intros d; [done|].
  simpl. destruct (stored_Recipient_Email (fields record)); simpl.
  - apply IH.
  - by intros [= <-].
Qed.

Lemma existing_records_dict_missing existing_records record :
  record ∈ existing_records →
  stored_Recipient_Email (fields record) = None →
  existing_records_dict existing_records = Raise KeyError.
Proof.
  intros Hin Hnone.
  destruct (existing_records_dict existing_records) as [d|e] eqn:E;
    [|by apply existing_records_dict_raise in E as ->].
  exfalso. revert E. unfold existing_records_dict.
  generalize (∅ : gmap string airtable_record).
  induction existing_records as [|r rest IH]; intros d0;
    [by apply elem_of_nil in Hin|].
  simpl. apply elem_of_cons in Hin as [<-|Hin].
  - by rewrite Hnone.
  - destruct (stored_Recipient_Email (fields r)); [|done]. simpl. by apply IH.
Qed.

End Reconcile.
(** X11. With a snapshot in which every record has an address, the
    reconciler queues as new exactly the entries whose normalised address no
    record is stored under, in the order of the aggregate; every queued
    update is for an entry that matches a stored record and differs from it
    in the total or in the date, and carries that record's id with the
    entry's total and date; no entry is queued twice. *)
Theorem reconcile_classifies (existing_records : list airtable_record)
    (aggregated_data : list summary) (plan : sync_plan) :
  Forall (fun record => is_Some (stored_Recipient_Email (fields record)))
         existing_records →
  reconcile existing_records aggregated_data = Ok plan →
  new_records plan
  = filter (fun entry =>
              stored_under (normalize (Recipient_Email entry)) existing_records
              = None)
           aggregated_data
  ∧ (∀ u, u ∈ update_records plan →
       ∃ entry record,
         entry ∈ aggregated_data
         ∧ stored_under (normalize (Recipient_Email entry)) existing_records
           = Some record
         ∧ u = {| update_id := record_id record;
                  update_Total_Mails_Sent := Total_Mails_Sent entry;
                  update_Last_Interacted_Date := Last_Interacted_Date entry |}
         ∧ (stored_Total_Mails_Sent (fields record)
            ≠ Some (Z.of_nat (Total_Mails_Sent entry))
            ∨ ∃ d, Last_Interacted_Date entry = Some d
                   ∧ stored_Last_Interacted_Date (fields record)
                     ≠ Some (Str.replace "/" "-" d)))
  ∧ length (new_records plan) + length (update_records plan)
    ≤ length aggregated_data.
Proof.
  intros Hwf. unfold reconcile.
  destruct (existing_records_dict_lookup _ Hwf) as (dict & -> & Hlook). simpl.
  intros Hloop.
  destruct (reconcile_loop _ _ _ Hlook _ _ Hloop) as (Hnew & Hupd & Hlen).
  simpl in *. split_and!; [done| |lia].
  intros u Hu. destruct (Hupd u Hu) as [Hin|?]; [|done].
  by apply elem_of_nil in Hin.
Qed.

Lemma reconcile_classifies_witness :
  new_records
    {| new_records := [SyncExamples.bob_summary];
       update_records :=
         [{| update_id := "rec002";
             update_Total_Mails_Sent := 4;
             update_Last_Interacted_Date := Some "2024/02/01" |}] |}
  = filter (fun entry =>
              stored_under (normalize (Recipient_Email entry))
                           [SyncExamples.carol_stale]
              = None)
           [SyncExamples.carol_summary; SyncExamples.bob_summary]
  ∧ (∀ u,
       u ∈ update_records
             {| new_records := [SyncExamples.bob_summary];
                update_records :=
                  [{| update_id := "rec002";
                      update_Total_Mails_Sent := 4;
                      update_Last_Interacted_Date := Some "2024/02/01" |}] |} →
       ∃ entry record,
         entry ∈ [SyncExamples.carol_summary; SyncExamples.bob_summary]
         ∧ stored_under (normalize (Recipient_Email entry))
                        [SyncExamples.carol_stale]
           = Some record
         ∧ u = {| update_id := record_id record;
                  update_Total_Mails_Sent := Total_Mails_Sent entry;
                  update_Last_Interacted_Date := Last_Interacted_Date entry |}
         ∧ (stored_Total_Mails_Sent (fields record)
            ≠ Some (Z.of_nat (Total_Mails_Sent entry))
            ∨ ∃ d, Last_Interacted_Date entry = Some d
                   ∧ stored_Last_Interacted_Date (fields record)
                     ≠ Some (Str.replace "/" "-" d)))
  ∧ length
      (new_records
         {| new_records := [SyncExamples.bob_summary];
            update_records :=
              [{| update_id := "rec002";
                  update_Total_Mails_Sent := 4;
                  update_Last_Interacted_Date := Some "2024/02/01" |}] |})
    + length
        (update_records
           {| new_records := [SyncExamples.bob_summary];
              update_records :=
                [{| update_id := "rec002";
                    update_Total_Mails_Sent := 4;
                    update_Last_Interacted_Date := Some "2024/02/01" |}] |})
    ≤ length [SyncExamples.carol_summary; SyncExamples.bob_summary].
Proof.
  apply (reconcile_classifies [SyncExamples.carol_stale]
           [SyncExamples.carol_summary; SyncExamples.bob_summary]).
  - repeat constructor. by eexists.
  - vm_compute. reflexivity.
Defined.

(** X12. The write requests that [push_to_airtable] issues carry exactly the
    queued records, in order: the inserts first, then the updates, each
    request with between one and ten records. *)
Theorem push_requests_carry_the_plan (existing_records : list airtable_record)
    (aggregated_data : list summary) (requests : list airtable_request) :
  push_to_airtable existing_records aggregated_data = Ok requests →
  ∃ plan,
    reconcile existing_records aggregated_data = Ok plan
    ∧ flat_map posted requests = new_records plan
    ∧ flat_map patched requests = update_records plan
    ∧ Forall (fun request => 1 ≤ request_size request ≤ 10) requests
    ∧ ∀ i j, is_post <$> requests !! i = Some false →
             is_post <$> requests !! j = Some true → j < i.
Proof.
  unfold push_to_airtable.
  destruct (reconcile existing_records aggregated_data) as [plan|]; [|done].
  simpl. intros [= <-]. exists plan. split_and!; [done|..].
  - apply requests_of_posted.
  - apply requests_of_patched.
  - apply requests_of_sizes.
  - apply requests_of_order.
Qed.

Lemma push_requests_carry_the_plan_witness :
  ∃ plan,
    reconcile [SyncExamples.carol_stale]
              [SyncExamples.carol_summary; SyncExamples.bob_summary] = Ok plan
    ∧ flat_map posted
        [POST [SyncExamples.bob_summary];
         PATCH [{| update_id := "rec002";
                   update_Total_Mails_Sent := 4;
                   update_Last_Interacted_Date := Some "2024/02/01" |}]]
      = new_records plan
    ∧ flat_map patched
        [POST [SyncExamples.bob_summary];
         PATCH [{| update_id := "rec002";
                   update_Total_Mails_Sent := 4;
                   update_Last_Interacted_Date := Some "2024/02/01" |}]]
      = update_records plan
    ∧ Forall (fun request => 1 ≤ request_size request ≤ 10)
        [POST [SyncExamples.bob_summary];
         PATCH [{| update_id := "rec002";
                   update_Total_Mails_Sent := 4;
                   update_Last_Interacted_Date := Some "2024/02/01" |}]]
    ∧ ∀ i j,
        is_post <$>
          [POST [SyncExamples.bob_summary];
           PATCH [{| update_id := "rec002";
                     update_Total_Mails_Sent := 4;
                     update_Last_Interacted_Date := Some "2024/02/01" |}]] !! i
        = Some false →
        is_post <$>
          [POST [SyncExamples.bob_summary];
           PATCH [{| update_id := "rec002";
                     update_Total_Mails_Sent := 4;
                     update_Last_Interacted_Date := Some "2024/02/01" |}]] !! j
        = Some true → j < i.
Proof.
  apply (push_requests_carry_the_plan [SyncExamples.carol_stale]
           [SyncExamples.carol_summary; SyncExamples.bob_summary]).
  vm_compute. reflexivity.
Defined.

(** X13. One record of the snapshot without an address field makes the
    reconciler raise [KeyError] whatever the aggregate is: nothing is
    queued, no write request is issued, and the final step of a run only
    logs the error. *)
Theorem snapshot_without_address_raises
    (existing_records : list airtable_record) (record : airtable_record)
    (aggregated_data : list summary) :
  record ∈ existing_records →
  stored_Recipient_Email (fields record) = None →
  reconcile existing_records aggregated_data = Raise KeyError
  ∧ push_to_airtable existing_records aggregated_data = Raise KeyError
  ∧ ∀ w data, fetch_all_airtable_records w = Ok existing_records →
      (∀ request, Write request ∉ final_events w data)
      ∧ (∀ m, aggregate_email_data data = Ok m →
           final_events w data
           = [Aggregate data; Log Main (FinalError KeyError)]).
Proof.
  intros Hin Hnone.
  assert (∀ l, reconcile existing_records l = Raise KeyError) as Hrec.
  { intros l. unfold reconcile.
    by rewrite (existing_records_dict_missing _ _ Hin Hnone). }
  split_and!; [done|unfold push_to_airtable; by rewrite Hrec|].
  intros w data Hfetch. unfold final_events. rewrite Hfetch.
  split.
  - intros request.
    destruct (aggregate_email_data data) as [m|e]; [rewrite Hrec|];
      intros Hw; repeat (apply elem_of_cons in Hw as [?|Hw]; [done|]);
      by apply elem_of_nil in Hw.
  - intros m ->. by rewrite Hrec.
Qed.

Lemma snapshot_without_address_raises_witness :
  reconcile [SyncExamples.carol_stored; no_address] [SyncExamples.carol_summary]
  = Raise KeyError
  ∧ push_to_airtable [SyncExamples.carol_stored; no_address]
      [SyncExamples.carol_summary]
    = Raise KeyError
  ∧ ∀ w data,
      fetch_all_airtable_records w = Ok [SyncExamples.carol_stored; no_address] →
      (∀ request, Write request ∉ final_events w data)
      ∧ (∀ m, aggregate_email_data data = Ok m →
           final_events w data
           = [Aggregate data; Log Main (FinalError KeyError)]).
Proof.
  apply (snapshot_without_address_raises
           [SyncExamples.carol_stored; no_address] no_address).
  - right. left.
  - reflexivity.
Defined.

(** X14. On what [aggregate_email_data] returns, the reconciler never fails
    over a missing date: with a snapshot in which every record has an
    address it returns a plan, and [push_to_airtable] issues the requests
    of that plan. *)
Theorem reconcile_of_aggregate_returns
    (existing_records : list airtable_record) (email_data : list email)
    (m : gmap string summary) :
  Forall (fun record => is_Some (stored_Recipient_Email (fields record)))
         existing_records →
  aggregate_email_data email_data = Ok m →
  Forall (fun entry => is_Some (Last_Interacted_Date entry)) (values m)
  ∧ ∃ plan, reconcile existing_records (values m) = Ok plan
            ∧ push_to_airtable existing_records (values m)
              = Ok (requests_of plan).
Proof.
  intros Hwf Hagg.
  assert (Forall (fun entry => is_Some (Last_Interacted_Date entry)) (values m))
    as Hdated.
  { apply Forall_forall. intros s Hs. unfold values in Hs.
    apply list_elem_of_fmap in Hs as ([r s'] & -> & Hs).
    apply elem_of_map_to_list in Hs. simpl.
    destruct (aggregate_invariant _ _ Hagg r) as [Hdesc _].
    rewrite Hs in Hdesc. destruct Hdesc as (_ & _ & _ & _ & d & Hd & _).
    by eexists. }
  split; [done|].
  destruct (existing_records_dict_lookup _ Hwf) as (dict & Hdict & _).
  destruct (reconcile_loop_dated dict _ Hdated
              {| new_records := []; update_records := [] |}) as [plan Hplan].
  exists plan.
  assert (reconcile existing_records (values m) = Ok plan) as Hrec
    by (unfold reconcile; by rewrite Hdict).
  split; [done|]. unfold push_to_airtable. by rewrite Hrec.
Qed.

Lemma reconcile_of_aggregate_returns_witness :
  Forall (fun entry => is_Some (Last_Interacted_Date entry))
         (values sample_aggregate)
  ∧ ∃ plan,
      reconcile [SyncExamples.carol_stored] (values sample_aggregate) = Ok plan
      ∧ push_to_airtable [SyncExamples.carol_stored] (values sample_aggregate)
        = Ok (requests_of plan).
Proof.
  apply (reconcile_of_aggregate_returns [SyncExamples.carol_stored]
           [AggExamples.e1; AggExamples.e2]).
  - repeat constructor. by eexists.
  - vm_compute. reflexivity.
Defined.
(** ** Batches and offsets *)

(** X15. The batches tile the mailbox: the item at index [i] lies in the
    window of batch [i / BATCH_SIZE], which is one of the batches that are
    submitted; and the window of every submitted batch starts inside the
    mailbox, so an empty mailbox has no batch at all. *)
Theorem batches_tile_the_mailbox (w : world) :
  (∀ i, i < total_emails w →
        i / BATCH_SIZE < total_batches w
        ∧ skip (i / BATCH_SIZE) ≤ i < skip (i / BATCH_SIZE) + BATCH_SIZE)
  ∧ (∀ b, b < total_batches w → skip b < total_emails w)
  ∧ (total_batches w = 0 ↔ total_emails w = 0).
Proof.
  unfold total_batches, skip, BATCH_SIZE.
  pose proof (Nat.div_mod_eq (total_emails w) 50) as Hn.
  pose proof (Nat.mod_upper_bound (total_emails w) 50 ltac:(lia)) as Hr.
  revert Hn Hr.
  generalize (total_emails w / 50). generalize (total_emails w mod 50).
  intros r q Hn Hr.
  assert ((if negb (r =? 0) then 1 else 0) = 0 ↔ r = 0) as Hz.
  { destruct (r =? 0) eqn:E; simpl;
      [apply Nat.eqb_eq in E|apply Nat.eqb_neq in E]; lia. }
  assert ((if negb (r =? 0) then 1 else 0) ≤ 1) as Hone
    by (destruct (negb (r =? 0)); lia).
  split_and!.
  - intros i Hi.
    pose proof (Nat.div_mod_eq i 50) as Hi'.
    pose proof (Nat.mod_upper_bound i 50 ltac:(lia)) as Hir.
    revert Hi' Hir. generalize (i / 50). generalize (i mod 50).
    intros ri qi Hi' Hir. lia.
  - intros b Hb. lia.
  - lia.
Qed.

(** ** Runs that end early *)

Section EarlyEnd.

Context (w : world).

Lemma step_trace_grows a s : ∃ evs, trace (step w a s) = trace s ++ evs.
Proof.
  destruct a as [| |b]; step_cases; simpl;
    first [by eexists | by exists []; rewrite app_nil_r].
Qed.

Lemma worker_step_no_future b s : futures s = [] → worker_step w b s = s.
Proof. intros H. unfold worker_step. by rewrite H. Qed.

End EarlyEnd.

(** X16. Without an access token the run does nothing: whatever the
    schedule, no batch is submitted, no page is requested, nothing is
    aggregated or written, and the only lines logged are the missing token
    or the stop; left alone, [main] logs the missing token and returns at
    its second step. *)
Theorem no_token_no_work (w : world) (schedule : list actor) :
  has_token w = false →
  Forall (fun ev => before_token ev = true) (trace (run w schedule))
  ∧ futures (run w schedule) = []
  ∧ email_data (run w schedule) = []
  ∧ (callback_fn w ≠ ForeignMethod →
     pc (run w [Main; Main]) = Returned
     ∧ trace (run w [Main; Main]) = [Poll Main false; Log Main NoAccessToken]).
Proof.
  intros Htok.
  assert (Forall (fun ev => before_token ev = true) (trace (run w schedule))
          ∧ futures (run w schedule) = []
          ∧ email_data (run w schedule) = []
          ∧ (pc (run w schedule) = AtStart ∨ pc (run w schedule) = GetToken
             ∨ pc (run w schedule) = Returned
             ∨ ∃ e, pc (run w schedule) = Raised e)) as (? & ? & ? & _).
  { unfold run. induction schedule as [|a schedule IH] using rev_ind.
    - simpl. split_and!; [done..|by left].
    - rewrite run_from_snoc. revert IH. generalize (run_from w initial schedule).
      intros s (Htr & Hfs & Hdata & Hpc). destruct a as [| |b]; simpl.
      + split_and!; [|done..]. apply Forall_app. split; [done|by constructor].
      + unfold main_step, has_token in *.
        destruct Hpc as [Hpc|[Hpc|[Hpc|[e Hpc]]]]; rewrite Hpc; simpl;
          [| |by split_and!; auto|by split_and!; eauto].
        * destruct (should_stop w s) as [[]|e]; simpl;
            (split_and!; [|done|done|eauto]);
            try done; apply Forall_app; split; try done; by repeat constructor.
        * destruct (access_token w) as [[|]|]; try done; simpl;
            (split_and!; [|done|done|eauto]);
            apply Forall_app; split; try done; by repeat constructor.
      + rewrite worker_step_no_future by done. by split_and!. }
  split_and!; [done..|].
  intros Hcb. change (run w [Main; Main]) with (main_step w (main_step w initial)).
  assert (main_step w initial = goto GetToken (emit [Poll Main false] initial))
    as ->.
  { unfold main_step. simpl.
    assert (should_stop w initial = Ok false) as ->; [|done].
    unfold should_stop. by destruct (callback_fn w). }
  unfold main_step, has_token in *. simpl.
  by destruct (access_token w) as [[|]|].
Qed.

Lemma no_token_no_work_witness :
  Forall (fun ev => before_token ev = true)
         (trace (run no_token RunExamples.stop_after_batch_0))
  ∧ futures (run no_token RunExamples.stop_after_batch_0) = []
  ∧ email_data (run no_token RunExamples.stop_after_batch_0) = []
  ∧ (callback_fn no_token ≠ ForeignMethod →
     pc (run no_token [Main; Main]) = Returned
     ∧ trace (run no_token [Main; Main])
       = [Poll Main false; Log Main NoAccessToken]).
Proof.
  apply (no_token_no_work no_token RunExamples.stop_after_batch_0).
  reflexivity.
Defined.
Section EmptyMailbox.

Context (w : world).

Lemma final_events_empty :
  Forall (fun ev => without_batches ev = true) (final_events w []).
Proof.
  unfold final_events. simpl.
  assert (values ∅ = []) as -> by (unfold values; by rewrite map_to_list_empty).
  destruct (fetch_all_airtable_records w) as [existing_records|e];
    [|by repeat constructor].
  unfold reconcile. destruct (existing_records_dict existing_records); simpl;
    by repeat constructor.
Qed.

End EmptyMailbox.

(** X17. With an empty mailbox no batch is submitted and no page is
    requested, whatever the schedule; the final step still runs, on no
    records: it aggregates the empty list and writes nothing. *)
Theorem empty_mailbox_run (w : world) (schedule : list actor) :
  total_emails w = 0 →
  Forall (fun ev => without_batches ev = true) (trace (run w schedule))
  ∧ futures (run w schedule) = []
  ∧ email_data (run w schedule) = []
  ∧ (has_token w = true → callback_fn w ≠ ForeignMethod →
     pc (run w (completing_schedule 0)) = Returned
     ∧ Aggregate [] ∈ trace (run w (completing_schedule 0))).
Proof.
  intros Hzero.
  assert (total_batches w = 0) as Hnone
    by (unfold total_batches; by rewrite Hzero).
  assert (∀ schedule,
            Forall (fun ev => without_batches ev = true) (trace (run w schedule))
            ∧ futures (run w schedule) = []
            ∧ email_data (run w schedule) = []) as Hall.
  { clear schedule. intros schedule. unfold run.
    induction schedule as [|a schedule IH] using rev_ind; [done|].
    rewrite run_from_snoc. revert IH. generalize (run_from w initial schedule).
    intros s (Htr & Hfs & Hdata). destruct a as [| |b]; simpl.
    - split_and!; [|done..]. apply Forall_app. split; [done|by constructor].
    - remember (main_step w s) as s' eqn:Hs'. unfold main_step in Hs'.
      rewrite Hnone, Hfs, Hdata in Hs'.
      case_step Hs'; subst s'; simpl; rewrite ?Hfs, ?Hdata;
        (split_and!; [|done..]); try done;
        try (apply Forall_app; split; [done|]; by repeat constructor).
      apply Forall_app. split; [done|]. constructor; [done|].
      apply final_events_empty.
    - rewrite worker_step_no_future by done. by split_and!. }
  destruct (Hall schedule) as (? & ? & ?). split_and!; [done..|].
  intros Htok Hcb.
  destruct (run_to_completion w Hcb Htok) as (Hpc & data & Hdata).
  rewrite Hnone in Hpc, Hdata. split; [done|].
  destruct (Hall (completing_schedule 0)) as (Htr & _ & _).
  rewrite Forall_forall in Htr. specialize (Htr _ Hdata).
  by destruct data.
Qed.

Lemma empty_mailbox_run_witness :
  Forall (fun ev => without_batches ev = true)
         (trace (run empty_mailbox RunExamples.to_the_end))
  ∧ futures (run empty_mailbox RunExamples.to_the_end) = []
  ∧ email_data (run empty_mailbox RunExamples.to_the_end) = []
  ∧ (has_token empty_mailbox = true →
     callback_fn empty_mailbox ≠ ForeignMethod →
     pc (run empty_mailbox (completing_schedule 0)) = Returned
     ∧ Aggregate [] ∈ trace (run empty_mailbox (completing_schedule 0))).
Proof.
  apply (empty_mailbox_run empty_mailbox RunExamples.to_the_end). reflexivity.
Defined.

(** X18. When the callback is a bound method of an object without
    [should_stop], the first poll of [main] raises [AttributeError]: the
    run ends there, before the token is asked for, and performs nothing. *)
Theorem foreign_callback_raises (w : world) (schedule : list actor) :
  callback_fn w = ForeignMethod →
  Forall (fun ev => ev = Stop) (trace (run w schedule))
  ∧ futures (run w schedule) = []
  ∧ email_data (run w schedule) = []
  ∧ (Main ∈ schedule → pc (run w schedule) = Raised AttributeError)
  ∧ (Main ∉ schedule → pc (run w schedule) = AtStart).
Proof.
  intros Hcb.
  assert (Forall (fun ev => ev = Stop) (trace (run w schedule))
          ∧ futures (run w schedule) = []
          ∧ email_data (run w schedule) = []
          ∧ (Main ∈ schedule → pc (run w schedule) = Raised AttributeError)
          ∧ (Main ∉ schedule → pc (run w schedule) = AtStart)
          ∧ (pc (run w schedule) = AtStart
             ∨ pc (run w schedule) = Raised AttributeError))
    as (? & ? & ? & ? & ? & _); [|done].
  unfold run. induction schedule as [|a schedule IH] using rev_ind.
  - simpl. split_and!; try done; [by intros ?%elem_of_nil|by left].
  - rewrite run_from_snoc. revert IH. generalize (run_from w initial schedule).
    intros s (Htr & Hfs & Hdata & Hin & Hout & Hpc).
    setoid_rewrite elem_of_app. setoid_rewrite list_elem_of_singleton.
    destruct a as [| |b]; simpl.
    + split_and!; [|done|done| | |done].
      * apply Forall_app. split; [done|by constructor].
      * intros [?|?]; [auto|done].
      * intros ?. apply Hout. tauto.
    + unfold main_step.
      destruct Hpc as [Hpc|Hpc]; rewrite Hpc;
        rewrite ?(should_stop_foreign w s Hcb); simpl;
        split_and!; try done; tauto.
    + rewrite worker_step_no_future by done. split_and!; [done..| | |done].
      * intros [?|?]; [auto|done].
      * intros ?. apply Hout. tauto.
Qed.

Lemma foreign_callback_raises_witness :
  Forall (fun ev => ev = Stop) (trace (run foreign RunExamples.to_the_end))
  ∧ futures (run foreign RunExamples.to_the_end) = []
  ∧ email_data (run foreign RunExamples.to_the_end) = []
  ∧ (Main ∈ RunExamples.to_the_end →
     pc (run foreign RunExamples.to_the_end) = Raised AttributeError)
  ∧ (Main ∉ RunExamples.to_the_end →
     pc (run foreign RunExamples.to_the_end) = AtStart).
Proof.
  apply (foreign_callback_raises foreign RunExamples.to_the_end). reflexivity.
Defined.


(** ** The pool *)

Section Pool.

Context (w : world).

Lemma sum_list_with_insert {A} (g : A → nat) (fs : list A) b f f' :
  fs !! b = Some f →
  sum_list_with g (<[b := f']> fs) + g f = sum_list_with g fs + g f'.
Proof.
  revert b. induction fs as [|x fs IH]; intros b; [done|].
  destruct b as [|b]; simpl.
  - intros [= ->]. lia.
  - intros Hb. specialize (IH b Hb). lia.
Qed.

Lemma running_sum fs :
  running fs = sum_list_with (fun f => if is_running f then 1 else 0) fs.
Proof.
  unfold running. induction fs as [|f fs IH]; [done|].
  rewrite filter_cons. simpl. rewrite <- IH.
  destruct (is_running f); by rewrite ?decide_True, ?decide_False by done.
Qed.

Lemma running_insert fs b f f' :
  fs !! b = Some f →
  running (<[b := f']> fs) + (if is_running f then 1 else 0)
  = running fs + (if is_running f' then 1 else 0).
Proof. rewrite !running_sum. apply sum_list_with_insert. Qed.

Lemma running_cancel_all fs : running (cancel_all fs) = running fs.
Proof.
  rewrite !running_sum. unfold cancel_all.
  induction fs as [|f fs IH]; [done|]. simpl. rewrite IH. by destruct f.
Qed.

Lemma running_snoc fs : running (fs ++ [Pending]) = running fs.
Proof. rewrite !running_sum, sum_list_with_app. simpl. lia. Qed.

Lemma step_running a s :
  running (futures s) ≤ MAX_WORKERS →
  running (futures (step w a s)) ≤ MAX_WORKERS.
Proof.
  intros Hs. destruct a as [| |b]; simpl.
  - done.
  - destruct (main_step_futures w s) as [->|[->| ->]];
      by rewrite ?running_snoc, ?running_cancel_all.
  - remember (worker_step w b s) as s' eqn:Hs'. unfold worker_step in Hs'.
    case_step Hs'; subst s'; simpl; try done;
      match goal with
      | H : futures s !! b = Some ?f |- context [<[b := ?f']> _] =>
          pose proof (running_insert (futures s) b f f' H) as Hrun
      end; simpl in Hrun; try lia.
    match goal with
    | H : can_start _ _ = true |- _ =>
        apply andb_true_iff in H as [H%Nat.ltb_lt _]
    end.
    fold (running (futures s)) in *. lia.
Qed.

End Pool.

(** X20. At no moment of a run are more than [MAX_WORKERS] batches being
    fetched, whatever the schedule. *)
Theorem at_most_max_workers (w : world) (schedule : list actor) :
  running (futures (run w schedule)) ≤ MAX_WORKERS.
Proof.
  unfold run. induction schedule as [|a schedule IH] using rev_ind.
  - unfold running, MAX_WORKERS. simpl. lia.
  - rewrite run_from_snoc. by apply step_running.
Qed.
(** ** The final step *)

Section FinalStep.

Context (w : world).

Lemma final_events_cases data :
  final_events w data
  = Aggregate data ::
    match aggregate_email_data data with
    | Raise e => [Log Main (FinalError e)]
    | Ok m =>
        match fetch_all_airtable_records w with
        | Raise e => [Log Main (FinalError e)]
        | Ok existing_records =>
            match reconcile existing_records (values m) with
            | Raise e => [Log Main (FinalError e)]
            | Ok plan =>
                write_events (requests_of plan)
                ++ [Log Main (TotalNew (length (new_records plan)));
                    Log Main (TotalUpdated (length (update_records plan)))]
            end
        end
    end.
Proof. reflexivity. Qed.

Lemma write_events_elem requests request :
  Write request ∈ write_events requests ↔ request ∈ requests.
Proof.
  unfold write_events. induction requests as [|r requests IH]; simpl.
  - split; by intros ?%elem_of_nil.
  - rewrite !elem_of_cons, IH. split.
    + intros [[= ->]|[?|?]]; [by left|done|by right].
    + intros [->|?]; [by left|by right; right].
Qed.

Lemma final_events_write data request :
  Write request ∈ final_events w data ↔
  ∃ m existing_records requests,
    aggregate_email_data data = Ok m
    ∧ fetch_all_airtable_records w = Ok existing_records
    ∧ push_to_airtable existing_records (values m) = Ok requests
    ∧ request ∈ requests.
Proof.
  rewrite final_events_cases. unfold push_to_airtable.
  destruct (aggregate_email_data data) as [m|e].
  - destruct (fetch_all_airtable_records w) as [existing_records|e].
    + destruct (reconcile existing_records (values m)) as [plan|e] eqn:Hrec.
      * rewrite elem_of_cons, elem_of_app, write_events_elem, !elem_of_cons,
          elem_of_nil.
        split.
        -- intros [?|[?|[?|[?|[]]]]]; try done.
           exists m, existing_records, (requests_of plan).
           rewrite Hrec. done.
        -- intros (m' & ex' & requests & [= <-] & [= <-] & Hp & Hin).
           rewrite Hrec in Hp. injection Hp as <-. auto.
      * split.
        -- intros Hin. repeat (apply elem_of_cons in Hin as [?|Hin]; [done|]).
           by apply elem_of_nil in Hin.
        -- intros (m' & ex' & requests & [= <-] & [= <-] & Hp & Hin).
           by rewrite Hrec in Hp.
    + split.
      * intros Hin. repeat (apply elem_of_cons in Hin as [?|Hin]; [done|]).
        by apply elem_of_nil in Hin.
      * by intros (m' & ex' & requests & _ & ? & _).
  - split.
    + intros Hin. repeat (apply elem_of_cons in Hin as [?|Hin]; [done|]).
      by apply elem_of_nil in Hin.
    + by intros (m' & ex' & requests & ? & _).
Qed.

Opaque final_events.

(** A write is one of the final events of the aggregation that the trace
    holds, and the trace holds all the final events of an aggregation. *)
Lemma step_final_events a s :
  (∀ data, Aggregate data ∈ trace s →
           ∀ ev, ev ∈ final_events w data → ev ∈ trace s) →
  (∀ request, Write request ∈ trace s →
     ∃ data, Aggregate data ∈ trace s ∧ Write request ∈ final_events w data) →
  (∀ data, Aggregate data ∈ trace (step w a s) →
           ∀ ev, ev ∈ final_events w data → ev ∈ trace (step w a s))
  ∧ (∀ request, Write request ∈ trace (step w a s) →
       ∃ data, Aggregate data ∈ trace (step w a s)
               ∧ Write request ∈ final_events w data).
Proof.
  intros Hagg Hwr. destruct (step_trace_grows w a s) as [evs Hevs]. split.
  - intros data [Hold|(-> & Hpc & Hstop & -> & ->)]%step_aggregate ev Hev.
    + rewrite Hevs. apply elem_of_app. left. by eapply Hagg.
    + simpl. rewrite elem_of_app, elem_of_cons. auto.
  - intros request. destruct a as [| |b]; simpl.
    + rewrite elem_of_app, list_elem_of_singleton. intros [H|?]; [|done].
      destruct (Hwr request H) as (data & ? & ?). exists data.
      rewrite elem_of_app. auto.
    + remember (main_step w s) as s' eqn:Hs'. unfold main_step in Hs'.
      case_step Hs'; subst s'; simpl;
        rewrite ?elem_of_app, ?elem_of_cons, ?elem_of_nil;
        intros H; destruct_or?; try discriminate;
        try (destruct (Hwr request H) as (data & ? & ?); exists data;
             rewrite ?elem_of_app; auto; fail).
      exists (email_data s). split; [|done].
      rewrite elem_of_app, elem_of_cons. right. right.
      apply final_events_head.
    + remember (worker_step w b s) as s' eqn:Hs'. unfold worker_step in Hs'.
      case_step Hs'; subst s'; simpl;
        rewrite ?elem_of_app, ?elem_of_cons, ?elem_of_nil;
        intros H; destruct_or?; try discriminate;
        try (destruct (Hwr request H) as (data & ? & ?); exists data;
             rewrite ?elem_of_app; auto; fail).
Qed.

Lemma run_final_events schedule :
  (∀ data, Aggregate data ∈ trace (run w schedule) →
           ∀ ev, ev ∈ final_events w data → ev ∈ trace (run w schedule))
  ∧ (∀ request, Write request ∈ trace (run w schedule) →
       ∃ data, Aggregate data ∈ trace (run w schedule)
               ∧ Write request ∈ final_events w data).
Proof.
  unfold run. induction schedule as [|a schedule IH] using rev_ind.
  - split; intros ? ?%elem_of_nil; done.
  - rewrite run_from_snoc. destruct IH. by apply step_final_events.
Qed.

Transparent final_events.

End FinalStep.

(** ** What the pages contribute *)

Section Pages.

Context (w : world).

Lemma step_futures_bound a s :
  main_ok w s → length (futures s) ≤ total_batches w →
  length (futures (step w a s)) ≤ total_batches w.
Proof.
  intros Hm Hs. destruct a as [| |b]; simpl.
  - done.
  - remember (main_step w s) as s' eqn:Hs'. unfold main_step in Hs'.
    unfold main_ok in Hm.
    case_step Hs'; subst s'; simpl;
      unfold cancel_all; rewrite ?length_map, ?length_app; simpl; try done.
    match goal with H : (_ <? _) = true |- _ => apply Nat.ltb_lt in H end.
    destruct Hm as (Hlen & _). lia.
  - destruct (worker_step_futures w b s) as [->|(f & f' & _ & _ & _ & _ & ->)];
      by rewrite ?length_insert.
Qed.

Lemma futures_bound schedule :
  length (futures (run w schedule)) ≤ total_batches w.
Proof.
  unfold run. induction schedule as [|a schedule IH] using rev_ind.
  - simpl. lia.
  - rewrite run_from_snoc. apply step_futures_bound; [|done].
    apply (inv_main _ _ (run_invariant w schedule)).
Qed.

(** A batch that has done something has a future. *)
Lemma batch_has_future schedule b ev :
  ev ∈ events_of b (trace (run w schedule)) → b < total_batches w.
Proof.
  intros Hev. pose proof (inv_script _ _ (run_invariant w schedule) b) as Hs.
  pose proof (futures_bound schedule) as Hlen.
  destruct (futures (run w schedule) !! b) as [f|] eqn:Hb.
  - apply lookup_lt_Some in Hb. lia.
  - simpl in Hs. rewrite Hs in Hev. by apply elem_of_nil in Hev.
Qed.

Lemma attempts_get b b' retries retries' fuel :
  Get b' retries' ∈ attempts w b retries fuel →
  b' = b ∧ retries ≤ retries' < retries + fuel.
Proof.
  revert retries. induction fuel as [|fuel IH]; intros retries; simpl.
  - intros [?|?%elem_of_nil]%elem_of_cons; done.
  - intros [[= -> ->]|Hin]%elem_of_cons; [lia|].
    destruct (graph_get w b retries) as [status value text|description].
    + destruct (status =? 200).
      * repeat (apply elem_of_cons in Hin as [?|Hin]; [done|]).
        by apply elem_of_nil in Hin.
      * repeat (apply elem_of_cons in Hin as [?|Hin]; [done|]).
        apply IH in Hin. lia.
    + apply elem_of_cons in Hin as [?|?%elem_of_nil]; done.
Qed.

Lemma attempts_extend b b' retries retries' fuel :
  Extend b' retries' ∈ attempts w b retries fuel →
  b' = b ∧ retries ≤ retries' < retries + fuel
  ∧ (∃ value text, graph_get w b retries' = Response 200 value text)
  ∧ ∀ r, retries ≤ r < retries' →
      ∃ status, status_of (graph_get w b r) = Some status ∧ status ≠ 200.
Proof.
  revert retries. induction fuel as [|fuel IH]; intros retries; simpl.
  - intros [?|?%elem_of_nil]%elem_of_cons; done.
  - intros [?|Hin]%elem_of_cons; [done|].
    destruct (graph_get w b retries) as [status value text|description] eqn:Hg.
    + destruct (status =? 200) eqn:Hs.
      * apply Nat.eqb_eq in Hs as ->.
        apply elem_of_cons in Hin as [[= -> ->]|Hin].
        -- split_and!; [done|lia|lia|by eauto|intros; lia].
        -- apply elem_of_cons in Hin as [?|?%elem_of_nil]; done.
      * apply Nat.eqb_neq in Hs.
        repeat (apply elem_of_cons in Hin as [?|Hin]; [done|]).
        apply IH in Hin as (-> & ? & ? & Hbefore).
        split_and!; [done|lia|lia|done|].
        intros r Hr. destruct (decide (r = retries)) as [->|Hne].
        -- exists status. by rewrite Hg.
        -- apply Hbefore. lia.
    + apply elem_of_cons in Hin as [?|?%elem_of_nil]; done.
Qed.

Lemma attempts_one_extend b retries fuel :
  length (filter (fun ev => is_extend ev = true) (attempts w b retries fuel)) ≤ 1.
Proof.
  revert retries. induction fuel as [|fuel IH]; intros retries; cbn [attempts].
  - rewrite filter_cons, decide_False by done. simpl. lia.
  - rewrite filter_cons, decide_False by done.
    destruct (graph_get w b retries) as [status value text|description].
    + destruct (status =? 200).
      * rewrite filter_cons, decide_True by done.
        rewrite filter_cons, decide_False by done. simpl. lia.
      * rewrite filter_cons, decide_False by done.
        rewrite filter_cons, decide_False by done. apply IH.
    + rewrite filter_cons, decide_False by done. simpl. lia.
Qed.

Lemma attempts_gets b retries fuel :
  length (filter (fun ev => is_get ev = true) (attempts w b retries fuel)) ≤ fuel.
Proof.
  revert retries. induction fuel as [|fuel IH]; intros retries; cbn [attempts].
  - rewrite filter_cons, decide_False by done. simpl. lia.
  - rewrite filter_cons, decide_True by done. simpl.
    destruct (graph_get w b retries) as [status value text|description].
    + destruct (status =? 200).
      * rewrite filter_cons, decide_False by done.
        rewrite filter_cons, decide_False by done. simpl. lia.
      * rewrite filter_cons, decide_False by done.
        rewrite filter_cons, decide_False by done.
        specialize (IH (retries + 1)). lia.
    + rewrite filter_cons, decide_False by done. simpl. lia.
Qed.

(** The events of a batch that started are events of its script. *)
Lemma batch_event_in_script schedule b ev :
  ev ∈ events_of b (trace (run w schedule)) →
  (∃ answer, ev = Poll (Worker b) answer) ∨ ev ∈ fetch_script w b.
Proof.
  intros Hev.
  destruct (batch_events_shape w schedule b) as [H|[H|(rest & H & Hpre)]];
    rewrite H in Hev.
  - by apply elem_of_nil in Hev.
  - apply list_elem_of_singleton in Hev. left. by eexists.
  - apply elem_of_cons in Hev as [->|Hev]; [left; by eexists|].
    right. destruct Hpre as [k ->]. apply elem_of_app. by left.
Qed.

Lemma prefix_filter_length {A} (P : A → Prop) `{∀ x, Decision (P x)} l k :
  l `prefix_of` k → length (filter P l) ≤ length (filter P k).
Proof. intros [k' ->]. rewrite filter_app, length_app. lia. Qed.

End Pages.

(** X22. Every record in the collection buffer was built from a message of
    a page that the service returned with status 200 to one of the (at
    most three) requests of a batch of the run, after nothing but non-200
    replies to the earlier requests of that batch. *)
Theorem collected_records_come_from_pages (w : world) (schedule : list actor)
    (e : email) :
  e ∈ email_data (run w schedule) →
  ∃ b retries value text msg,
    b < total_batches w ∧ retries < MAX_RETRIES
    ∧ graph_get w b retries = Response 200 value text
    ∧ msg ∈ value ∧ e = email_info msg
    ∧ ∀ r, r < retries →
        ∃ status, status_of (graph_get w b r) = Some status ∧ status ≠ 200.
Proof.
  rewrite (inv_buffer _ _ (run_invariant w schedule)).
  intros (ev & Hev & He)%list_elem_of_In%in_flat_map.
  apply list_elem_of_In in Hev, He.
  destruct ev as [| | |b retries|b retries| | | |];
    try (by apply elem_of_nil in He).
  simpl in He.
  assert (Extend b retries ∈ events_of b (trace (run w schedule))) as Hin
    by (by apply events_of_elem).
  pose proof (batch_has_future w schedule b _ Hin) as Hb.
  apply batch_event_in_script in Hin as [[answer [=]]|Hin].
  apply attempts_extend in Hin as (_ & Hr & (value & text & Hg) & Hbefore).
  rewrite Hg in He. apply list_elem_of_fmap in He as (msg & -> & Hmsg).
  exists b, retries, value, text, msg.
  split_and!; [done|lia|done..|]. intros r Hr'. apply Hbefore. lia.
Qed.

Lemma collected_records_come_from_pages_witness :
  ∃ b retries value text msg,
    b < total_batches RunExamples.two_batches ∧ retries < MAX_RETRIES
    ∧ graph_get RunExamples.two_batches b retries = Response 200 value text
    ∧ msg ∈ value
    ∧ email_info
        {| msg_subject := Some "report";
           msg_sender := Some "me@corp.com";
           toRecipients :=
             [ {| address := "alice@example.com"; name := "Alice" |} ];
           ccRecipients := [];
           bccRecipients := [];
           receivedDateTime := Some "2024-03-07T09:15:00Z" |}
      = email_info msg
    ∧ ∀ r, r < retries →
        ∃ status,
          status_of (graph_get RunExamples.two_batches b r) = Some status
          ∧ status ≠ 200.
Proof.
  apply (collected_records_come_from_pages RunExamples.two_batches
           RunExamples.stop_after_batch_0).
  vm_compute. left.
Defined.
(** X23. One message with an addressee and a timestamp that does not parse
    (a missing [receivedDateTime] becomes [Unknown]) on a page that is
    fetched is enough for the run to write nothing: if the run gets to the
    aggregation, it holds the record, the aggregation raises, the error is
    logged and no request is sent to the destination. *)
Theorem unparseable_message_blocks_the_upload (w : world)
    (schedule : list actor) (b : nat) (value : list message) (text : string)
    (msg : message) :
  b < total_batches w →
  graph_get w b 0 = Response 200 value text →
  msg ∈ value →
  all_recipients msg ≠ [] →
  format_date_for_airtable (default "Unknown" (receivedDateTime msg)) = None →
  (∀ request, Write request ∉ trace (run w schedule))
  ∧ (∀ data, Aggregate data ∈ trace (run w schedule) →
       email_info msg ∈ data
       ∧ aggregate_email_data data = Raise TypeError
       ∧ Log Main (FinalError TypeError) ∈ trace (run w schedule)).
Proof.
  intros Hb Hg Hmsg Hrcp Hdate.
  destruct (run_final_events w schedule) as [Hagg Hwr].
  assert (∀ data, Aggregate data ∈ trace (run w schedule) →
            email_info msg ∈ data
            ∧ aggregate_email_data data = Raise TypeError) as Hraise.
  { intros data Hdata.
    destruct (inv_final _ _ (run_invariant w schedule) data Hdata)
      as (_ & -> & Hdone & Hlen & Hpoll).
    assert (email_info msg ∈ email_data (run w schedule)) as Hin.
    { rewrite (inv_buffer _ _ (run_invariant w schedule)).
      apply list_elem_of_In, in_flat_map. exists (Extend b 0). split.
      - apply list_elem_of_In, (elem_of_events_of b).
        destruct (lookup_lt_is_Some_2 (futures (run w schedule)) b) as [f Hf];
          [lia|].
        rewrite Forall_forall in Hdone.
        rewrite (Hdone f) in Hf by (by eapply list_elem_of_lookup_2).
        destruct (batch_events_done w schedule b Hf) as [Hev|Hev].
        + exfalso. apply (Hpoll (Worker b)), (elem_of_events_of b).
          rewrite Hev. by left.
        + rewrite Hev. unfold fetch_script. simpl. rewrite Hg. simpl.
          right. right. left.
      - apply list_elem_of_In. simpl. rewrite Hg.
        by apply list_elem_of_fmap_2. }
    split; [done|]. apply aggregate_unparseable, Exists_exists.
    exists (email_info msg). split; [done|]. split; [|done].
    rewrite recipients_of_email_info. by destruct (all_recipients msg). }
  split.
  - intros request (data & Hdata & Hin)%Hwr.
    apply final_events_write in Hin as (m & _ & _ & Hok & _).
    destruct (Hraise data Hdata) as [_ Hr]. congruence.
  - intros data Hdata. destruct (Hraise data Hdata) as [Hin Hr].
    split_and!; [done..|]. apply (Hagg data Hdata).
    rewrite final_events_cases, Hr. right. left.
Qed.

Lemma unparseable_message_blocks_the_upload_witness :
  (∀ request,
     Write request
     ∉ trace (run one_undated (completing_schedule (total_batches one_undated))))
  ∧ (∀ data,
       Aggregate data
       ∈ trace (run one_undated
                  (completing_schedule (total_batches one_undated))) →
       email_info undated ∈ data
       ∧ aggregate_email_data data = Raise TypeError
       ∧ Log Main (FinalError TypeError)
         ∈ trace (run one_undated
                    (completing_schedule (total_batches one_undated)))).
Proof.
  apply (unparseable_message_blocks_the_upload one_undated
           (completing_schedule (total_batches one_undated)) 1 [undated] "").
  - vm_compute. lia.
  - reflexivity.
  - left.
  - discriminate.
  - reflexivity.
Defined.

(** X24. A request that fails with an exception (no reply at all) is not
    tried again: the batch logs the error and is over, after one request,
    without a sleep and without adding anything to the buffer. *)
Theorem transport_error_is_not_retried (w : world) (schedule : list actor)
    (b : nat) (description : string) :
  graph_get w b 0 = RequestException description →
  (events_of b (trace (run w schedule)) = [Poll (Worker b) true]
   ∨ events_of b (trace (run w schedule))
     `prefix_of` [Poll (Worker b) false; Get b 0;
                  Log (Worker b) (BatchError b description)])
  ∧ (∀ retries, Get b (S retries) ∉ trace (run w schedule))
  ∧ (∀ seconds, Sleep b seconds ∉ trace (run w schedule))
  ∧ (∀ retries, Extend b retries ∉ trace (run w schedule))
  ∧ (futures (run w schedule) !! b = Some Done →
     Poll (Worker b) false ∈ trace (run w schedule) →
     Log (Worker b) (BatchError b description) ∈ trace (run w schedule)).
Proof.
  intros Hg.
  assert (fetch_script w b
          = [Get b 0; Log (Worker b) (BatchError b description)]) as Hscript
    by (unfold fetch_script; simpl; by rewrite Hg).
  assert (∀ ev, ev ∈ events_of b (trace (run w schedule)) →
            (∃ answer, ev = Poll (Worker b) answer) ∨ ev = Get b 0
            ∨ ev = Log (Worker b) (BatchError b description)) as Hevs.
  { intros ev [?|Hev]%batch_event_in_script; [by left|]. right.
    rewrite Hscript in Hev.
    apply elem_of_cons in Hev as [?|Hev]; [by left|].
    apply list_elem_of_singleton in Hev. by right. }
  split_and!.
  - destruct (batch_events_shape w schedule b) as [H|[H|(rest & H & Hpre)]].
    + right. rewrite H. apply prefix_nil.
    + by left.
    + right. rewrite H. rewrite Hscript in Hpre. by apply prefix_cons.
  - intros retries Hin. apply (events_of_elem b) in Hin; [|done].
    apply Hevs in Hin as [[? ?]|[?|?]]; done.
  - intros seconds Hin. apply (events_of_elem b) in Hin; [|done].
    apply Hevs in Hin as [[? ?]|[?|?]]; done.
  - intros retries Hin. apply (events_of_elem b) in Hin; [|done].
    apply Hevs in Hin as [[? ?]|[?|?]]; done.
  - intros Hdone Hpoll.
    destruct (batch_events_done w schedule b Hdone) as [Hev|Hev].
    + apply (events_of_elem b) in Hpoll; [|done]. rewrite Hev in Hpoll.
      by apply list_elem_of_singleton in Hpoll.
    + apply (elem_of_events_of b). rewrite Hev, Hscript. right. right. left.
Qed.

Lemma transport_error_is_not_retried_witness :
  (events_of 1 (trace (run broken_connection RunExamples.to_the_end))
   = [Poll (Worker 1) true]
   ∨ events_of 1 (trace (run broken_connection RunExamples.to_the_end))
     `prefix_of` [Poll (Worker 1) false; Get 1 0;
                  Log (Worker 1) (BatchError 1 "Connection refused")])
  ∧ (∀ retries,
       Get 1 (S retries) ∉ trace (run broken_connection RunExamples.to_the_end))
  ∧ (∀ seconds,
       Sleep 1 seconds ∉ trace (run broken_connection RunExamples.to_the_end))
  ∧ (∀ retries,
       Extend 1 retries ∉ trace (run broken_connection RunExamples.to_the_end))
  ∧ (futures (run broken_connection RunExamples.to_the_end) !! 1 = Some Done →
     Poll (Worker 1) false
     ∈ trace (run broken_connection RunExamples.to_the_end) →
     Log (Worker 1) (BatchError 1 "Connection refused")
     ∈ trace (run broken_connection RunExamples.to_the_end)).
Proof.
  apply (transport_error_is_not_retried broken_connection
           RunExamples.to_the_end 1 "Connection refused").
  reflexivity.
Defined.

(** ** The number of requests *)

Section Quota.

Context (w : world).

Lemma final_events_gets data :
  filter (fun ev => is_get ev = true) (final_events w data) = [].
Proof.
  assert (∀ evs, (∀ ev, ev ∈ evs → is_get ev = false) →
            filter (fun ev => is_get ev = true) evs = []) as Hnone.
  { induction evs as [|ev evs IH]; intros H; [done|].
    rewrite filter_cons, decide_False
      by (rewrite (H ev) by (by left); done).
    apply IH. intros ev' ?. apply H. by right. }
  apply Hnone. intros ev H%final_events_elem.
  destruct H as [->|[[? ->]|[? ->]]]; done.
Qed.

Opaque final_events.

Lemma main_step_gets s :
  filter (fun ev => is_get ev = true) (trace (main_step w s))
  = filter (fun ev => is_get ev = true) (trace s).
Proof.
  remember (main_step w s) as s' eqn:Hs'. unfold main_step in Hs'.
  case_step Hs'; subst s'; simpl; rewrite ?filter_app; try done;
    rewrite ?filter_cons, ?filter_nil; simpl;
    rewrite ?final_events_gets, ?app_nil_r; done.
Qed.

Transparent final_events.

Lemma requests_left_cancel_all fs :
  sum_list_with requests_left (cancel_all fs) ≤ sum_list_with requests_left fs.
Proof.
  unfold cancel_all. induction fs as [|f fs IH]; [done|].
  cbn [map sum_list_with]. destruct f; cbn [requests_left]; lia.
Qed.

Lemma step_quota a s :
  length (filter (fun ev => is_get ev = true) (trace s))
  + sum_list_with requests_left (futures s)
  ≤ MAX_RETRIES * length (futures s) →
  length (filter (fun ev => is_get ev = true) (trace (step w a s)))
  + sum_list_with requests_left (futures (step w a s))
  ≤ MAX_RETRIES * length (futures (step w a s)).
Proof.
  intros Hs. destruct a as [| |b]; simpl.
  - rewrite filter_app, length_app, filter_cons, decide_False by done.
    simpl. unfold MAX_RETRIES in *. lia.
  - rewrite main_step_gets.
    destruct (main_step_futures w s) as [->|[->| ->]]; [done| |].
    + rewrite sum_list_with_app, length_app. simpl. unfold MAX_RETRIES in *. lia.
    + pose proof (requests_left_cancel_all (futures s)).
      unfold cancel_all, MAX_RETRIES in *. rewrite length_map. lia.
  - remember (worker_step w b s) as s' eqn:Hs'. unfold worker_step in Hs'.
    case_step Hs'; subst s'; simpl; try done;
      rewrite ?filter_app, ?length_app, ?length_insert;
      match goal with
      | H : futures s !! b = Some ?f |- context [<[b := ?f']> _] =>
          pose proof (sum_list_with_insert requests_left (futures s) b f f' H)
            as Hsum
      end;
      repeat match goal with
             | H : (_ <? _) = true |- _ => apply Nat.ltb_lt in H
             | H : (_ <? _) = false |- _ => apply Nat.ltb_ge in H
             end;
      simpl in *; unfold MAX_RETRIES in *; lia.
Qed.

Lemma run_quota schedule :
  length (filter (fun ev => is_get ev = true) (trace (run w schedule)))
  + sum_list_with requests_left (futures (run w schedule))
  ≤ MAX_RETRIES * length (futures (run w schedule)).
Proof.
  unfold run. induction schedule as [|a schedule IH] using rev_ind.
  - simpl. lia.
  - rewrite run_from_snoc. by apply step_quota.
Qed.

End Quota.

(** X25. A run makes at most [MAX_RETRIES] requests for each batch, hence
    at most [MAX_RETRIES * total_batches] in all, whatever the schedule;
    every request is for a batch of the run, and no batch adds its page to
    the buffer twice. *)
Theorem request_quota (w : world) (schedule : list actor) :
  length (filter (fun ev => is_get ev = true) (trace (run w schedule)))
  ≤ MAX_RETRIES * total_batches w
  ∧ (∀ b retries, Get b retries ∈ trace (run w schedule) →
       b < total_batches w ∧ retries < MAX_RETRIES)
  ∧ (∀ b, length (filter (fun ev => is_get ev = true)
                         (events_of b (trace (run w schedule)))) ≤ MAX_RETRIES)
  ∧ (∀ b, length (filter (fun ev => is_extend ev = true)
                         (events_of b (trace (run w schedule)))) ≤ 1).
Proof.
  assert (∀ (P : event → Prop) `{∀ ev, Decision (P ev)} b n,
            (∀ who answer, ¬ P (Poll who answer)) →
            length (filter P (fetch_script w b)) ≤ n →
            length (filter P (events_of b (trace (run w schedule)))) ≤ n)
    as Hshape.
  { intros P ? b n Hpoll Hn.
    destruct (batch_events_shape w schedule b) as [He|[He|(rest & He & Hpre)]];
      rewrite He.
    - simpl. lia.
    - rewrite filter_cons, decide_False by apply Hpoll. simpl. lia.
    - rewrite filter_cons, decide_False by apply Hpoll.
      pose proof (prefix_filter_length P _ _ Hpre). lia. }
  split_and!.
  - pose proof (run_quota w schedule). pose proof (futures_bound w schedule).
    unfold MAX_RETRIES in *. lia.
  - intros b retries Hin. apply (events_of_elem b) in Hin; [|done].
    split; [by eapply batch_has_future|].
    apply batch_event_in_script in Hin as [[answer [=]]|Hin].
    apply attempts_get in Hin. lia.
  - intros b. apply Hshape; [done|]. apply attempts_gets.
  - intros b. apply Hshape; [done|]. apply attempts_one_extend.
Qed.
(** ** The listing of the destination table *)

Section Listing.

Import Listing.

Lemma loop_reaches s params_offset pages last :
  reaches s params_offset pages last →
  ∀ fuel all_records,
    loop s (length pages + fuel) params_offset all_records
    = loop s fuel last (all_records ++ concat pages).
Proof.
  induction 1 as [o|o data next pages last Hs Hnext _ IH]; intros fuel acc.
  - simpl. by rewrite app_nil_r.
  - simpl. rewrite Hs, Hnext, IH. by rewrite <- app_assoc.
Qed.

Lemma loop_out_of_fuel s params_offset pages last :
  reaches s params_offset pages last →
  ∀ fuel all_records,
    fuel ≤ length pages → loop s fuel params_offset all_records = None.
Proof.
  induction 1 as [o|o data next pages last Hs Hnext _ IH]; intros fuel acc Hf.
  - simpl in Hf. by replace fuel with 0 by lia.
  - destruct fuel as [|fuel]; [done|]. simpl. rewrite Hs, Hnext.
    apply IH. simpl in Hf. lia.
Qed.

End Listing.

(** X26. [fetch_all_airtable_records] follows the offsets from the first
    request: when the request it reaches is answered by a page without
    offset, it returns the records of all the pages, in the order of the
    pages; when that request is answered by an error status, it raises and
    the records of the pages before are not returned; and as long as the
    pages carry an offset the loop goes on. *)
Theorem listing_follows_the_offsets (s : Listing.service)
    (pages : list (list airtable_record)) (last : option string) :
  Listing.reaches s None pages last →
  (∀ data fuel, s last = Listing.Page data → Listing.offset data = None →
     length pages < fuel →
     Listing.fetch_all_airtable_records s fuel
     = Some (Listing.Fetched
               (concat pages ++ default [] (Listing.records data))))
  ∧ (∀ status_code fuel, s last = Listing.ErrorStatus status_code →
       length pages < fuel →
       Listing.fetch_all_airtable_records s fuel
       = Some (Listing.HTTPError status_code))
  ∧ (∀ fuel, fuel ≤ length pages →
       Listing.fetch_all_airtable_records s fuel = None).
Proof.
  intros Hreach. unfold Listing.fetch_all_airtable_records. split_and!.
  - intros data fuel Hs Hoff Hfuel.
    replace fuel with (length pages + S (fuel - S (length pages))) by lia.
    rewrite (loop_reaches _ _ _ _ Hreach). simpl. by rewrite Hs, Hoff.
  - intros status_code fuel Hs Hfuel.
    replace fuel with (length pages + S (fuel - S (length pages))) by lia.
    rewrite (loop_reaches _ _ _ _ Hreach). simpl. by rewrite Hs.
  - intros fuel Hfuel. by eapply loop_out_of_fuel.
Qed.

Lemma listing_follows_the_offsets_witness :
  (∀ data fuel,
     Listing.two_pages (Some "itr2") = Listing.Page data →
     Listing.offset data = None →
     length [[SyncExamples.carol_stored; SyncExamples.bob_stored]] < fuel →
     Listing.fetch_all_airtable_records Listing.two_pages fuel
     = Some (Listing.Fetched
               (concat [[SyncExamples.carol_stored; SyncExamples.bob_stored]]
                ++ default [] (Listing.records data))))
  ∧ (∀ status_code fuel,
       Listing.two_pages (Some "itr2") = Listing.ErrorStatus status_code →
       length [[SyncExamples.carol_stored; SyncExamples.bob_stored]] < fuel →
       Listing.fetch_all_airtable_records Listing.two_pages fuel
       = Some (Listing.HTTPError status_code))
  ∧ (∀ fuel,
       fuel ≤ length [[SyncExamples.carol_stored; SyncExamples.bob_stored]] →
       Listing.fetch_all_airtable_records Listing.two_pages fuel = None).
Proof.
  apply (listing_follows_the_offsets Listing.two_pages
           [[SyncExamples.carol_stored; SyncExamples.bob_stored]]
           (Some "itr2")).
  eapply (Listing.reaches_next _ None
            {| Listing.records :=
                 Some [SyncExamples.carol_stored; SyncExamples.bob_stored];
               Listing.offset := Some "itr2" |});
    [reflexivity|reflexivity|apply Listing.reaches_here].
Defined.

Example listing_two_pages :
  Listing.fetch_all_airtable_records Listing.two_pages 2
  = Some (Listing.Fetched [SyncExamples.carol_stored; SyncExamples.bob_stored;
                           SyncExamples.carol_stale])
  ∧ Listing.fetch_all_airtable_records Listing.second_page_refused 2
    = Some (Listing.HTTPError 429).
Proof. done. Qed.

(** X27. The loop has no bound of its own: against a service that sends an
    offset with every page, [fetch_all_airtable_records] does not return,
    however many requests it is allowed. *)
Theorem listing_needs_a_last_page (s : Listing.service) :
  (∀ params_offset, ∃ data next,
     s params_offset = Listing.Page data ∧ Listing.offset data = Some next) →
  ∀ fuel, Listing.fetch_all_airtable_records s fuel = None.
Proof.
  intros Hs fuel. unfold Listing.fetch_all_airtable_records.
  generalize (@nil airtable_record). generalize (@None string).
  induction fuel as [|fuel IH]; intros o acc; [done|].
  simpl. destruct (Hs o) as (data & next & -> & ->). apply IH.
Qed.

Lemma listing_needs_a_last_page_witness :
  Listing.fetch_all_airtable_records Listing.endless 1000 = None.
Proof.
  apply (listing_needs_a_last_page Listing.endless).
  intros params_offset. by eexists _, _.
Defined.
(** ** The logger of the dashboard *)

Section Logger.

Import ThreadSafeLogger.

(** What one call does to the lines: it clears them, or it appends some
    lines to the history, and what it returns together with the queue it
    leaves is the queue it found together with those lines. *)
Lemma perform_lines c self :
  (is_clear c = true
   ∧ log_history (perform c self) = [] ∧ log_queue (perform c self) = [])
  ∨ (is_clear c = false
     ∧ ∃ new,
         log_history (perform c self) = log_history self ++ new
         ∧ drained c self ++ log_queue (perform c self)
           = log_queue self ++ new).
Proof.
  destruct c as [ts msg| | | |alive ts| | |]; simpl;
    try (right; split; [done|]; exists []; by rewrite !app_nil_r).
  - right. split; [done|]. by eexists.
  - by left.
  - right. split; [done|]. unfold stop_processing, is_thread_active. simpl.
    destruct (active_thread self); [destruct alive|]; simpl;
      first [by eexists | exists []; by rewrite ?app_nil_r].
Qed.

Lemma session_cons c calls self :
  session (c :: calls) self
  = (drained c self ++ fst (session calls (perform c self)),
     snd (session calls (perform c self))).
Proof. simpl. by destruct (session calls (perform c self)). Qed.

Lemma session_lines calls : ∀ self pre,
  log_history self = pre ++ log_queue self →
  forallb (fun c => negb (is_clear c)) calls = true →
  log_history (snd (session calls self))
  = pre ++ fst (session calls self) ++ log_queue (snd (session calls self)).
Proof.
  induction calls as [|c calls IH]; intros self pre Hself Hcalls.
  - done.
  - rewrite session_cons. simpl in *.
    apply andb_true_iff in Hcalls as [Hc Hcalls].
    destruct (perform_lines c self) as [(Hclear & _)|(_ & new & Hh & Hq)];
      [by rewrite Hclear in Hc|].
    assert (log_history (perform c self)
            = (pre ++ drained c self) ++ log_queue (perform c self)) as Hpre.
    { rewrite Hh, Hself, <- !app_assoc. f_equal. by rewrite Hq. }
    rewrite (IH _ _ Hpre Hcalls). by rewrite <- !app_assoc.
Qed.

Lemma session_suffix calls : ∀ self,
  log_queue self `suffix_of` log_history self →
  log_queue (snd (session calls self))
  `suffix_of` log_history (snd (session calls self)).
Proof.
  induction calls as [|c calls IH]; intros self Hself; [done|].
  rewrite session_cons. simpl. apply IH.
  destruct (perform_lines c self) as [(_ & -> & ->)|(_ & new & Hh & Hq)];
    [done|].
  destruct Hself as [pre Hpre]. exists (pre ++ drained c self).
  rewrite Hh, Hpre, <- !app_assoc. f_equal. by rewrite Hq.
Qed.

Lemma session_stopped calls : ∀ self,
  is_stopped (snd (session calls self))
  = is_stopped self || existsb is_stop calls.
Proof.
  induction calls as [|c calls IH]; intros self.
  - simpl. by rewrite orb_false_r.
  - rewrite session_cons. simpl. rewrite IH.
    destruct c as [| | | |alive ts| | |]; simpl; try done.
    unfold stop_processing, is_thread_active. simpl.
    destruct (active_thread self); [destruct alive|]; simpl;
      by rewrite orb_true_r.
Qed.

End Logger.

(** X28. The logger loses no line and repeats none: after any sequence of
    calls the queue is the end of the history; and as long as the logs are
    not cleared, the history is, in order, the lines that the calls of
    [get_new_logs] have returned followed by the lines still in the
    queue. *)
Theorem logger_keeps_every_line (calls : list ThreadSafeLogger.call) :
  ThreadSafeLogger.log_queue
    (snd (ThreadSafeLogger.session calls ThreadSafeLogger.init))
  `suffix_of`
  ThreadSafeLogger.log_history
    (snd (ThreadSafeLogger.session calls ThreadSafeLogger.init))
  ∧ (forallb (fun c => negb (ThreadSafeLogger.is_clear c)) calls = true →
     ThreadSafeLogger.get_all_logs
       (snd (ThreadSafeLogger.session calls ThreadSafeLogger.init))
     = fst (ThreadSafeLogger.session calls ThreadSafeLogger.init)
       ++ ThreadSafeLogger.log_queue
            (snd (ThreadSafeLogger.session calls ThreadSafeLogger.init))).
Proof.
  split.
  - by apply session_suffix.
  - intros Hcalls. unfold ThreadSafeLogger.get_all_logs.
    by rewrite (session_lines calls ThreadSafeLogger.init []).
Qed.

(** X29. Only [stop_processing] sets the stop flag and no method of the
    logger clears it: after any sequence of calls the flag is set exactly
    when one of them was [stop_processing]. Right after [stop_processing]
    the logger reports no active thread, even when the processing thread is
    still alive, and the forced-stop line is logged only in that case. *)
Theorem stop_flag_is_permanent (calls : list ThreadSafeLogger.call)
    (self : ThreadSafeLogger.t) (is_alive : bool) (timestamp : string) :
  ThreadSafeLogger.should_stop (snd (ThreadSafeLogger.session calls self))
  = ThreadSafeLogger.is_stopped self
    || existsb ThreadSafeLogger.is_stop calls
  ∧ ThreadSafeLogger.should_stop
      (ThreadSafeLogger.stop_processing is_alive timestamp self) = true
  ∧ ThreadSafeLogger.is_thread_active is_alive
      (ThreadSafeLogger.stop_processing is_alive timestamp self) = false
  ∧ ThreadSafeLogger.log_history
      (ThreadSafeLogger.stop_processing is_alive timestamp self)
    = ThreadSafeLogger.log_history self
      ++ (if ThreadSafeLogger.is_thread_active is_alive self
          then [ThreadSafeLogger.log_entry timestamp
                  ThreadSafeLogger.FORCED_STOP]
          else []).
Proof.
  split; [apply session_stopped|].
  unfold ThreadSafeLogger.stop_processing, ThreadSafeLogger.is_thread_active,
    ThreadSafeLogger.should_stop.
  simpl. destruct (ThreadSafeLogger.active_thread self) eqn:E;
    [destruct is_alive|]; simpl; rewrite ?E, ?app_nil_r; done.
Qed.

Example logger_sample_session :
  fst (ThreadSafeLogger.session ThreadSafeLogger.sample_session
         ThreadSafeLogger.init)
  = ["[09:15:00] Starting"]
  ∧ ThreadSafeLogger.log_queue
      (snd (ThreadSafeLogger.session ThreadSafeLogger.sample_session
              ThreadSafeLogger.init))
    = ["[09:15:01] Total emails: 100";
       ThreadSafeLogger.log_entry "09:15:02" ThreadSafeLogger.FORCED_STOP]
  ∧ ThreadSafeLogger.active_thread
      (snd (ThreadSafeLogger.session ThreadSafeLogger.sample_session
              ThreadSafeLogger.init))
    = None.
Proof. done. Qed.

(** ** The schedule and the result *)

Section Schedules.

Context (w : world).

Lemma flat_map_pointwise {A B} (f g : A → list B) l :
  (∀ x, x ∈ l → f x = g x) → flat_map f l = flat_map g l.
Proof.
  induction l as [|x l IH]; intros H; [done|]. simpl.
  rewrite (H x) by (by left). f_equal. apply IH. intros y ?. apply H. by right.
Qed.

Lemma perm_of_eq {A} (l k : list A) : l = k → l ≡ₚ k.
Proof. by intros ->. Qed.

(** Moving the contribution of one index to the front. *)
Lemma flat_map_one_more {B} (g : nat → list B) (extra : list B) b0 l :
  NoDup l → b0 ∈ l →
  flat_map (fun b => (if decide (b0 = b) then extra else []) ++ g b) l
  ≡ₚ extra ++ flat_map g l.
Proof.
  induction 1 as [|a l Ha Hnd IH]; [by intros ?%elem_of_nil|].
  intros Hin. simpl. destruct (decide (b0 = a)) as [->|Hne].
  - rewrite <- app_assoc. do 2 f_equiv.
    rewrite (flat_map_pointwise _ g); [done|].
    intros b Hb. rewrite decide_False; [done|]. by intros <-.
  - apply elem_of_cons in Hin as [?|Hin]; [done|]. simpl.
    rewrite (IH Hin). by rewrite Permutation_app_swap_app.
Qed.

(** The records of a trace, batch by batch. *)
Lemma records_by_batch n tr :
  (∀ ev, ev ∈ tr → records_of_event w ev ≠ [] →
         ∃ b, batch_of ev = Some b ∧ b < n) →
  flat_map (records_of_event w) tr
  ≡ₚ flat_map (fun b => flat_map (records_of_event w) (events_of b tr))
              (seq 0 n).
Proof.
  induction tr as [|ev tr IH]; intros Hb.
  - unfold events_of. simpl.
    induction (seq 0 n) as [|b l IHl]; [done|]. by simpl.
  - simpl.
    assert (∀ b, flat_map (records_of_event w) (events_of b (ev :: tr))
                 = (if decide (batch_of ev = Some b)
                    then records_of_event w ev else [])
                   ++ flat_map (records_of_event w) (events_of b tr)) as Hcons.
    { intros b. unfold events_of. rewrite filter_cons.
      by destruct (decide (batch_of ev = Some b)). }
    rewrite (flat_map_pointwise _ _ _ (fun b _ => Hcons b)).
    rewrite IH by (intros ev' ?; apply Hb; by right).
    set (G := fun b => flat_map (records_of_event w) (events_of b tr)).
    destruct (records_of_event w ev) as [|e es] eqn:Hrec.
    + simpl. apply perm_of_eq, flat_map_pointwise.
      intros b _. by destruct (decide _).
    + destruct (Hb ev) as (b0 & Hb0 & Hlt); [by left|by rewrite Hrec|].
      etrans; [symmetry; apply (flat_map_one_more G (e :: es) b0);
               [apply NoDup_seq|apply elem_of_seq; lia]|].
      apply perm_of_eq, flat_map_pointwise.
      intros b _. rewrite Hb0.
      destruct (decide (Some b0 = Some b)) as [[= ->]|Hne].
      * by rewrite decide_True.
      * rewrite decide_False; [done|]. by intros ->.
Qed.

(** The buffer that is aggregated holds what the batches collect. *)
Lemma aggregated_is_collected schedule data :
  Aggregate data ∈ trace (run w schedule) → data ≡ₚ collected w.
Proof.
  intros Hdata.
  destruct (inv_final _ _ (run_invariant w schedule) data Hdata)
    as (_ & -> & Hdone & Hlen & Hpoll).
  rewrite (inv_buffer _ _ (run_invariant w schedule)).
  rewrite (records_by_batch (total_batches w)).
  - unfold collected. apply perm_of_eq, flat_map_pointwise.
    intros b Hb%elem_of_seq.
    destruct (lookup_lt_is_Some_2 (futures (run w schedule)) b) as [f Hf];
      [lia|].
    rewrite Forall_forall in Hdone.
    rewrite (Hdone f) in Hf by (by eapply list_elem_of_lookup_2).
    destruct (batch_events_done w schedule b Hf) as [Hev|Hev].
    + exfalso. apply (Hpoll (Worker b)), (elem_of_events_of b).
      rewrite Hev. by left.
    + by rewrite Hev.
  - intros ev Hev Hrec. destruct ev as [| | |b r|b r| | | |]; try done.
    exists b. split; [done|].
    apply (batch_has_future w schedule b (Extend b r)).
    by apply events_of_elem.
Qed.

Lemma forget_names_permutation (l l' : list email) :
  l ≡ₚ l' →
  forget_names (aggregate_email_data l) = forget_names (aggregate_email_data l').
Proof.
  intros Hp.
  destruct (decide (Exists unparseable l)) as [Hex|Hex].
  - assert (Exists unparseable l') as Hex' by (by rewrite <- Hp).
    by rewrite (aggregate_unparseable _ Hex), (aggregate_unparseable _ Hex').
  - assert (Forall (fun e => ¬ unparseable e) l) as Hall
      by (by apply not_Exists_Forall; [apply _|]).
    assert (Forall (fun e => ¬ unparseable e) l') as Hall'
      by (by rewrite <- Hp).
    destruct (aggregate_total _ Hall) as (m & Hm & _).
    destruct (aggregate_total _ Hall') as (m' & Hm' & _).
    rewrite Hm, Hm'. simpl. f_equal. apply map_eq. intros r.
    rewrite !lookup_fmap.
    destruct (aggregate_invariant _ _ Hm r) as [Hd _].
    destruct (aggregate_invariant _ _ Hm' r) as [Hd' _].
    apply (describes_unique l' r); [by apply (describes_perm l)|done].
Qed.

End Schedules.

(** X30. What a run aggregates does not depend on the schedule: the
    records aggregated are, up to their order, the pages that the batches
    collect, each once; so two runs that reach the aggregation compute the
    same aggregate in every field but [Name] (or both fail). *)
Theorem aggregate_does_not_depend_on_the_schedule (w : world)
    (schedule1 schedule2 : list actor) (data1 data2 : list email) :
  Aggregate data1 ∈ trace (run w schedule1) →
  Aggregate data2 ∈ trace (run w schedule2) →
  data1 ≡ₚ collected w
  ∧ data1 ≡ₚ data2
  ∧ forget_names (aggregate_email_data data1)
    = forget_names (aggregate_email_data data2).
Proof.
  intros H1%aggregated_is_collected H2%aggregated_is_collected.
  assert (data1 ≡ₚ data2) as Hp by (by rewrite H1, H2).
  split_and!; [done|done|]. by apply forget_names_permutation.
Qed.

Lemma aggregate_does_not_depend_on_the_schedule_witness :
  email_info <$> (RunExamples.page 0 ++ RunExamples.page 1)
  ≡ₚ collected RunExamples.two_batches
  ∧ email_info <$> (RunExamples.page 0 ++ RunExamples.page 1)
    ≡ₚ email_info <$> (RunExamples.page 1 ++ RunExamples.page 0)
  ∧ forget_names
      (aggregate_email_data
         (email_info <$> (RunExamples.page 0 ++ RunExamples.page 1)))
    = forget_names
        (aggregate_email_data
           (email_info <$> (RunExamples.page 1 ++ RunExamples.page 0))).
Proof.
  apply (aggregate_does_not_depend_on_the_schedule RunExamples.two_batches
           (completing_schedule 2) batch_1_first);
    apply list_elem_of_In; vm_compute;
    repeat (first [left; reflexivity | right]).
Defined.
